(** * OneDrive cross-account migration: planner and resumable transfer engine

    A shallow embedding of [onedrive_migrate_cli.py] and the properties of
    its planner ([plan_with_diff]), filter evaluator ([apply_filters]),
    folder creation ([ensure_folder]), chunked upload ([upload_large]) and
    executor ([execute]).

    Conventions of the embedding:
    - Python [str] is [string]; [str.lower] is modelled on the ASCII range.
    - [pathlib.Path] is modelled in its POSIX flavour ([Module Posix]).
    - The Graph service is an explicit state machine ([Service]); every
      function that talks to it threads a [World] and may raise. *)

From Stdlib Require Import ZArith Ascii String.
From stdpp Require Import base option list strings gmap.

Local Open Scope Z_scope.

(** ** Text helpers: the pieces of Python [str] used by the program *)

Module Text.

(** [c.lower()] for one ASCII character: the letters [A] to [Z] are
    folded, every other character is left as it is. *)
Definition lower_char (c : ascii) : ascii :=
  let n := nat_of_ascii c in
  if (Nat.leb 65 n && Nat.leb n 90)%bool then ascii_of_nat (n + 32) else c.

(** [s.lower()], for text in ASCII. *)
Fixpoint lower (s : string) : string :=
  match s with
  | EmptyString => EmptyString
  | String c s' => String (lower_char c) (lower s')
  end.


(** [s[n:]]. *)
Fixpoint drop (n : nat) (s : string) : string :=
  match n, s with
  | O, _ => s
  | S n', EmptyString => EmptyString
  | S n', String _ s' => drop n' s'
  end.

(** [s.endswith(suffix)]. *)
Definition endswith (s suffix : string) : bool :=
  (Nat.leb (String.length suffix) (String.length s)
   && String.eqb (drop (String.length s - String.length suffix) s) suffix)%bool.

(** [s.startswith(p)]. *)
Fixpoint startswith (s p : string) : bool :=
  match p, s with
  | EmptyString, _ => true
  | String _ _, EmptyString => false
  | String a p', String b s' => (Ascii.eqb a b && startswith s' p')%bool
  end.

(** [sep.join(parts)]. *)
Fixpoint join (sep : string) (parts : list string) : string :=
  match parts with
  | [] => ""
  | [p] => p
  | p :: rest => p +:+ sep +:+ join sep rest
  end.

(** [s.split(c)] for a one-character separator: the accumulator holds the
    characters of the current field in reverse. *)
Fixpoint split_acc (c : ascii) (acc : string) (s : string) : list string :=
  match s with
  | EmptyString => [String.rev acc]
  | String a s' =>
      if Ascii.eqb a c then String.rev acc :: split_acc c EmptyString s'
      else split_acc c (String a acc) s'
  end.

Definition split (c : ascii) (s : string) : list string :=
  split_acc c EmptyString s.

(** Truthiness of a Python string. *)
Definition truthy (s : string) : bool :=
  match s with EmptyString => false | _ => true end.

(** ["/" in s]. *)
Fixpoint has_slash (s : string) : bool :=
  match s with
  | EmptyString => false
  | String c s' => (Ascii.eqb c "/"%char || has_slash s')%bool
  end.

End Text.

(** ** Paths: [pathlib.PurePosixPath] as the program uses it *)

Module Posix.

(** A parsed path: its root (["", "/" or "//"]) and its components. *)
Record PurePath := { root : string; tail : list string }.

(** [posixpath.splitroot]: exactly two leading slashes are a root of their
    own; one, or three and more, give the root ["/"]. *)
Definition splitroot (p : string) : string * string :=
  match p with
  | String "/"%char (String "/"%char (String "/"%char r)) =>
      ("/", String "/"%char (String "/"%char r))
  | String "/"%char (String "/"%char r) => ("//", r)
  | String "/"%char r => ("/", r)
  | _ => ("", p)
  end.

(** A component is kept when it is neither empty nor ["."]. *)
Definition keep_component (x : string) : bool :=
  (Text.truthy x && negb (String.eqb x "."))%bool.

(** [pathlib.Path(s)]. *)
Definition Path (s : string) : PurePath :=
  let '(r, rel) := splitroot s in
  {| root := r; tail := List.filter keep_component (Text.split "/"%char rel) |}.

(** [p.parts]. *)
Definition parts (p : PurePath) : list string :=
  if Text.truthy (root p) then root p :: tail p else tail p.

(** [p.name]. *)
Definition name (p : PurePath) : string := List.last (tail p) "".

(** [p.parent]. *)
Definition parent (p : PurePath) : PurePath :=
  match tail p with
  | [] => p
  | _ => {| root := root p; tail := List.removelast (tail p) |}
  end.

(** [str(p)]. *)
Definition str (p : PurePath) : string :=
  let s := root p +:+ Text.join "/" (tail p) in
  if Text.truthy s then s else ".".

(** [posixpath.join(a, b)]. *)
Definition posixpath_join (a b : string) : string :=
  if Text.startswith b "/" then b
  else if (negb (Text.truthy a) || Text.endswith a "/")%bool then a +:+ b
  else a +:+ "/" +:+ b.

(** [pathlib.Path(a) / b], for [b] a string or the path made from it. *)
Definition truediv (a b : string) : PurePath := Path (posixpath_join a b).

End Posix.

(** ** Drive items and filters *)

(** One entry of a children listing, with the fields the program selects:
    [id], [name], [size], [folder], [specialFolder], [lastModifiedDateTime].
    [item_specialFolder] is the [name] inside the [specialFolder] facet when
    the facet is there and not empty. *)
Record Item := {
  item_id : string;
  item_name : string;
  item_size : option Z;
  item_folder : bool;
  item_specialFolder : option string;
  item_lastModifiedDateTime : option string
}.

(** The filter configuration built by [parse_filters]; datetimes are naive
    wall-clock instants counted in microseconds. *)
Record Filters := {
  exts : option (list string);
  modified_after : option Z;
  min_bytes : option Z;
  max_bytes : option Z
}.

(** [is_vault]: the special-folder tag is ["vault"], or the lower-cased name
    is one of the two vault names. *)
Definition is_vault (item : Item) : bool :=
  (match item_specialFolder item with
   | Some n => String.eqb n "vault"
   | None => false
   end
   || String.eqb (Text.lower (item_name item)) "personal vault"
   || String.eqb (Text.lower (item_name item)) "vault")%bool.

(** [int(item.get("size", 0))]. *)
Definition size_of (item : Item) : Z := default 0 (item_size item).

Section Filtering.

(** [datetime.fromisoformat(lm.replace("Z","+00:00")).replace(tzinfo=None)];
    [None] when the parse raises. *)
Variable fromisoformat : string -> option Z.

(** [apply_filters], statement by statement. *)
Definition apply_filters (item : Item) (filters : Filters) : bool :=
  if item_folder item then true
  else
    let name := item_name item in
    let size := size_of item in
    let lm := item_lastModifiedDateTime item in
    let ext_reject :=
      match exts filters with
      | Some (e :: es) =>
          negb (existsb (fun e' => Text.endswith (Text.lower name) (Text.lower e'))
                        (e :: es))
      | _ => false
      end in
    if ext_reject then false
    else
      let date_reject :=
        match modified_after filters, lm with
        | Some after, Some s =>
            if Text.truthy s then
              match fromisoformat s with
              | Some dt => dt <? after
              | None => false
              end
            else false
        | _, _ => false
        end in
      if date_reject then false
      else
        let min_reject :=
          match min_bytes filters with Some m => size <? m | None => false end in
        if min_reject then false
        else
          let max_reject :=
            match max_bytes filters with Some m => m <? size | None => false end in
          if max_reject then false else true.

(** The filter as the specification words it. *)








End Filtering.

(** ** Plans, statistics and summaries *)

(** The [status] of a file entry of the plan. *)
Inductive Status := not_present | exists_same | exists_different.

Global Instance Status_eq_dec : EqDecision Status.
Proof. solve_decision. Defined.

(** One entry of the plan, by its ["type"]: ["skip_vault"], ["folder"] or
    ["file"], with the keys each one carries. *)
Inductive Action :=
| skip_vault (source : string)
| folder (source target : string)
| file (source target : string) (size : Z) (id : string) (status : Status).

(** The [stats] dictionary of [plan_with_diff]. *)
Module Stats.
Record t := {
  folders : Z;
  files : Z;
  bytes : Z;
  skipped_vault : Z;
  skip_existing_same : Z;
  existing_diff : Z;
  not_present : Z
}.
Definition zero : t := Build_t 0 0 0 0 0 0 0.

(** [stats["folders"] += 1]. *)
Definition add_folder (s : t) : t :=
  Build_t (folders s + 1) (files s) (bytes s) (skipped_vault s)
          (skip_existing_same s) (existing_diff s) (not_present s).

(** [stats["skipped_vault"] += 1]. *)
Definition add_skipped_vault (s : t) : t :=
  Build_t (folders s) (files s) (bytes s) (skipped_vault s + 1)
          (skip_existing_same s) (existing_diff s) (not_present s).

(** [stats["not_present"] += 1]. *)
Definition add_not_present (s : t) : t :=
  Build_t (folders s) (files s) (bytes s) (skipped_vault s)
          (skip_existing_same s) (existing_diff s) (not_present s + 1).

(** [stats["skip_existing_same"] += 1 if skip_identicals else 0]. *)
Definition add_skip_existing_same (skip_identicals : bool) (s : t) : t :=
  Build_t (folders s) (files s) (bytes s) (skipped_vault s)
          (skip_existing_same s + (if skip_identicals then 1 else 0))
          (existing_diff s) (not_present s).

(** [stats["existing_diff"] += 1]. *)
Definition add_existing_diff (s : t) : t :=
  Build_t (folders s) (files s) (bytes s) (skipped_vault s)
          (skip_existing_same s) (existing_diff s + 1) (not_present s).

(** [stats["files"] += 1; stats["bytes"] += size]. *)
Definition add_file (size : Z) (s : t) : t :=
  Build_t (folders s) (files s + 1) (bytes s + size) (skipped_vault s)
          (skip_existing_same s) (existing_diff s) (not_present s).
End Stats.

(** The [summary] dictionary of [execute]. *)
Module Summary.
Record t := {
  files_copied : Z;
  bytes_copied : Z;
  deleted : Z;
  folders_created : Z;
  skipped_identical : Z;
  skipped_vault : Z
}.
Definition zero : t := Build_t 0 0 0 0 0 0.

(** [summary["skipped_vault"] += 1]. *)
Definition add_skipped_vault (s : t) : t :=
  Build_t (files_copied s) (bytes_copied s) (deleted s) (folders_created s)
          (skipped_identical s) (skipped_vault s + 1).

(** [summary["folders_created"] += 1]. *)
Definition add_folder_created (s : t) : t :=
  Build_t (files_copied s) (bytes_copied s) (deleted s) (folders_created s + 1)
          (skipped_identical s) (skipped_vault s).

(** [summary["skipped_identical"] += 1]. *)
Definition add_skipped_identical (s : t) : t :=
  Build_t (files_copied s) (bytes_copied s) (deleted s) (folders_created s)
          (skipped_identical s + 1) (skipped_vault s).

(** [summary["files_copied"] += 1; summary["bytes_copied"] += size]. *)
Definition add_copied (size : Z) (s : t) : t :=
  Build_t (files_copied s + 1) (bytes_copied s + size) (deleted s)
          (folders_created s) (skipped_identical s) (skipped_vault s).

(** [summary["deleted"] += 1]. *)
Definition add_deleted (s : t) : t :=
  Build_t (files_copied s) (bytes_copied s) (deleted s + 1) (folders_created s)
          (skipped_identical s) (skipped_vault s).
End Summary.

(** ** The Graph service and the local disk *)

(** What the program can see raised. *)
Inductive exn :=
| HTTPError (status : Z)
| RuntimeError (msg : string)
| ConnectionError
| OSError.

(** Content is a sequence of bytes. *)
Abbreviation content := (list Byte.byte).

(** The iterator returned by [download_stream]: it yields [chunks] in order
    and then either stops or raises [broken]. *)
Record Reader := { chunks : list content; broken : option exn }.

(** The service, as a state machine over both accounts and the local file
    system. Each field is one request of the program; it gives what the
    caller gets back (the reply's status code, or what was raised) and the
    next state.
    - [get_target_item p]: [gget] on [root:/p] of the target, as a whole
      (retries included); 404 is a reply, not an exception.
    - [post_root_children name conflict]: POST to [root/children] of the
      target with the body [{name, folder, conflictBehavior}].
    - [list_source_children p]: [list_children], all pages followed.
    - [lookup_target p]: the [gget] of [target_lookup], [None] for 404.
    - [get_download_url id]: the metadata [gget] of [download_stream] and
      its [@microsoft.graph.downloadUrl].
    - [get_stream url]: the streaming GET of the download URL.
    - [put_content p data]: PUT to [root:/p:/content].
    - [post_upload_session p conflict]: POST to [createUploadSession],
      with the [uploadUrl] of the reply.
    - [put_chunk url start stop total data]: PUT of one byte range.
    - [delete_source_item id]: DELETE of a source item.
    - [open_cache_file p]: the [open(p, 'w')] of [save_cache] on the local
      disk: [None] when the file was opened for writing, or what was raised
      (a path that cannot be written). *)
Record Service (R : Type) := {
  get_target_item : string -> R -> (exn + Z) * R;
  post_root_children : string -> string -> R -> (exn + Z) * R;
  list_source_children : string -> R -> (exn + list Item) * R;
  lookup_target : string -> R -> (exn + option Item) * R;
  get_download_url : string -> R -> (exn + option string) * R;
  get_stream : string -> R -> (exn + Reader) * R;
  put_content : string -> content -> R -> (exn + Z) * R;
  post_upload_session : string -> string -> R -> (exn + Z * string) * R;
  put_chunk : string -> Z -> Z -> Z -> content -> R -> (exn + Z) * R;
  delete_source_item : string -> R -> (exn + Z) * R;
  open_cache_file : string -> R -> option exn * R
}.

Arguments get_target_item {R}.
Arguments post_root_children {R}.
Arguments list_source_children {R}.
Arguments lookup_target {R}.
Arguments get_download_url {R}.
Arguments get_stream {R}.
Arguments put_content {R}.
Arguments post_upload_session {R}.
Arguments put_chunk {R}.
Arguments delete_source_item {R}.
Arguments open_cache_file {R}.

(** The requests sent, in order. *)
Inductive Call :=
| GetTargetItem (path : string)
| PostRootChildren (name conflict : string)
| ListSourceChildren (path : string)
| LookupTarget (path : string)
| GetDownloadUrl (id : string)
| GetStream (url : string)
| PutContent (path : string) (data : content)
| PostUploadSession (path conflict : string)
| PutChunk (url : string) (start stop total : Z) (data : content)
| DeleteSourceItem (id : string).

(** What a resume-cache file holds: bytes [json.load] rejects, or a JSON
    object with or without the [processed_ids] list. *)
Inductive CacheFile :=
| Garbled
| CacheObject (processed_ids : option (list string)).

Section Engine.

Context {R : Type} (svc : Service R).

(** The module-level [DEFAULT_CONFLICT_BEHAVIOR], set once by [main]. *)
Variable DEFAULT_CONFLICT_BEHAVIOR : string.

Variable fromisoformat : string -> option Z.

(** The world a run acts on: the service, the log of requests, and the
    files of the local disk by path. *)
Record World := {
  remote : R;
  calls : list Call;
  disk : gmap string CacheFile
}.

(** Computations that read and change the world and may raise; the world
    reached when the exception was raised is kept. *)
Definition M (A : Type) : Type := World -> (exn + A) * World.

Definition ret {A} (a : A) : M A := fun w => (inr a, w).

Definition raise {A} (e : exn) : M A := fun w => (inl e, w).

Definition bind {A B} (c : M A) (k : A -> M B) : M B :=
  fun w =>
    match c w with
    | (inl e, w') => (inl e, w')
    | (inr a, w') => k a w'
    end.

Notation "x <- c ;; k" := (bind c (fun x => k))
  (at level 100, c at next level, right associativity).
Notation "c ;;; k" := (bind c (fun _ => k))
  (at level 100, right associativity).

(** One request: log it, let the service answer, keep the disk. *)
Definition request {A} (c : Call) (op : R -> (exn + A) * R) : M A :=
  fun w =>
    let '(r, s) := op (remote w) in
    (r, {| remote := s; calls := calls w ++ [c]; disk := disk w |}).

(** The check [gpost], [gput] and [gdelete] share: a reply of 400 or more
    raises [RuntimeError]. *)
Definition checked (what : string) (c : Call) (op : R -> (exn + Z) * R) : M unit :=
  status <- request c op ;;
  if 400 <=? status then raise (RuntimeError what) else ret tt.

(** [gget]: the reply, or what [raise_for_status] raised once the retries
    were used up; the service gives either. *)
Definition gget {A} (c : Call) (op : R -> (exn + A) * R) : M A := request c op.

(** [gpost]. *)
Definition gpost (c : Call) (op : R -> (exn + Z) * R) : M unit :=
  checked "POST failed" c op.

(** [gput]. *)
Definition gput (c : Call) (op : R -> (exn + Z) * R) : M unit :=
  checked "PUT failed" c op.

(** [ensure_folder], the loop: [current] is the path built so far. *)
Fixpoint ensure_folder_loop (current : string) (parts : list string) : M unit :=
  match parts with
  | [] => ret tt
  | p :: rest =>
      let current := if Text.truthy current then current +:+ "/" +:+ p else p in
      status <- gget (GetTargetItem current) (get_target_item svc current) ;;
      (if status =? 404
       then gpost (PostRootChildren p DEFAULT_CONFLICT_BEHAVIOR)
                  (post_root_children svc p DEFAULT_CONFLICT_BEHAVIOR)
       else ret tt) ;;;
      ensure_folder_loop current rest
  end.

(** The components [ensure_folder] walks. *)
Definition folder_parts (rel_path : string) : list string :=
  List.filter (fun p => negb (String.eqb p "" || String.eqb p "/"))
              (Posix.parts (Posix.Path rel_path)).

(** [ensure_folder]. *)
Definition ensure_folder (rel_path : string) : M unit :=
  if Text.truthy rel_path then ensure_folder_loop "" (folder_parts rel_path)
  else ret tt.

(** [download_stream]. *)
Definition download_stream (item_id : string) : M Reader :=
  dl <- gget (GetDownloadUrl item_id) (get_download_url svc item_id) ;;
  match dl with
  | Some url =>
      if Text.truthy url then request (GetStream url) (get_stream svc url)
      else raise (RuntimeError "No download URL")
  | None => raise (RuntimeError "No download URL")
  end.

(** [upload_small]. *)
Definition upload_small (rel_path : string) (data : content) : M unit :=
  gput (PutContent rel_path data) (put_content svc rel_path data).

(** The [for chunk in reader] loop of [upload_large]; [start] is the
    running offset. Falling out of the loop returns like [return] does. *)
Fixpoint upload_large_loop (upurl : string) (file_size : Z) (start : Z)
    (todo : list content) (broken : option exn) : M unit :=
  match todo with
  | [] => match broken with Some e => raise e | None => ret tt end
  | chunk :: rest =>
      let L := Z.of_nat (length chunk) in
      let stop := start + L - 1 in
      status <- request (PutChunk upurl start stop file_size chunk)
                        (put_chunk svc upurl start stop file_size chunk) ;;
      if ((status =? 200) || (status =? 201))%bool then ret tt
      else if status =? 202 then
        upload_large_loop upurl file_size (stop + 1) rest broken
      else raise (RuntimeError "Upload failed")
  end.

(** [upload_large]. *)
Definition upload_large (rel_path : string) (file_size : Z) (reader : Reader) : M unit :=
  us <- request (PostUploadSession rel_path DEFAULT_CONFLICT_BEHAVIOR)
                (post_upload_session svc rel_path DEFAULT_CONFLICT_BEHAVIOR) ;;
  let '(status, upurl) := us in
  if 400 <=? status then raise (RuntimeError "POST failed")
  else upload_large_loop upurl file_size 0 (chunks reader) (broken reader).


(** *** The resume cache *)

(** The cache dictionary in memory, by its [processed_ids] key ([None]: the
    key is not there). *)
Definition Cache := option (list string).

(** [{"processed_ids": []}]. *)
Definition empty_cache : Cache := Some [].

(** What [load_cache] returns for a given disk: no path, no file or an
    unreadable file give the empty cache. *)
Definition read_cache (path : option string) (d : gmap string CacheFile) : Cache :=
  match path with
  | None => empty_cache
  | Some p =>
      if Text.truthy p then
        match d !! p with
        | None => empty_cache
        | Some Garbled => empty_cache
        | Some (CacheObject ids) => ids
        end
      else empty_cache
  end.

(** [load_cache]. *)
Definition load_cache (path : option string) : M Cache :=
  fun w => (inr (read_cache path (disk w)), w).

(** What [save_cache] leaves on disk: with a path, the whole dictionary
    replaces the file; without one nothing is written. *)
Definition write_cache (path : option string) (cache : Cache)
    (d : gmap string CacheFile) : gmap string CacheFile :=
  match path with
  | None => d
  | Some p => if Text.truthy p then <[p := CacheObject cache]> d else d
  end.

(** [save_cache]: without a path nothing happens; with one, the file is
    opened for writing, which the local file system may refuse (the
    exception is raised and the file is as it was), and then holds the
    dictionary. Once the file is open the dump is taken to complete. *)
Definition save_cache (path : option string) (cache : Cache) : M unit :=
  fun w =>
    match path with
    | None => (inr tt, w)
    | Some p =>
        if Text.truthy p then
          let '(refused, r) := open_cache_file svc p (remote w) in
          match refused with
          | Some e => (inl e, {| remote := r; calls := calls w; disk := disk w |})
          | None =>
              (inr tt, {| remote := r; calls := calls w;
                          disk := write_cache path cache (disk w) |})
          end
        else (inr tt, w)
    end.

(** [cache.get("processed_ids", [])]. *)
Definition get_processed_ids (cache : Cache) : list string := default [] cache.

(** [cache.setdefault("processed_ids", []).append(id)]. *)
Definition append_processed (id : string) (cache : Cache) : Cache :=
  Some (default [] cache ++ [id]).

(** *** The executor *)

(** [for b in reader: buf += b]. *)
Definition read_all (reader : Reader) : M content :=
  match broken reader with
  | Some e => raise e
  | None => ret (concat (chunks reader))
  end.

(** [gdelete] of a source item. *)
Definition gdelete (id : string) : M unit :=
  checked "DELETE failed" (DeleteSourceItem id) (delete_source_item svc id).

(** The body of the [for a in plan] loop of [execute]. [processed] is the
    set built once from the loaded cache; [summary] and [cache] are the
    dictionaries the loop updates. *)
Definition execute_action (mode : string) (skip_identicals : bool)
    (cache_path : option string) (processed : gset string)
    (st : Summary.t * Cache) (a : Action) : M (Summary.t * Cache) :=
  let '(summary, cache) := st in
  match a with
  | skip_vault _ => ret (Summary.add_skipped_vault summary, cache)
  | folder _ target =>
      ensure_folder target ;;;
      ret (Summary.add_folder_created summary, cache)
  | file _ target size id status =>
      if bool_decide (id ∈ processed) then ret (summary, cache)
      else if (skip_identicals && bool_decide (status = exists_same))%bool then
        let cache := append_processed id cache in
        save_cache cache_path cache ;;;
        ret (Summary.add_skipped_identical summary, cache)
      else
        ensure_folder (Posix.str (Posix.parent (Posix.Path target))) ;;;
        reader <- download_stream id ;;
        (if size <? 4 * 1024 * 1024 then
           buf <- read_all reader ;;
           upload_small target buf
         else upload_large target size reader) ;;;
        let summary := Summary.add_copied size summary in
        summary <- (if String.eqb mode "move"
                    then gdelete id ;;; ret (Summary.add_deleted summary)
                    else ret summary) ;;
        let cache := append_processed id cache in
        save_cache cache_path cache ;;;
        ret (summary, cache)
  end.

(** The [for a in plan] loop. *)
Fixpoint execute_loop (mode : string) (skip_identicals : bool)
    (cache_path : option string) (processed : gset string)
    (plan : list Action) (st : Summary.t * Cache) : M (Summary.t * Cache) :=
  match plan with
  | [] => ret st
  | a :: rest =>
      st <- execute_action mode skip_identicals cache_path processed st a ;;
      execute_loop mode skip_identicals cache_path processed rest st
  end.

(** The set [processed] of [execute]. *)
Definition processed_set (cache : Cache) : gset string :=
  list_to_set (get_processed_ids cache).

(** [execute]. *)
Definition execute (plan : list Action) (mode : string) (skip_identicals : bool)
    (cache_path : option string) : M Summary.t :=
  cache <- load_cache cache_path ;;
  st <- execute_loop mode skip_identicals cache_path (processed_set cache)
                     plan (Summary.zero, cache) ;;
  ret (fst st).

(** *** The planner *)

(** [target_lookup], with its memo [cache] keyed by the full target path. *)
Definition target_lookup (rel_path : string) (cache : gmap string (option Item))
    : M (option Item * gmap string (option Item)) :=
  match cache !! rel_path with
  | Some known => ret (known, cache)
  | None =>
      j <- gget (LookupTarget rel_path) (lookup_target svc rel_path) ;;
      ret (j, <[rel_path := j]> cache)
  end.

(** [list_children]. *)
Definition list_children (item_path : string) : M (list Item) :=
  gget (ListSourceChildren item_path) (list_source_children svc item_path).

(** The local variables of [plan_with_diff] that outlive one iteration. *)
Record PlanState := {
  plan : list Action;
  stats : Stats.t;
  queue : list string;
  tcache : gmap string (option Item)
}.

(** [rel_src] of a child. *)
Definition child_path (src_rel name : string) : string :=
  if Text.truthy src_rel then src_rel +:+ "/" +:+ name else name.

(** [rel_tgt_folder] of a folder. *)
Definition folder_target (target_root rel_src : string) : string :=
  if Text.truthy target_root
  then Posix.str (Posix.truediv target_root (Posix.name (Posix.Path rel_src)))
  else Posix.name (Posix.Path rel_src).

(** [rel_tgt] of a file. *)
Definition file_target (target_root rel_src : string) : string :=
  if Text.truthy target_root
  then Posix.str (Posix.truediv target_root rel_src)
  else rel_src.

(** The body of [for item in list_children(...)]. *)
Definition plan_item (target_root : string) (filters : Filters)
    (skip_identicals : bool) (src_rel : string)
    (st : PlanState) (item : Item) : M PlanState :=
  let name := item_name item in
  let rel_src := child_path src_rel name in
  if is_vault item then
    ret {| plan := plan st ++ [skip_vault rel_src];
           stats := Stats.add_skipped_vault (stats st);
           queue := queue st; tcache := tcache st |}
  else if item_folder item then
    let rel_tgt_folder := folder_target target_root rel_src in
    ret {| plan := plan st ++ [folder rel_src rel_tgt_folder];
           stats := Stats.add_folder (stats st);
           queue := queue st ++ [rel_src]; tcache := tcache st |}
  else if negb (apply_filters fromisoformat item filters) then ret st
  else
    let size := size_of item in
    let rel_tgt := file_target target_root rel_src in
    found <- target_lookup rel_tgt (tcache st) ;;
    let '(tgt, tc) := found in
    let '(status, stats1) :=
      match tgt with
      | None => (not_present, Stats.add_not_present (stats st))
      | Some t =>
          if size_of t =? size
          then (exists_same, Stats.add_skip_existing_same skip_identicals (stats st))
          else (exists_different, Stats.add_existing_diff (stats st))
      end in
    ret {| plan := plan st ++ [file rel_src rel_tgt size (item_id item) status];
           stats := Stats.add_file size stats1;
           queue := queue st; tcache := tc |}.

(** The [for] loop over one listing. *)
Fixpoint plan_items (target_root : string) (filters : Filters)
    (skip_identicals : bool) (src_rel : string)
    (items : list Item) (st : PlanState) : M PlanState :=
  match items with
  | [] => ret st
  | item :: rest =>
      st <- plan_item target_root filters skip_identicals src_rel st item ;;
      plan_items target_root filters skip_identicals src_rel rest st
  end.

(** [queue.pop()]: the last element and the rest. *)
Definition pop (q : list string) : option (string * list string) :=
  match rev q with
  | [] => None
  | x :: r => Some (x, rev r)
  end.

(** The [while queue] loop; [fuel] bounds the number of iterations, and
    [None] means the bound was reached with work left. *)
Fixpoint plan_loop (fuel : nat) (target_root : string) (filters : Filters)
    (skip_identicals : bool) (st : PlanState) : M (option PlanState) :=
  match pop (queue st) with
  | None => ret (Some st)
  | Some (src_rel, q) =>
      match fuel with
      | O => ret None
      | S fuel' =>
          items <- list_children src_rel ;;
          st <- plan_items target_root filters skip_identicals src_rel items
                  {| plan := plan st; stats := stats st;
                     queue := q; tcache := tcache st |} ;;
          plan_loop fuel' target_root filters skip_identicals st
      end
  end.

(** [plan_with_diff]. *)
Definition plan_with_diff (fuel : nat) (source_root target_root : string)
    (filters : Filters) (skip_identicals : bool)
    : M (option (list Action * Stats.t)) :=
  r <- plan_loop fuel target_root filters skip_identicals
         {| plan := []; stats := Stats.zero;
            queue := [source_root]; tcache := ∅ |} ;;
  ret (match r with
       | Some st => Some (plan st, stats st)
       | None => None
       end).

End Engine.

Arguments remote {R}.
Arguments calls {R}.
Arguments disk {R}.

(** ** A drive held in memory

    A small instance of [Service], used to run the program on concrete
    trees: the source account is a listing per path and a content stream per
    item id, the target account is a map from paths to items. *)

Module MemDrive.

Record t := {
  source_children : gmap string (list Item);
  source_content : gmap string Reader;
  target_items : gmap string Item
}.

(** A folder item of the given name. *)
Definition new_folder (name : string) : Item :=
  {| item_id := "folder:" +:+ name; item_name := name; item_size := Some 0;
     item_folder := true; item_specialFolder := None;
     item_lastModifiedDateTime := None |}.

(** A file item of the given name and size. *)
Definition new_file (name : string) (size : Z) : Item :=
  {| item_id := "file:" +:+ name; item_name := name; item_size := Some size;
     item_folder := false; item_specialFolder := None;
     item_lastModifiedDateTime := None |}.

(** GET of [root:/path]: 200 when the path exists, 404 otherwise. *)
Definition get_item (path : string) (d : t) : (exn + Z) * t :=
  (inr (if decide (is_Some (target_items d !! path)) then 200 else 404), d).

(** POST to [root/children]: the new folder is a child of the root. A name
    that is taken is renamed or replaced, as the conflict behaviour says. *)
Definition create_in_root (name conflict : string) (d : t) : (exn + Z) * t :=
  let taken := bool_decide (is_Some (target_items d !! name)) in
  let name' :=
    if (taken && String.eqb conflict "rename")%bool then name +:+ " 1" else name in
  (inr 201,
   {| source_children := source_children d;
      source_content := source_content d;
      target_items := <[name' := new_folder name']> (target_items d) |}).

Definition list_children (path : string) (d : t) : (exn + list Item) * t :=
  (inr (default [] (source_children d !! path)), d).

Definition lookup (path : string) (d : t) : (exn + option Item) * t :=
  (inr (target_items d !! path), d).

Definition download_url (id : string) (d : t) : (exn + option string) * t :=
  (inr (if decide (is_Some (source_content d !! id))
        then Some ("download:" +:+ id) else None), d).

Definition stream (url : string) (d : t) : (exn + Reader) * t :=
  (match source_content d !! Text.drop 9 url with
   | Some r => inr r
   | None => inl (HTTPError 404)
   end, d).

Definition store (path : string) (size : Z) (d : t) : t :=
  {| source_children := source_children d;
     source_content := source_content d;
     target_items :=
       <[path := new_file (Posix.name (Posix.Path path)) size]> (target_items d) |}.

Definition put (path : string) (data : content) (d : t) : (exn + Z) * t :=
  (inr 201, store path (Z.of_nat (length data)) d).

Definition open_session (path conflict : string) (d : t) : (exn + Z * string) * t :=
  (inr (200, "upload:" +:+ path), d).

(** PUT of a byte range: the session is finalized by the range that reaches
    the declared total, and expects more before that. *)
Definition put_range (url : string) (start stop total : Z) (data : content)
    (d : t) : (exn + Z) * t :=
  if total <=? stop + 1 then (inr 201, store (Text.drop 7 url) total d)
  else (inr 202, d).

Definition delete (id : string) (d : t) : (exn + Z) * t :=
  (inr 204,
   {| source_children :=
        List.filter (fun it => negb (String.eqb (item_id it) id)) <$> source_children d;
      source_content := base.delete id (source_content d);
      target_items := target_items d |}).

Definition service : Service t :=
  {| get_target_item := get_item;
     post_root_children := create_in_root;
     list_source_children := list_children;
     lookup_target := lookup;
     get_download_url := download_url;
     get_stream := stream;
     put_content := put;
     post_upload_session := open_session;
     put_chunk := put_range;
     delete_source_item := delete;
     open_cache_file := fun _ d => (None, d) |}.

(** A world around a drive: nothing requested yet, the given disk. *)
Definition world (d : t) (files : gmap string CacheFile) : World :=
  {| remote := d; calls := []; disk := files |}.

(** Timestamps are not parsed in the examples. *)
Definition no_dates (s : string) : option Z := None.

(** No filter configured. *)
Definition no_filters : Filters :=
  {| exts := None; modified_after := None; min_bytes := None; max_bytes := None |}.

End MemDrive.
(** ** Vocabulary of the properties *)

(** The identifier a completed action appends to the resume cache: the id
    of a file action that the loaded set [processed] does not hold. *)
Definition commits (processed : gset string) (a : Action) : list string :=
  match a with
  | file _ _ _ id _ => if bool_decide (id ∈ processed) then [] else [id]
  | _ => []
  end.

(** The identifiers appended by a sequence of completed actions, in order. *)
Definition committed (processed : gset string) (done : list Action) : list string :=
  flat_map (commits processed) done.

(** A file action whose id the loaded set holds. *)
Definition already_done (processed : gset string) (a : Action) : bool :=
  match a with
  | file _ _ _ id _ => bool_decide (id ∈ processed)
  | _ => false
  end.

(** The requests that read content from the source, write content to the
    target, or delete from the source. *)
Definition transfer_call (c : Call) : bool :=
  match c with
  | GetDownloadUrl _ | GetStream _ | PutContent _ _ | PostUploadSession _ _
  | PutChunk _ _ _ _ _ | DeleteSourceItem _ => true
  | _ => false
  end.

Definition is_file (a : Action) : bool :=
  match a with file _ _ _ _ _ => true | _ => false end.

Definition is_folder (a : Action) : bool :=
  match a with folder _ _ => true | _ => false end.

Definition is_skip_vault (a : Action) : bool :=
  match a with skip_vault _ => true | _ => false end.

(** A file action of the given status. *)
Definition has_status (s : Status) (a : Action) : bool :=
  match a with
  | file _ _ _ _ s' => bool_decide (s' = s)
  | _ => false
  end.

(** The [size] of a file action; other actions carry none. *)
Definition action_size (a : Action) : Z :=
  match a with file _ _ sz _ _ => sz | _ => 0 end.

(** How many actions of a plan satisfy [p]. *)
Definition count (p : Action -> bool) (l : list Action) : Z :=
  Z.of_nat (length (List.filter p l)).

(** The sizes of the file actions of a plan, added up. *)
Definition total_size (l : list Action) : Z :=
  fold_right (fun a n => action_size a + n) 0 l.

(** The cache dictionary after the identifiers [ids] were appended. *)
Definition extend_cache (cache : Cache) (ids : list string) : Cache :=
  match ids with
  | [] => cache
  | _ => Some (get_processed_ids cache ++ ids)
  end.

(** The disk after the identifiers [ids] were appended to [cache] and
    saved: untouched when there is none. *)
Definition checkpoint (path : option string) (cache : Cache) (ids : list string)
    (d : gmap string CacheFile) : gmap string CacheFile :=
  match ids with
  | [] => d
  | _ => write_cache path (extend_cache cache ids) d
  end.

(** Every run of [c] relates the world before to the world after by [Q]. *)
Definition effect {R A} (Q : World (R:=R) -> World (R:=R) -> Prop) (c : M A) : Prop :=
  forall w, Q w (snd (c w)).

(** The disk is left as it was. *)
Definition same_disk {R} (w w' : World (R:=R)) : Prop := disk w' = disk w.

(** The log grew by requests that all satisfy [P]. *)
Definition extends {R} (P : Call -> Prop) (w w' : World (R:=R)) : Prop :=
  exists delta, calls w' = calls w ++ delta /\ Forall P delta.

(** The requests [ensure_folder] may send for the components [names]
    under the conflict behaviour [conflict]: a GET of some path, or a POST to
    [root/children] that names one of the components. *)
Definition folder_call (conflict : string) (names : list string) (c : Call) : Prop :=
  match c with
  | GetTargetItem _ => True
  | PostRootChildren n cf => In n names /\ cf = conflict
  | _ => False
  end.

(** A run of [c] that raises leaves the disk as it was. *)
Definition fail_safe {R A} (c : M (R:=R) A) : Prop :=
  forall w e w', c w = (inl e, w') -> disk w' = disk w.

(** The target path the planner gives an action: for a file, the full
    source path under the target root; for a folder, the last component of
    the source path under the target root. *)
Definition target_as_planned (target_root : string) (a : Action) : Prop :=
  match a with
  | skip_vault _ => True
  | folder src tgt => tgt = folder_target target_root src
  | file src tgt _ _ _ => tgt = file_target target_root src
  end.

(** A request of [target_lookup]. *)
Definition lookup_call (c : Call) : Prop :=
  match c with LookupTarget _ => True | _ => False end.

(** A property [P] of the service that held before still holds after. *)
Definition preserves {R} (P : R -> Prop) (w w' : World (R:=R)) : Prop :=
  P (remote w) -> P (remote w').

Section Tree.

(** A source tree: the children listed under each path. *)
Variable children : string -> list Item.

Variable source_root : string.

(** The paths reached from the root through folders that are not vaults. *)
Inductive Walked : string -> Prop :=
| walked_root : Walked source_root
| walked_child (q : string) (it : Item) :
    Walked q -> In it (children q) ->
    is_vault it = false -> item_folder it = true ->
    Walked (child_path q (item_name it)).

(** [src] is the path of an item that is not a vault and sits directly
    under a path of [Walked]: neither the item nor any ancestor the walk
    went through is a vault. *)
Definition outside_vaults (src : string) : Prop :=
  exists q it,
    Walked q /\ In it (children q) /\ is_vault it = false /\
    src = child_path q (item_name it).

(** [src] is the path of a vault item met under a path of [Walked]. *)
Definition vault_met (src : string) : Prop :=
  exists q it,
    Walked q /\ In it (children q) /\ is_vault it = true /\
    src = child_path q (item_name it).

(** [src] is the path [v] or a path below it. *)
Definition beneath (v src : string) : Prop :=
  src = v \/ exists rest, src = v +:+ "/" +:+ rest.

(** The names of a drive: no child has an empty name or a slash in its
    name, and two children of one folder with the same name are the same
    kind of item (a drive keeps names unique within a folder). *)
Definition well_named : Prop :=
  forall q it,
    In it (children q) ->
    item_name it <> "" /\ Text.has_slash (item_name it) = false /\
    forall it', In it' (children q) -> item_name it' = item_name it ->
                is_vault it' = is_vault it.

(** The source path of a folder or file entry. *)
Definition planned_source (a : Action) : option string :=
  match a with
  | skip_vault _ => None
  | folder src _ => Some src
  | file src _ _ _ _ => Some src
  end.

(** What the vault rule allows in a plan: a [skip_vault] entry for a vault
    that was met, and folder and file entries only outside vaults. *)
Definition vault_rule (a : Action) : Prop :=
  match a with
  | skip_vault src => vault_met src
  | folder src _ => outside_vaults src
  | file src _ _ _ _ => outside_vaults src
  end.

(** The requests the vault rule allows the planner: listing the children
    of a path of [Walked], and looking a target path up. *)
Definition planner_call (c : Call) : Prop :=
  match c with
  | ListSourceChildren p => Walked p
  | LookupTarget _ => True
  | _ => False
  end.

End Tree.

(** The statistics a plan stands for: one count per kind of action and
    per status, the sizes of the files added up, and the identical files
    counted only when skipping them was asked for. *)
Definition stats_of (skip_identicals : bool) (l : list Action) : Stats.t :=
  {| Stats.folders := count is_folder l;
     Stats.files := count is_file l;
     Stats.bytes := total_size l;
     Stats.skipped_vault := count is_skip_vault l;
     Stats.skip_existing_same :=
       if skip_identicals then count (has_status exists_same) l else 0;
     Stats.existing_diff := count (has_status exists_different) l;
     Stats.not_present := count (has_status not_present) l |}.

(** The counter a classification bumps. *)
Definition count_status (skip_identicals : bool) (status : Status) (s : Stats.t) : Stats.t :=
  match status with
  | not_present => Stats.add_not_present s
  | exists_same => Stats.add_skip_existing_same skip_identicals s
  | exists_different => Stats.add_existing_diff s
  end.

Section PlanSteps.

Variable fromisoformat : string -> option Z.
Variable target_root : string.
Variable filters : Filters.
Variable skip_identicals : bool.

(** What one child listed under [src_rel] does to the planner's state. *)
Inductive item_step (src_rel : string) (it : Item) (st : PlanState) : PlanState -> Prop :=
| step_vault :
    is_vault it = true ->
    item_step src_rel it st
      {| plan := plan st ++ [skip_vault (child_path src_rel (item_name it))];
         stats := Stats.add_skipped_vault (stats st);
         queue := queue st; tcache := tcache st |}
| step_folder :
    is_vault it = false -> item_folder it = true ->
    item_step src_rel it st
      {| plan := plan st ++
                 [folder (child_path src_rel (item_name it))
                    (folder_target target_root (child_path src_rel (item_name it)))];
         stats := Stats.add_folder (stats st);
         queue := queue st ++ [child_path src_rel (item_name it)];
         tcache := tcache st |}
| step_filtered :
    is_vault it = false -> item_folder it = false ->
    apply_filters fromisoformat it filters = false ->
    item_step src_rel it st st
| step_file (status : Status) (tc : gmap string (option Item)) :
    is_vault it = false -> item_folder it = false ->
    apply_filters fromisoformat it filters = true ->
    item_step src_rel it st
      {| plan := plan st ++
                 [file (child_path src_rel (item_name it))
                    (file_target target_root (child_path src_rel (item_name it)))
                    (size_of it) (item_id it) status];
         stats := Stats.add_file (size_of it)
                    (count_status skip_identicals status (stats st));
         queue := queue st; tcache := tc |}.

End PlanSteps.

(** ** Scenarios: concrete drives, plans and runs *)

Module Scenario.

Import MemDrive.

(** Both accounts empty. *)
Definition empty_drive : MemDrive.t :=
  {| source_children := ∅; source_content := ∅; target_items := ∅ |}.

(** A folder [a] that holds a folder [b]; the target is empty. *)
Definition nested_drive : MemDrive.t :=
  {| source_children :=
       <["" := [new_folder "a"]]> (<["a" := [new_folder "b"]]> ∅);
     source_content := ∅;
     target_items := ∅ |}.

(** The tree of the specification's scenario, with two more files: [docs]
    holds [a.txt], the vault [Vault] (with [secret.txt] inside), [b.txt]
    and [c.txt]; the target already has [docs/b.txt] at the same size and
    [docs/c.txt] at another. *)
Definition vault_tree : gmap string (list Item) :=
  <["" := [new_folder "docs"]]>
  (<["docs" := [new_file "a.txt" 10240; new_folder "Vault";
                new_file "b.txt" 5; new_file "c.txt" 7]]>
  (<["docs/Vault" := [new_file "secret.txt" 1]]> ∅)).

Definition vault_drive : MemDrive.t :=
  {| source_children := vault_tree;
     source_content := ∅;
     target_items :=
       <["docs/b.txt" := new_file "b.txt" 5]>
       (<["docs/c.txt" := new_file "c.txt" 9]> ∅) |}.

(** The children of a path in [vault_tree]. *)
Definition vault_children (p : string) : list Item := default [] (vault_tree !! p).

(** Three bytes of content. *)
Definition three_bytes : content := [Byte.x61; Byte.x62; Byte.x63].

(** A source that delivers three bytes for the item [big], whatever size
    the plan recorded for it. *)
Definition short_drive : MemDrive.t :=
  {| source_children := ∅;
     source_content := {[ "big" := {| chunks := [three_bytes]; broken := None |} ]};
     target_items := ∅ |}.

(** A plan with one file of 4 MiB, the size from which the chunked upload
    is used. *)
Definition big_plan : list Action :=
  [file "big.bin" "big.bin" (4 * 1024 * 1024) "big" not_present].

(** A source with content for the item [one] only. *)
Definition half_drive : MemDrive.t :=
  {| source_children := ∅;
     source_content := {[ "one" := {| chunks := [three_bytes]; broken := None |} ]};
     target_items := ∅ |}.

(** A plan of two files: the download of the second has no URL. *)
Definition two_files : list Action :=
  [file "one.txt" "one.txt" 3 "one" not_present;
   file "two.txt" "two.txt" 3 "two" not_present].

(** The cache file of the runs below. *)
Definition cache_file : string := "resume.json".

(** The service of [MemDrive], but every DELETE is answered 423 (locked)
    and nothing is deleted. *)
Definition locked_service : Service MemDrive.t :=
  {| get_target_item := get_target_item MemDrive.service;
     post_root_children := post_root_children MemDrive.service;
     list_source_children := list_source_children MemDrive.service;
     lookup_target := lookup_target MemDrive.service;
     get_download_url := get_download_url MemDrive.service;
     get_stream := get_stream MemDrive.service;
     put_content := put_content MemDrive.service;
     post_upload_session := post_upload_session MemDrive.service;
     put_chunk := put_chunk MemDrive.service;
     delete_source_item := fun _ d => (inr 423, d);
     open_cache_file := open_cache_file MemDrive.service |}.

(** A target that holds the folder [docs] and the folder [reports] in it. *)
Definition reports_drive : MemDrive.t :=
  {| source_children := ∅;
     source_content := ∅;
     target_items :=
       <["docs" := new_folder "docs"]>
       (<["docs/reports" := new_folder "reports"]> ∅) |}.

(** A file that is skipped as identical, in front of the file [one]. *)
Definition same_then_one : list Action :=
  [file "zero.txt" "zero.txt" 5 "zero" exists_same;
   file "one.txt" "one.txt" 3 "one" not_present].

(** A disk whose cache file already holds the id [one]. *)
Definition seen_one : gmap string CacheFile :=
  {[ cache_file := CacheObject (Some ["one"]) ]}.

(** A file without a timestamp, and a filter with a minimum date. *)
Definition undated : Item :=
  {| item_id := "u"; item_name := "notes.txt"; item_size := Some 12;
     item_folder := false; item_specialFolder := None;
     item_lastModifiedDateTime := None |}.

Definition since_2024 : Filters :=
  {| exts := None; modified_after := Some 1704067200000000;
     min_bytes := None; max_bytes := None |}.

End Scenario.

(** ** The HTTP helpers, request by request *)

Module Http.

(** The [Retry-After] header of a reply: missing, a number of seconds, or
    text [int] rejects. *)
Inductive RetryAfter := NoHeader | Seconds (n : Z) | NotANumber.

(** What [gget] reads of a reply. *)
Record Response := { status_code : Z; retry_after : RetryAfter }.

(** What [gget] can raise: what [requests] raised, the [ValueError] of a
    header that is no number or of a negative sleep, and the
    [UnboundLocalError] of reading [r] when the loop never ran. *)
Inductive error := Exn (e : exn) | ValueError | UnboundLocalError.

(** A call of [gget]: what it returned ([None] when it fell off its end) or
    raised, how many requests it sent, and the waits it slept, in order. *)
Record Run := { outcome : error + option Response; sent : nat; slept : list Z }.

(** [r.raise_for_status()]: client and server error statuses raise. *)
Definition raise_for_status (r : Response) : option exn :=
  if ((400 <=? status_code r) && (status_code r <? 600))%bool
  then Some (HTTPError (status_code r)) else None.

(** The statuses [gget] tries again on. *)
Definition transient (r : Response) : bool :=
  ((status_code r =? 429) || (500 <=? status_code r))%bool.

(** [int(r.headers.get("Retry-After", 1)) if r.status_code == 429 else (2 ** i)];
    [None] when [int] raises. *)
Definition wait_of (r : Response) (i : nat) : option Z :=
  if status_code r =? 429 then
    match retry_after r with
    | NoHeader => Some 1
    | Seconds n => Some n
    | NotANumber => None
    end
  else Some (2 ^ Z.of_nat i).

(** The [for i in range(retry)] loop of [gget] and the statement after it.
    [replies] is what the [i]-th request gets; [i] requests were sent and
    [todo] iterations are left; [last] is the variable [r]. *)
Fixpoint gget_loop (replies : nat -> exn + Response) (i todo : nat)
    (last : option Response) (waits : list Z) : Run :=
  match todo with
  | O =>
      match last with
      | None => {| outcome := inl UnboundLocalError; sent := i; slept := waits |}
      | Some r =>
          match raise_for_status r with
          | Some e => {| outcome := inl (Exn e); sent := i; slept := waits |}
          | None => {| outcome := inr None; sent := i; slept := waits |}
          end
      end
  | S todo' =>
      match replies i with
      | inl e => {| outcome := inl (Exn e); sent := S i; slept := waits |}
      | inr r =>
          if transient r then
            match wait_of r i with
            | None => {| outcome := inl ValueError; sent := S i; slept := waits |}
            | Some t =>
                if t <? 0
                then {| outcome := inl ValueError; sent := S i; slept := waits |}
                else gget_loop replies (S i) todo' (Some r) (waits ++ [t])
            end
          else if status_code r =? 404
          then {| outcome := inr (Some r); sent := S i; slept := waits |}
          else
            match raise_for_status r with
            | Some e => {| outcome := inl (Exn e); sent := S i; slept := waits |}
            | None => {| outcome := inr (Some r); sent := S i; slept := waits |}
            end
      end
  end.

(** [gget], with [retry] attempts. *)
Definition gget (replies : nat -> exn + Response) (retry : nat) : Run :=
  gget_loop replies 0 retry None [].

End Http.

(** ** Listing a folder, page by page *)

Module Paging.

(** [GRAPH]. *)
Definition GRAPH : string := "https://graph.microsoft.com/v1.0".

(** What [list_children] reads of a page: the status of the reply, the
    [value] of its JSON ([None] when the key is missing) and its
    [@odata.nextLink]. *)
Record Page := {
  page_status : Z;
  value : option (list Item);
  nextLink : option string
}.

(** The first URL of a listing. *)
Definition children_url (item_path : string) : string :=
  GRAPH +:+ "/me/drive/root"
  +:+ (if Text.truthy item_path then ":/" +:+ item_path +:+ ":" else "")
  +:+ "/children".

(** The [while True] loop of [list_children]: [fetch] is what [gget] gives
    for a URL, [items] the list built so far; [None] when [fuel] pages were
    read and a link is left to follow. *)
Fixpoint list_children_loop (fuel : nat) (fetch : string -> exn + Page)
    (url : string) (items : list Item) : option (exn + list Item) :=
  match fuel with
  | O => None
  | S fuel' =>
      match fetch url with
      | inl e => Some (inl e)
      | inr r =>
          let items :=
            items ++ (if page_status r =? 200 then default [] (value r) else []) in
          match (if page_status r =? 200 then nextLink r else None) with
          | Some next =>
              if Text.truthy next then list_children_loop fuel' fetch next items
              else Some (inr items)
          | None => Some (inr items)
          end
      end
  end.

(** [list_children]. *)
Definition list_children (fuel : nat) (fetch : string -> exn + Page)
    (item_path : string) : option (exn + list Item) :=
  list_children_loop fuel fetch (children_url item_path) [].

(** Pages linked one to the next: each is answered 200 and names the URL of
    the following one; the last names none. *)
Fixpoint linked (fetch : string -> exn + Page) (url : string)
    (pages : list (list Item)) : Prop :=
  match pages with
  | [] => False
  | [v] =>
      exists r, fetch url = inr r /\ page_status r = 200 /\ value r = Some v /\
                match nextLink r with Some n => Text.truthy n = false | None => True end
  | v :: rest =>
      exists r next,
        fetch url = inr r /\ page_status r = 200 /\ value r = Some v /\
        nextLink r = Some next /\ Text.truthy next = true /\
        linked fetch next rest
  end.

End Paging.

(** ** The command line: the extension list *)

Module Cli.

(** [c.isspace()] on the ASCII range. *)
Definition is_space (c : ascii) : bool :=
  let n := nat_of_ascii c in
  ((Nat.leb 9 n && Nat.leb n 13) || (Nat.leb 28 n && Nat.leb n 32))%bool.

(** [s.lstrip()]. *)
Fixpoint lstrip (s : string) : string :=
  match s with
  | EmptyString => EmptyString
  | String c s' => if is_space c then lstrip s' else s
  end.

(** [s.rstrip()]. *)
Fixpoint rstrip (s : string) : string :=
  match s with
  | EmptyString => EmptyString
  | String c s' =>
      match rstrip s' with
      | EmptyString => if is_space c then EmptyString else String c EmptyString
      | t => String c t
      end
  end.

(** [s.strip()]. *)
Definition strip (s : string) : string := rstrip (lstrip s).

(** The [exts] of [parse_filters]:
    [[e.strip() for e in args.exts.split(",") if e.strip()]] when
    [args.exts] is given and not empty. *)
Definition parse_exts (arg : option string) : option (list string) :=
  match arg with
  | None => None
  | Some s =>
      if Text.truthy s
      then Some (List.filter Text.truthy (List.map strip (Text.split ","%char s)))
      else None
  end.

Section ParseFilters.

(** The numbers [--min-mb] and [--max-mb] are parsed to, with
    [int(x * 1024 * 1024)], and [datetime.strptime(s, "%Y-%m-%d")] ([None]
    when it raises). *)
Variable Megabytes : Type.
Variable to_bytes : Megabytes -> Z.
Variable strptime : string -> option Z.

(** The parsed arguments [parse_filters] reads. *)
Record Args := {
  arg_exts : option string;
  arg_modified_after : option string;
  arg_min_mb : option Megabytes;
  arg_max_mb : option Megabytes
}.

(** [parse_filters]; the warning it prints for a bad date is left out. *)
Definition parse_filters (args : Args) : Filters :=
  {| exts := parse_exts (arg_exts args);
     modified_after :=
       match arg_modified_after args with
       | Some s => if Text.truthy s then strptime s else None
       | None => None
       end;
     min_bytes := to_bytes <$> arg_min_mb args;
     max_bytes := to_bytes <$> arg_max_mb args |}.

End ParseFilters.

End Cli.

(** ** More vocabulary: planner and executor *)

(** The target paths looked up by a sequence of requests, in order. *)
Definition lookup_paths (l : list Call) : list string :=
  flat_map (fun c => match c with LookupTarget p => [p] | _ => [] end) l.

(** The requests that only read: listings and target lookups. *)
Definition read_call (c : Call) : Prop :=
  match c with
  | ListSourceChildren _ | LookupTarget _ => True
  | _ => False
  end.

(** The status of a file of [size] bytes against what the target holds at
    its path. *)
Definition classify (tgt : option Item) (size : Z) : Status :=
  match tgt with
  | None => not_present
  | Some t => if size_of t =? size then exists_same else exists_different
  end.

Section Entries.

Variable fromisoformat : string -> option Z.
Variable filters : Filters.

(** The entry [a] is the one the planner writes for the child [it] listed
    under [src_rel]: a vault gives [skip_vault], another folder gives
    [folder], and a file that passes the filters gives [file] with the
    item's id and size. *)
Definition entry_of (src_rel : string) (it : Item) (a : Action) : Prop :=
  match a with
  | skip_vault src =>
      src = child_path src_rel (item_name it) /\ is_vault it = true
  | folder src _ =>
      src = child_path src_rel (item_name it) /\
      is_vault it = false /\ item_folder it = true
  | file src _ size id _ =>
      src = child_path src_rel (item_name it) /\
      is_vault it = false /\ item_folder it = false /\
      apply_filters fromisoformat it filters = true /\
      size = size_of it /\ id = item_id it
  end.

End Entries.

(** The status of a file entry is the classification of its size against
    what the target [tgt] holds at its target path. *)
Definition diff_is_right (tgt : string -> option Item) (a : Action) : Prop :=
  match a with
  | file _ target size _ status => status = classify (tgt target) size
  | _ => True
  end.

Section Coverage.

Variable fromisoformat : string -> option Z.
Variable target_root : string.
Variable filters : Filters.

(** The plan [l] has the entry due to the child [it] of the folder [q]: a
    [skip_vault] entry for a vault, a [folder] entry for another folder, a
    [file] entry (of some status) for a file that passes the filters, and
    nothing for a file that does not. *)
Definition covered (l : list Action) (q : string) (it : Item) : Prop :=
  let src := child_path q (item_name it) in
  if is_vault it then In (skip_vault src) l
  else if item_folder it then In (folder src (folder_target target_root src)) l
  else if apply_filters fromisoformat it filters then
    exists status,
      In (file src (file_target target_root src) (size_of it) (item_id it) status) l
  else True.

(** The children of [items] the walk goes on with: the folders that are no
    vaults. *)
Definition to_visit (it : Item) : bool := (negb (is_vault it) && item_folder it)%bool.

End Coverage.

Section WalkInvariant.

Variable fromisoformat : string -> option Z.
Variable target_root : string.
Variable filters : Filters.
Variable children : string -> list Item.
Variable source_root : string.

(** What holds between two iterations of the walk, [visited] being the
    paths taken off the queue so far: the root is waiting or visited; the
    folders to visit under a visited path are waiting or visited; and the
    plan has the entries of all children of the visited paths. *)
Definition walk_invariant (st : PlanState) (visited : string -> Prop) : Prop :=
  (In source_root (queue st) \/ visited source_root) /\
  (forall q it,
      visited q -> In it (children q) -> to_visit it = true ->
      In (child_path q (item_name it)) (queue st) \/
      visited (child_path q (item_name it))) /\
  (forall q it,
      visited q -> In it (children q) ->
      covered fromisoformat target_root filters (plan st) q it).

End WalkInvariant.

Section TreeSize.

Variable children : string -> list Item.

(** [sized q n]: the folders the walk visits from [q] on ([q] itself and,
    below it, every folder that is no vault and sits under no vault) are
    [n] in number; [sized_all q items n] counts those below the children
    [items] of [q]. A tree that has no such count is not finite. *)
Inductive sized : string -> nat -> Prop :=
| sized_node (q : string) (n : nat) :
    sized_all q (List.filter to_visit (children q)) n -> sized q (S n)
with sized_all : string -> list Item -> nat -> Prop :=
| sized_nil (q : string) : sized_all q [] 0
| sized_cons (q : string) (it : Item) (rest : list Item) (n m : nat) :
    sized (child_path q (item_name it)) n -> sized_all q rest m ->
    sized_all q (it :: rest) (n + m).

(** The folders left to visit from the paths of a queue, counted. *)
Inductive queue_sized : list string -> nat -> Prop :=
| queue_nil : queue_sized [] 0
| queue_cons (q : string) (rest : list string) (n m : nat) :
    sized q n -> queue_sized rest m -> queue_sized (q :: rest) (n + m).

End TreeSize.

(** ** More vocabulary: requests and summaries of a run *)

(** The chunk requests of [upload_large] for the chunks [cs] from the
    offset [start] on: each range begins where the one before ended and is
    as long as its chunk; [total] is the declared size. *)
Fixpoint chunk_calls (url : string) (total : Z) (start : Z) (cs : list content)
    : list Call :=
  match cs with
  | [] => []
  | c :: rest =>
      PutChunk url start (start + Z.of_nat (length c) - 1) total c
      :: chunk_calls url total (start + Z.of_nat (length c)) rest
  end.

(** The paths [ensure_folder] asks for: the components joined one after
    the other onto [current]. *)
Fixpoint prefixes (current : string) (parts : list string) : list string :=
  match parts with
  | [] => []
  | p :: rest =>
      let current := if Text.truthy current then current +:+ "/" +:+ p else p in
      current :: prefixes current rest
  end.

(** The paths of the GETs of [root:/path] among some requests, in order. *)
Definition checked_paths (l : list Call) : list string :=
  flat_map (fun c => match c with GetTargetItem p => [p] | _ => [] end) l.

(** A file action that a run transfers: its id is not in the loaded set
    and it is not skipped as identical. *)
Definition transferred (skip_identicals : bool) (processed : gset string)
    (a : Action) : bool :=
  match a with
  | file _ _ _ id status =>
      (negb (bool_decide (id ∈ processed))
       && negb (skip_identicals && bool_decide (status = exists_same)))%bool
  | _ => false
  end.

(** A file action that a run skips as identical. *)
Definition skipped_same (skip_identicals : bool) (processed : gset string)
    (a : Action) : bool :=
  match a with
  | file _ _ _ id status =>
      (negb (bool_decide (id ∈ processed))
       && (skip_identicals && bool_decide (status = exists_same)))%bool
  | _ => false
  end.

(** The summary a completed run of a plan stands for. *)
Definition summary_of (mode : string) (skip_identicals : bool)
    (processed : gset string) (l : list Action) : Summary.t :=
  {| Summary.files_copied := count (transferred skip_identicals processed) l;
     Summary.bytes_copied :=
       total_size (List.filter (transferred skip_identicals processed) l);
     Summary.deleted :=
       if String.eqb mode "move"
       then count (transferred skip_identicals processed) l else 0;
     Summary.folders_created := count is_folder l;
     Summary.skipped_identical := count (skipped_same skip_identicals processed) l;
     Summary.skipped_vault := count is_skip_vault l |}.

(** The requests an action may send in a run: none for a vault entry, for
    a file already processed and for a file skipped as identical; the folder
    checks of its target for a folder entry; for a transferred file the
    folder checks of the parent of its target, the download of its id, one
    PUT of its target when its planned size is below 4 MiB and an upload
    session on its target otherwise, and in move mode the DELETE of its id. *)
Definition action_call (conflict mode : string) (skip_identicals : bool)
    (processed : gset string) (a : Action) (c : Call) : Prop :=
  match a with
  | skip_vault _ => False
  | folder _ target => folder_call conflict (folder_parts target) c
  | file _ target size id status =>
      transferred skip_identicals processed a = true /\
      match c with
      | GetTargetItem _ | PostRootChildren _ _ =>
          folder_call conflict
            (folder_parts (Posix.str (Posix.parent (Posix.Path target)))) c
      | GetDownloadUrl i => i = id
      | GetStream _ => True
      | PutContent p _ => p = target /\ size < 4 * 1024 * 1024
      | PostUploadSession p cf =>
          p = target /\ cf = conflict /\ 4 * 1024 * 1024 <= size
      | PutChunk _ _ _ total _ => total = size /\ 4 * 1024 * 1024 <= size
      | DeleteSourceItem i => i = id /\ mode = "move"%string
      | ListSourceChildren _ | LookupTarget _ => False
      end
  end.





(** The steps of a file action of [execute] from the folder check to the
    upload: what runs before the summary is touched, the source is deleted
    and the cache is saved. *)
Definition transfer_file {R} (svc : Service R) (conflict : string)
    (target : string) (size : Z) (id : string) : M unit :=
  bind (ensure_folder svc conflict (Posix.str (Posix.parent (Posix.Path target))))
    (fun _ =>
  bind (download_stream svc id) (fun reader =>
  if size <? 4 * 1024 * 1024
  then bind (read_all reader) (fun buf => upload_small svc target buf)
  else upload_large svc conflict target size reader)).

(** No source item is deleted by the request. *)
Definition keeps_source (c : Call) : Prop :=
  match c with DeleteSourceItem _ => False | _ => True end.

(** A service that answers from a script: the chunk PUTs get the replies
    of the script one after the other (a connection error once it is used
    up), an upload session is always opened, and every path is there. *)
Module Scripted.

Definition service : Service (list (exn + Z)) :=
  {| get_target_item := fun _ s => (inr 200, s);
     post_root_children := fun _ _ s => (inr 201, s);
     list_source_children := fun _ s => (inr [], s);
     lookup_target := fun _ s => (inr None, s);
     get_download_url := fun _ s => (inr None, s);
     get_stream := fun _ s => (inl ConnectionError, s);
     put_content := fun _ _ s => (inr 201, s);
     post_upload_session := fun p _ s => (inr (200, "session:" +:+ p), s);
     put_chunk := fun _ _ _ _ _ s =>
       match s with
       | [] => (inl ConnectionError, [])
       | r :: rest => (r, rest)
       end;
     delete_source_item := fun _ s => (inr 204, s);
     open_cache_file := fun _ s => (None, s) |}.

(** A world around a script. *)
Definition world (script : list (exn + Z)) : World :=
  {| remote := script; calls := []; disk := ∅ |}.

End Scripted.

Module TextFacts.
Import Text.

Lemma length_append (a b : string) :
  String.length (a +:+ b) = (String.length a + String.length b)%nat.
Proof. induction a as [|c a IH]; simpl; [done | by rewrite IH]. Qed.







Local Arguments String.append : simpl nomatch.

Lemma has_slash_append (a b : string) :
  has_slash (a +:+ b) = (has_slash a || has_slash b)%bool.
Proof.
  induction a as [|c a IH]; [reflexivity|].
  simpl. rewrite IH. by rewrite orb_assoc.
Qed.

Lemma has_slash_separator (a b : string) : has_slash (a +:+ "/" +:+ b) = true.
Proof. rewrite has_slash_append. simpl. by rewrite orb_true_r. Qed.

(** Where a path ends in a component without slash, what stands before the
    last slash is determined: a path that starts with [v/] either is [v]
    followed by that component, or has its parent below [v]. *)
Lemma split_last_component (n : string) (q v rest : string) :
  has_slash n = false ->
  q +:+ "/" +:+ n = v +:+ "/" +:+ rest ->
  (q = v /\ n = rest) \/ exists rest', q = v +:+ "/" +:+ rest'.
Proof.
  intros Hn. revert q. induction v as [|c v IH]; intros q H.
  - destruct q as [|c' q]; simpl in H.
    + left. by injection H as ->.
    + right. injection H as -> _. by exists q.
  - destruct q as [|c' q]; simpl in H.
    + injection H as _ H.
      rewrite H, has_slash_append in Hn. simpl in Hn.
      rewrite orb_true_r in Hn. discriminate Hn.
    + injection H as -> H.
      destruct (IH q H) as [[-> ->] | [rest' ->]]; [by left|].
      right. by exists rest'.
Qed.

End TextFacts.

Module PosixFacts.
Import Posix.

Example Path_nested : Path "docs/a.txt" = {| root := ""; tail := ["docs"; "a.txt"] |}.
Proof. reflexivity. Qed.

Example Path_dots : parts (Path "/a//./b/") = ["/"; "a"; "b"].
Proof. reflexivity. Qed.

Example str_parent_top : str (parent (Path "a.txt")) = ".".
Proof. reflexivity. Qed.

Example str_truediv : str (truediv "backup" "docs/a.txt") = "backup/docs/a.txt".
Proof. reflexivity. Qed.

End PosixFacts.

(** ** The filter evaluator *)

Section FilterFacts.

Variable fromisoformat : string -> option Z.










(** C10. With a modified-after minimum configured, a file whose metadata
    carries no [lastModifiedDateTime] is filtered exactly as if no minimum
    were configured: the date check alone never excludes it. *)
Theorem apply_filters_missing_timestamp (item : Item) (filters : Filters) :
  item_lastModifiedDateTime item = None ->
  apply_filters fromisoformat item filters =
  apply_filters fromisoformat item
    {| exts := exts filters; modified_after := None;
       min_bytes := min_bytes filters; max_bytes := max_bytes filters |}.
Proof.
  intros Hlm. unfold apply_filters. simpl. rewrite Hlm.
  by destruct (modified_after filters).
Qed.

End FilterFacts.

(** ** The monad: how effects compose *)

Section MonadFacts.

Context {R : Type}.

Global Instance same_disk_preorder : PreOrder (same_disk (R:=R)).
Proof.
  split; [by intros w|]. intros a b c Hab Hbc. unfold same_disk in *. congruence.
Qed.

Global Instance extends_preorder (P : Call -> Prop) : PreOrder (extends (R:=R) P).
Proof.
  split.
  - intros w. exists []. by rewrite app_nil_r.
  - intros a b c (d1 & H1 & F1) (d2 & H2 & F2). exists (d1 ++ d2).
    split; [by rewrite H2, H1, app_assoc | by apply Forall_app].
Qed.

Global Instance preserves_preorder (P : R -> Prop) : PreOrder (preserves P).
Proof.
  split; [intros w H; exact H|]. intros a b c Hab Hbc H. apply Hbc, Hab, H.
Qed.

Lemma extends_weaken (P Q : Call -> Prop) (w w' : World (R:=R)) :
  (forall c, P c -> Q c) -> extends P w w' -> extends Q w w'.
Proof.
  intros HPQ (d & Hd & HF). exists d. split; [done|].
  eapply Forall_impl; eauto.
Qed.

Lemma bind_inl {A B} (c : M A) (k : A -> M B) (w w' : World (R:=R)) (e : exn) :
  bind c k w = (inl e, w') ->
  c w = (inl e, w') \/ exists a w1, c w = (inr a, w1) /\ k a w1 = (inl e, w').
Proof.
  unfold bind. destruct (c w) as [[e1|a] w1]; intros H.
  - left. injection H as -> ->. reflexivity.
  - right. exists a, w1. split; [reflexivity | exact H].
Qed.

Lemma bind_inr {A B} (c : M A) (k : A -> M B) (w w' : World (R:=R)) (b : B) :
  bind c k w = (inr b, w') ->
  exists a w1, c w = (inr a, w1) /\ k a w1 = (inr b, w').
Proof.
  unfold bind. destruct (c w) as [[e1|a] w1]; intros H; [discriminate H|].
  exists a, w1. split; [reflexivity | exact H].
Qed.

Lemma effect_ret {A} (Q : World (R:=R) -> World (R:=R) -> Prop) `{!PreOrder Q} (a : A) : effect Q (ret a).
Proof. intros w. simpl. reflexivity. Qed.

Lemma effect_raise {A} (Q : World (R:=R) -> World (R:=R) -> Prop) `{!PreOrder Q} (e : exn) : effect Q (raise (A:=A) e).
Proof. intros w. simpl. reflexivity. Qed.

Lemma effect_bind {A B} (Q : World (R:=R) -> World (R:=R) -> Prop) `{!PreOrder Q} (c : M A) (k : A -> M B) :
  effect Q c -> (forall a, effect Q (k a)) -> effect Q (bind c k).
Proof.
  intros Hc Hk w. unfold bind. specialize (Hc w).
  destruct (c w) as [[e|a] w1]; simpl in *; [done|].
  etrans; [exact Hc | apply Hk].
Qed.

Lemma effect_weaken {A} (P Q : Call -> Prop) (c : M (R:=R) A) :
  (forall x, P x -> Q x) -> effect (extends P) c -> effect (extends Q) c.
Proof. intros HPQ Hc w. eapply extends_weaken; eauto. Qed.

Lemma request_same_disk {A} (c : Call) (op : R -> (exn + A) * R) :
  effect same_disk (request c op).
Proof. intros w. unfold request. by destruct (op (remote w)). Qed.

Lemma request_extends {A} (P : Call -> Prop) (c : Call) (op : R -> (exn + A) * R) :
  P c -> effect (extends P) (request c op).
Proof.
  intros HP w. unfold request. destruct (op (remote w)). simpl.
  exists [c]. split; [done | by constructor].
Qed.

Lemma checked_same_disk (what : string) (c : Call) (op : R -> (exn + Z) * R) :
  effect same_disk (checked what c op).
Proof.
  apply effect_bind; [apply _ | apply request_same_disk |].
  intros status. destruct (400 <=? status); [apply effect_raise | apply effect_ret]; apply _.
Qed.

Lemma checked_extends (P : Call -> Prop) (what : string) (c : Call)
    (op : R -> (exn + Z) * R) :
  P c -> effect (extends P) (checked what c op).
Proof.
  intros HP. apply effect_bind; [apply _ | by apply request_extends |].
  intros status. destruct (400 <=? status); [apply effect_raise | apply effect_ret]; apply _.
Qed.

End MonadFacts.

(** ** Folder creation and content transfer: what they touch *)

Section TransferFacts.

Context {R : Type} (svc : Service R).

Variable conflict : string.

Lemma ensure_folder_loop_same_disk (parts : list string) (current : string) :
  effect same_disk (ensure_folder_loop svc conflict current parts).
Proof.
  revert current. induction parts as [|p rest IH]; intros current; simpl.
  - apply effect_ret, _.
  - apply effect_bind; [apply _ | apply request_same_disk |]. intros status.
    apply effect_bind; [apply _ | | intros _; apply IH].
    destruct (status =? 404); [apply checked_same_disk | apply effect_ret, _].
Qed.

Lemma ensure_folder_same_disk (rel_path : string) :
  effect same_disk (ensure_folder svc conflict rel_path).
Proof.
  unfold ensure_folder. destruct (Text.truthy rel_path);
    [apply ensure_folder_loop_same_disk | apply effect_ret, _].
Qed.

Lemma ensure_folder_loop_extends (parts : list string) (current : string) :
  effect (extends (folder_call conflict parts))
         (ensure_folder_loop svc conflict current parts).
Proof.
  revert current. induction parts as [|p rest IH]; intros current; simpl.
  - apply effect_ret, _.
  - apply effect_bind; [apply _ | by apply request_extends |]. intros status.
    apply effect_bind; [apply _ | |].
    + destruct (status =? 404); [|apply effect_ret, _].
      apply checked_extends. simpl. auto.
    + intros _. eapply effect_weaken; [|apply IH].
      intros [] Hc; simpl in *; try done. destruct Hc. auto.
Qed.

(** Whatever the path and the state of the target, the only requests of
    [ensure_folder] are GETs and POSTs to [root/children] naming a single
    component of the path. *)
Lemma ensure_folder_extends (rel_path : string) :
  effect (extends (folder_call conflict (folder_parts rel_path)))
         (ensure_folder svc conflict rel_path).
Proof.
  unfold ensure_folder. destruct (Text.truthy rel_path);
    [apply ensure_folder_loop_extends | apply effect_ret, _].
Qed.

(** X25. When every ancestor of the path is there (the GET of each of its
    prefixes answers, and not with 404, in the states [steady] describes),
    [ensure_folder] returns normally having sent one GET for each prefix,
    from the top down, and nothing else: no folder is created. *)
Lemma ensure_folder_all_present (steady : R -> Prop) (rel_path : string) (w : World) :
  (forall p r, In p (prefixes "" (folder_parts rel_path)) -> steady r ->
     exists status r',
       get_target_item svc p r = (inr status, r') /\ status <> 404 /\ steady r') ->
  steady (remote w) ->
  fst (ensure_folder svc conflict rel_path w) = inr tt /\
  calls (snd (ensure_folder svc conflict rel_path w))
  = calls w ++ List.map GetTargetItem (prefixes "" (folder_parts rel_path)).
Proof.
  intros Hget Hw. unfold ensure_folder.
  destruct (Text.truthy rel_path) eqn:Htruthy.
  - revert Hget Hw.
    generalize (folder_parts rel_path) as parts. generalize ""%string as current.
    intros current parts. revert current w.
    induction parts as [|p rest IH]; intros current w Hget Hw.
    { simpl. by rewrite app_nil_r. }
    set (c := if Text.truthy current then current +:+ "/" +:+ p else p).
    destruct (Hget c (remote w)) as (status & r' & Hsvc & Hne & Hr');
      [by left | exact Hw |].
    apply Z.eqb_neq in Hne.
    simpl. fold c. unfold bind, gget, request. rewrite Hsvc. simpl. rewrite Hne. simpl.
    match goal with |- context [ensure_folder_loop _ _ c rest ?w1] =>
      destruct (IH c w1) as [Hres Hcalls] end.
    { intros q r Hq Hr. apply Hget; [by right | exact Hr]. }
    { exact Hr'. }
    split; [exact Hres|]. rewrite Hcalls. simpl. by rewrite <- app_assoc.
  - destruct rel_path; [|discriminate Htruthy]. simpl. by rewrite app_nil_r.
Qed.

(** When every chunk is answered 202 and the reader ends without raising,
    the upload loop returns normally. *)
Lemma upload_large_loop_all_accepted (upurl : string) (file_size : Z)
    (todo : list content) (start : Z) (w : World) :
  (forall url a b total data r, exists r',
      put_chunk svc url a b total data r = (inr 202, r')) ->
  fst (upload_large_loop svc upurl file_size start todo None w) = inr tt.
Proof.
  intros Hput. revert start w.
  induction todo as [|chunk rest IH]; intros start w; [reflexivity|].
  simpl. unfold bind, request.
  destruct (Hput upurl start (start + Z.of_nat (length chunk) - 1) file_size chunk
              (remote w)) as [r' ->].
  simpl. apply IH.
Qed.

Lemma download_stream_same_disk (item_id : string) :
  effect same_disk (download_stream svc item_id).
Proof.
  apply effect_bind; [apply _ | apply request_same_disk |].
  intros [url|]; [|apply effect_raise, _].
  destruct (Text.truthy url); [apply request_same_disk | apply effect_raise, _].
Qed.

Lemma read_all_same_disk (reader : Reader) :
  effect (R:=R) same_disk (read_all reader).
Proof.
  unfold read_all. destruct (broken reader); [apply effect_raise | apply effect_ret]; apply _.
Qed.

Lemma upload_small_same_disk (rel_path : string) (data : content) :
  effect same_disk (upload_small svc rel_path data).
Proof. apply checked_same_disk. Qed.

Lemma upload_large_loop_same_disk (upurl : string) (file_size : Z)
    (todo : list content) (start : Z) (failure : option exn) :
  effect same_disk (upload_large_loop svc upurl file_size start todo failure).
Proof.
  revert start. induction todo as [|chunk rest IH]; intros start; simpl.
  - destruct failure; [apply effect_raise | apply effect_ret]; apply _.
  - apply effect_bind; [apply _ | apply request_same_disk |]. intros status.
    destruct ((status =? 200) || (status =? 201))%bool; [apply effect_ret, _|].
    destruct (status =? 202); [apply IH | apply effect_raise, _].
Qed.

Lemma upload_large_same_disk (rel_path : string) (file_size : Z) (reader : Reader) :
  effect same_disk (upload_large svc conflict rel_path file_size reader).
Proof.
  apply effect_bind; [apply _ | apply request_same_disk |].
  intros [status upurl]. destruct (400 <=? status);
    [apply effect_raise, _ | apply upload_large_loop_same_disk].
Qed.

Lemma gdelete_same_disk (id : string) : effect same_disk (gdelete svc id).
Proof. apply checked_same_disk. Qed.

End TransferFacts.

(** ** The resume cache on disk *)

Section CacheFacts.

Lemma extend_cache_app (c : Cache) (a b : list string) :
  extend_cache (extend_cache c a) b = extend_cache c (a ++ b).
Proof.
  destruct a as [|x a]; [done|]. destruct b as [|y b].
  - by rewrite app_nil_r.
  - simpl. by rewrite <- app_assoc.
Qed.

Lemma write_cache_twice (path : option string) (x y : Cache) (d : gmap string CacheFile) :
  write_cache path x (write_cache path y d) = write_cache path x d.
Proof.
  unfold write_cache. destruct path as [p|]; [|done].
  destruct (Text.truthy p); [|done]. apply insert_insert_eq.
Qed.

Lemma checkpoint_app (path : option string) (c : Cache) (a b : list string)
    (d : gmap string CacheFile) :
  checkpoint path (extend_cache c a) b (checkpoint path c a d)
  = checkpoint path c (a ++ b) d.
Proof.
  destruct a as [|x a]; [done|]. destruct b as [|y b].
  - by rewrite app_nil_r.
  - unfold checkpoint at 1 2. rewrite write_cache_twice, extend_cache_app. done.
Qed.

Lemma read_write_cache (p : string) (c : Cache) (d : gmap string CacheFile) :
  Text.truthy p = true ->
  read_cache (Some p) (write_cache (Some p) c d) = c.
Proof.
  intros Hp. unfold read_cache, write_cache. rewrite Hp. by rewrite lookup_insert_eq.
Qed.

(** Reading back a checkpoint gives the loaded cache extended with the
    identifiers that were appended. *)
Lemma read_checkpoint (p : string) (ids : list string) (d : gmap string CacheFile) :
  Text.truthy p = true ->
  read_cache (Some p) (checkpoint (Some p) (read_cache (Some p) d) ids d)
  = extend_cache (read_cache (Some p) d) ids.
Proof.
  intros Hp. destruct ids as [|x ids]; [done|].
  unfold checkpoint. by rewrite read_write_cache.
Qed.

Lemma read_cache_lookup (p : string) (d d' : gmap string CacheFile) :
  d !! p = d' !! p -> read_cache (Some p) d = read_cache (Some p) d'.
Proof. intros H. unfold read_cache. by rewrite H. Qed.

Lemma elem_of_processed_extend (c : Cache) (ids : list string) (id : string) :
  id ∈ processed_set (extend_cache c ids) <-> id ∈ processed_set c \/ In id ids.
Proof.
  unfold processed_set. destruct ids as [|x ids].
  - simpl. split; [by left | by intros [?|[]]].
  - unfold extend_cache, get_processed_ids at 1. simpl default.
    rewrite !elem_of_list_to_set, elem_of_app, !list_elem_of_In. done.
Qed.

End CacheFacts.

(** ** The executor *)

Section ExecutorFacts.

Context {R : Type} (svc : Service R).

Variable conflict : string.

Lemma same_disk_run {A} (c : M A) (w w' : World (R:=R)) (r : exn + A) :
  effect same_disk c -> c w = (r, w') -> disk w' = disk w.
Proof. intros Hc Hrun. specialize (Hc w). by rewrite Hrun in Hc. Qed.

Lemma fail_safe_same_disk {A} (c : M (R:=R) A) : effect same_disk c -> fail_safe c.
Proof. intros Hc w e w' Hrun. eapply same_disk_run; eauto. Qed.

Lemma fail_safe_bind {A B} (c : M (R:=R) A) (k : A -> M B) :
  effect same_disk c -> (forall a, fail_safe (k a)) -> fail_safe (bind c k).
Proof.
  intros Hc Hk w e w' Hrun.
  apply bind_inl in Hrun as [Hrun | (a & w1 & Hrun & Hrest)].
  - eapply same_disk_run; eauto.
  - rewrite (Hk a w1 e w' Hrest). eapply same_disk_run; eauto.
Qed.

(** A save that is refused leaves the disk as it was. *)
Lemma save_cache_fail_safe (path : option string) (cache : Cache) :
  fail_safe (save_cache svc path cache).
Proof.
  intros w e w'. unfold save_cache. destruct path as [p|]; [|discriminate].
  destruct (Text.truthy p); [|discriminate].
  destruct (open_cache_file svc p (remote w)) as [[e'|] r]; [|discriminate].
  by intros [= <- <-].
Qed.

(** A save that returns has replaced the file by the dictionary. *)
Lemma save_cache_success (path : option string) (cache : Cache) (w w' : World) :
  save_cache svc path cache w = (inr tt, w') ->
  disk w' = write_cache path cache (disk w).
Proof.
  unfold save_cache, write_cache. destruct path as [p|]; [|by intros [= <-]].
  destruct (Text.truthy p); [|by intros [= <-]].
  destruct (open_cache_file svc p (remote w)) as [[e'|] r]; [discriminate|].
  by intros [= <-].
Qed.

Lemma fail_safe_save_then (path : option string) (cache : Cache)
    (st : Summary.t * Cache) :
  fail_safe (bind (save_cache svc path cache) (fun _ => ret st)).
Proof.
  intros w e w' H. apply bind_inl in H as [H | (u & w1 & _ & H)]; [|discriminate H].
  by apply save_cache_fail_safe in H.
Qed.

(** An action whose id the loaded set holds does nothing at all: no
    request, no write, no counter. *)
Lemma execute_action_done (mode : string) (skip : bool) (cache_path : option string)
    (processed : gset string) (a : Action) (st : Summary.t * Cache) (w : World) :
  already_done processed a = true ->
  execute_action svc conflict mode skip cache_path processed st a w = (inr st, w).
Proof.
  intros Hdone. destruct a as [src|src tgt|src tgt size id status]; try discriminate Hdone.
  destruct st as [summary cache]. simpl in *. by rewrite Hdone.
Qed.

(** An action that raises leaves the disk as it found it. *)
Lemma execute_action_fail_safe (mode : string) (skip : bool)
    (cache_path : option string) (processed : gset string)
    (a : Action) (st : Summary.t * Cache) :
  fail_safe (execute_action svc conflict mode skip cache_path processed st a).
Proof.
  destruct st as [summary cache].
  destruct a as [src|src tgt|src tgt size id status]; unfold execute_action.
  - intros w e w' H. discriminate H.
  - apply fail_safe_bind; [apply ensure_folder_same_disk|].
    intros _ w e w' H. discriminate H.
  - destruct (bool_decide (id ∈ processed)); [intros w e w' H; discriminate H|].
    destruct (skip && bool_decide (status = exists_same))%bool;
      [apply fail_safe_save_then|].
    apply fail_safe_bind; [apply ensure_folder_same_disk|]. intros _.
    apply fail_safe_bind; [apply download_stream_same_disk|]. intros reader.
    apply fail_safe_bind.
    { destruct (size <? 4 * 1024 * 1024); [|apply upload_large_same_disk].
      apply effect_bind; [apply _ | apply read_all_same_disk |].
      intros buf. apply upload_small_same_disk. }
    intros _. apply fail_safe_bind.
    { destruct (String.eqb mode "move"); [|apply effect_ret, _].
      apply effect_bind; [apply _ | apply gdelete_same_disk |].
      intros _. apply effect_ret, _. }
    intros summary'. apply fail_safe_save_then.
Qed.

(** An action that completes appends what [commits] says, and saves. *)
Lemma execute_action_success (mode : string) (skip : bool)
    (cache_path : option string) (processed : gset string) (a : Action)
    (summary summary' : Summary.t) (cache cache' : Cache) (w w' : World) :
  execute_action svc conflict mode skip cache_path processed (summary, cache) a w
    = (inr (summary', cache'), w') ->
  cache' = extend_cache cache (commits processed a) /\
  disk w' = checkpoint cache_path cache (commits processed a) (disk w).
Proof.
  destruct a as [src|src tgt|src tgt size id status]; unfold execute_action, commits.
  - intros H. injection H as <- <- <-. done.
  - intros H. apply bind_inr in H as (u & w1 & Hf & H).
    injection H as <- <- <-. split; [done|].
    eapply same_disk_run; [apply ensure_folder_same_disk | exact Hf].
  - destruct (bool_decide (id ∈ processed)).
    { intros H. injection H as <- <- <-. done. }
    destruct (skip && bool_decide (status = exists_same))%bool.
    { intros H. apply bind_inr in H as ([] & w1 & Hs & H).
      injection H as <- <- <-. split; [done|].
      by apply save_cache_success in Hs. }
    intros H.
    apply bind_inr in H as (u1 & w1 & H1 & H).
    apply bind_inr in H as (reader & w2 & H2 & H).
    apply bind_inr in H as (u3 & w3 & H3 & H).
    apply bind_inr in H as (summary3 & w4 & H4 & H).
    apply bind_inr in H as ([] & w5 & Hs & H).
    injection H as <- <- <-. split; [done|].
    apply save_cache_success in Hs.
    assert (disk w1 = disk w) as E1
      by (eapply same_disk_run; [apply ensure_folder_same_disk | exact H1]).
    assert (disk w2 = disk w1) as E2
      by (eapply same_disk_run; [apply download_stream_same_disk | exact H2]).
    assert (disk w3 = disk w2) as E3.
    { eapply same_disk_run; [|exact H3].
      destruct (size <? 4 * 1024 * 1024); [|apply upload_large_same_disk].
      apply effect_bind; [apply _ | apply read_all_same_disk |].
      intros buf. apply upload_small_same_disk. }
    assert (disk w4 = disk w3) as E4.
    { eapply same_disk_run; [|exact H4].
      destruct (String.eqb mode "move"); [|apply effect_ret, _].
      apply effect_bind; [apply _ | apply gdelete_same_disk |].
      intros _. apply effect_ret, _. }
    unfold append_processed in Hs. simpl.
    rewrite Hs, E4, E3, E2, E1. reflexivity.
Qed.

Lemma execute_loop_app (mode : string) (skip : bool) (cache_path : option string)
    (processed : gset string) (pre post : list Action)
    (st : Summary.t * Cache) (w : World) :
  execute_loop svc conflict mode skip cache_path processed (pre ++ post) st w
  = bind (execute_loop svc conflict mode skip cache_path processed pre st)
         (execute_loop svc conflict mode skip cache_path processed post) w.
Proof.
  revert st w. induction pre as [|a pre IH]; intros st w; [reflexivity|].
  simpl. unfold bind.
  destruct (execute_action svc conflict mode skip cache_path processed st a w)
    as [[e|st1] w1]; [reflexivity|]. rewrite IH. reflexivity.
Qed.

(** A loop that completes has appended the identifiers of [committed]. *)
Lemma execute_loop_success (mode : string) (skip : bool)
    (cache_path : option string) (processed : gset string) (done : list Action)
    (summary summary' : Summary.t) (cache cache' : Cache) (w w' : World) :
  execute_loop svc conflict mode skip cache_path processed done (summary, cache) w
    = (inr (summary', cache'), w') ->
  cache' = extend_cache cache (committed processed done) /\
  disk w' = checkpoint cache_path cache (committed processed done) (disk w).
Proof.
  revert summary cache w. induction done as [|a done IH]; intros summary cache w H.
  - injection H as <- <- <-. done.
  - simpl in H. apply bind_inr in H as ([s1 c1] & w1 & Ha & H).
    apply execute_action_success in Ha as [-> Hd1].
    apply IH in H as [-> Hd]. unfold committed. simpl.
    rewrite Hd, Hd1, extend_cache_app, checkpoint_app. done.
Qed.

(** A loop that raises did so in one action, after the actions before it
    completed; the disk is as those left it. *)
Lemma execute_loop_failure (mode : string) (skip : bool)
    (cache_path : option string) (processed : gset string) (plan : list Action)
    (st : Summary.t * Cache) (w w' : World) (e : exn) :
  execute_loop svc conflict mode skip cache_path processed plan st w = (inl e, w') ->
  exists done a rest st1 w1,
    plan = done ++ a :: rest /\
    execute_loop svc conflict mode skip cache_path processed done st w = (inr st1, w1) /\
    execute_action svc conflict mode skip cache_path processed st1 a w1 = (inl e, w') /\
    disk w' = disk w1.
Proof.
  revert st w. induction plan as [|a plan IH]; intros st w H; [discriminate H|].
  simpl in H. apply bind_inl in H as [Ha | (st1 & w1 & Ha & H)].
  - exists [], a, plan, st, w. repeat split; try done.
    eapply execute_action_fail_safe; eauto.
  - apply IH in H as (done & b & rest & st2 & w2 & -> & Hdone & Hb & Hd).
    exists (a :: done), b, rest, st2, w2. repeat split; try done.
    simpl. unfold bind. by rewrite Ha.
Qed.

Lemma execute_unfold (plan : list Action) (mode : string) (skip : bool)
    (cache_path : option string) (w : World) :
  execute svc conflict plan mode skip cache_path w
  = bind (execute_loop svc conflict mode skip cache_path
            (processed_set (read_cache cache_path (disk w))) plan
            (Summary.zero, read_cache cache_path (disk w)))
         (fun st => ret (fst st)) w.
Proof. reflexivity. Qed.

(** An action that raises after the actions before it completed makes the
    whole loop raise the same exception, in the same world. *)
Lemma execute_loop_propagates (mode : string) (skip : bool)
    (cache_path : option string) (processed : gset string)
    (done rest : list Action) (a : Action)
    (st st1 : Summary.t * Cache) (w w1 w' : World) (e : exn) :
  execute_loop svc conflict mode skip cache_path processed done st w = (inr st1, w1) ->
  execute_action svc conflict mode skip cache_path processed st1 a w1 = (inl e, w') ->
  execute_loop svc conflict mode skip cache_path processed (done ++ a :: rest) st w
  = (inl e, w').
Proof.
  intros Hdone Ha. rewrite execute_loop_app. unfold bind at 1. rewrite Hdone.
  simpl. unfold bind. by rewrite Ha.
Qed.

Lemma transfer_file_same_disk (target : string) (size : Z) (id : string) :
  effect same_disk (transfer_file svc conflict target size id).
Proof.
  unfold transfer_file.
  apply effect_bind; [apply _ | apply ensure_folder_same_disk |].
  intros _. apply effect_bind; [apply _ | apply download_stream_same_disk |].
  intros reader. destruct (size <? 4 * 1024 * 1024).
  - apply effect_bind; [apply _ | apply read_all_same_disk |].
    intros buf. apply upload_small_same_disk.
  - apply upload_large_same_disk.
Qed.

(** A file action that is attempted runs its transfer, then the deletion in
    move mode, then appends its id and saves. *)
Lemma execute_action_attempted (mode : string) (skip : bool)
    (cache_path : option string) (processed : gset string)
    (summary : Summary.t) (cache : Cache) (src target id : string) (size : Z)
    (status : Status) (w : World) :
  transferred skip processed (file src target size id status) = true ->
  execute_action svc conflict mode skip cache_path processed (summary, cache)
    (file src target size id status) w
  = bind (transfer_file svc conflict target size id) (fun _ =>
    bind (if String.eqb mode "move"
          then bind (gdelete svc id) (fun _ =>
                 ret (Summary.add_deleted (Summary.add_copied size summary)))
          else ret (Summary.add_copied size summary)) (fun summary' =>
    bind (save_cache svc cache_path (append_processed id cache)) (fun _ =>
    ret (summary', append_processed id cache)))) w.
Proof.
  intros Ht. unfold execute_action.
  simpl in Ht. apply andb_true_iff in Ht as [Hp Hs].
  apply negb_true_iff in Hp, Hs. rewrite Hp, Hs.
  unfold transfer_file, bind.
  destruct (ensure_folder svc conflict _ w) as [[e1|[]] w1]; [done|].
  destruct (download_stream svc id w1) as [[e2|reader] w2]; [done|].
  destruct (size <? 4 * 1024 * 1024).
  - destruct (read_all reader w2) as [[e3|buf] w3]; [done|].
    by destruct (upload_small svc target buf w3) as [[e4|[]] w4].
  - by destruct (upload_large svc conflict target size reader w2) as [[e4|[]] w4].
Qed.

(** A file action whose folder check, download or upload raises, raises
    the same at once. *)
Lemma execute_action_failed_transfer (mode : string) (skip : bool)
    (cache_path : option string) (processed : gset string)
    (st : Summary.t * Cache) (src target id : string) (size : Z)
    (status : Status) (e : exn) (w : World) :
  transferred skip processed (file src target size id status) = true ->
  fst (transfer_file svc conflict target size id w) = inl e ->
  execute_action svc conflict mode skip cache_path processed st
    (file src target size id status) w
  = (inl e, snd (transfer_file svc conflict target size id w)).
Proof.
  intros Ht Hfail. destruct st as [summary cache].
  rewrite execute_action_attempted by done. unfold bind at 1.
  destruct (transfer_file svc conflict target size id w) as [[e'|[]] w1];
    simpl in *; [by injection Hfail as -> | discriminate Hfail].
Qed.

(** In move mode, a file action whose deletion raises after the transfer
    went through, raises the same at once: the id is not appended and the
    cache is not saved. *)
Lemma execute_action_failed_delete (skip : bool)
    (cache_path : option string) (processed : gset string)
    (st : Summary.t * Cache) (src target id : string) (size : Z)
    (status : Status) (e : exn) (w w2 : World) :
  transferred skip processed (file src target size id status) = true ->
  transfer_file svc conflict target size id w = (inr tt, w2) ->
  fst (gdelete svc id w2) = inl e ->
  execute_action svc conflict "move" skip cache_path processed st
    (file src target size id status) w
  = (inl e, snd (gdelete svc id w2)).
Proof.
  intros Ht Htransfer Hdel. destruct st as [summary cache].
  rewrite execute_action_attempted by done. unfold bind. rewrite Htransfer. simpl.
  destruct (gdelete svc id w2) as [[e'|[]] w4];
    simpl in *; [by injection Hdel as -> | discriminate Hdel].
Qed.

(** C4. Let the actions [done] before a file action have completed, and
    let the file be one the run attempts (its id is not in the loaded
    cache and it is not skipped as identical). If its folder check, download
    or upload raises [e], or, in move mode, its deletion raises [e] after
    the transfer went through, then [execute] raises [e]; the cache file
    then holds the loaded identifiers followed by those the completed
    actions appended (it is as it was when none was appended), every other
    file is as it was, and the id of the failed file is in the cache file
    only if a completed action carried the same id. *)
Theorem execute_failure_preserves_cache (done rest : list Action)
    (src target id : string) (size : Z) (status : Status) (mode : string)
    (skip : bool) (cache_path : option string) (w w1 : World)
    (st : Summary.t * Cache) (e : exn) :
  let cache := read_cache cache_path (disk w) in
  let processed := processed_set cache in
  let a := file src target size id status in
  execute_loop svc conflict mode skip cache_path processed done
               (Summary.zero, cache) w = (inr st, w1) ->
  transferred skip processed a = true ->
  (fst (transfer_file svc conflict target size id w1) = inl e \/
   exists w2, transfer_file svc conflict target size id w1 = (inr tt, w2) /\
              mode = "move"%string /\ fst (gdelete svc id w2) = inl e) ->
  let run := execute svc conflict (done ++ a :: rest) mode skip cache_path w in
  fst run = inl e /\
  (forall p, cache_path = Some p -> Text.truthy p = true ->
     disk (snd run) !! p
     = match committed processed done with
       | [] => disk w !! p
       | ids => Some (CacheObject (Some (get_processed_ids cache ++ ids)))
       end) /\
  (forall q, cache_path <> Some q -> disk (snd run) !! q = disk w !! q) /\
  (In id (get_processed_ids (read_cache cache_path (disk (snd run)))) ->
   In id (committed processed done)).
Proof.
  intros cache processed a Hdone Ht Hfail run.
  assert (exists w', execute_action svc conflict mode skip cache_path processed st a w1
                     = (inl e, w') /\ disk w' = disk w1) as (w' & Ha & Hd).
  { destruct Hfail as [Hfail | (w2 & Htransfer & -> & Hdel)].
    - eexists. split; [by apply execute_action_failed_transfer|].
      apply transfer_file_same_disk.
    - eexists. split; [by eapply execute_action_failed_delete|].
      rewrite (gdelete_same_disk svc id w2).
      eapply same_disk_run; [apply transfer_file_same_disk | exact Htransfer]. }
  assert (run = (inl e, w')) as Hrun.
  { unfold run. rewrite execute_unfold. fold cache. fold processed. unfold bind.
    by rewrite (execute_loop_propagates _ _ _ _ _ rest _ _ _ _ _ _ _ Hdone Ha). }
  destruct st as [s1 c1].
  apply execute_loop_success in Hdone as [_ Hd1].
  assert (disk (snd run)
          = checkpoint cache_path cache (committed processed done) (disk w)) as Hdisk
    by (rewrite Hrun; simpl; by rewrite Hd, Hd1).
  split; [by rewrite Hrun|]. split; [|split].
  - intros p -> Hp. rewrite Hdisk. unfold checkpoint, write_cache, extend_cache.
    destruct (committed processed done) as [|x ids]; [done|].
    rewrite Hp. apply lookup_insert_eq.
  - intros q Hq. rewrite Hdisk. unfold checkpoint, write_cache.
    destruct (committed processed done) as [|x ids]; [done|].
    destruct cache_path as [p|]; [|done]. destruct (Text.truthy p); [|done].
    apply lookup_insert_ne. congruence.
  - intros Hin.
    assert (id ∈ processed_set (read_cache cache_path (disk (snd run)))) as Hset
      by (unfold processed_set; by rewrite elem_of_list_to_set, list_elem_of_In).
    assert (id ∉ processed) as Hnew.
    { simpl in Ht. apply andb_true_iff in Ht as [Hp _].
      apply negb_true_iff in Hp. by apply bool_decide_eq_false in Hp. }
    destruct cache_path as [p|].
    + destruct (Text.truthy p) eqn:Hp.
      * rewrite Hdisk in Hset. unfold cache in Hset.
        rewrite read_checkpoint in Hset by done.
        apply elem_of_processed_extend in Hset as [Hold | Hnow]; [done | exact Hnow].
      * unfold read_cache in Hin. rewrite Hp in Hin. destruct Hin.
    + destruct Hin.
Qed.

Lemma execute_loop_skip (mode : string) (skip : bool) (cache_path : option string)
    (processed : gset string) (pre post : list Action) (a : Action)
    (st : Summary.t * Cache) (w : World) :
  already_done processed a = true ->
  execute_loop svc conflict mode skip cache_path processed (pre ++ a :: post) st w
  = execute_loop svc conflict mode skip cache_path processed (pre ++ post) st w.
Proof.
  intros Hdone. rewrite !execute_loop_app. unfold bind at 1 2.
  destruct (execute_loop svc conflict mode skip cache_path processed pre st w)
    as [[e|st1] w1]; [reflexivity|].
  simpl. unfold bind. by rewrite execute_action_done.
Qed.

(** The second run is the run of the plan without the files already done. *)
Lemma execute_loop_erase (mode : string) (skip : bool) (cache_path : option string)
    (processed : gset string) (plan : list Action)
    (st : Summary.t * Cache) (w : World) :
  execute_loop svc conflict mode skip cache_path processed plan st w
  = execute_loop svc conflict mode skip cache_path processed
      (List.filter (fun a => negb (already_done processed a)) plan) st w.
Proof.
  revert st w. induction plan as [|a plan IH]; intros st w; [reflexivity|].
  simpl. destruct (already_done processed a) eqn:Ha; simpl.
  - unfold bind. rewrite execute_action_done by done. apply IH.
  - unfold bind.
    destruct (execute_action svc conflict mode skip cache_path processed st a w)
      as [[e|st1] w1]; [reflexivity | apply IH].
Qed.

(** Whatever a loop does, what the cache file holds afterwards is what it
    held before with identifiers appended. *)
Lemma execute_loop_cache_grows (mode : string) (skip : bool) (p : string)
    (processed : gset string) (plan : list Action) (summary : Summary.t)
    (w w' : World) (r : exn + Summary.t * Cache) :
  Text.truthy p = true ->
  execute_loop svc conflict mode skip (Some p) processed plan
               (summary, read_cache (Some p) (disk w)) w = (r, w') ->
  exists ids,
    read_cache (Some p) (disk w')
    = extend_cache (read_cache (Some p) (disk w)) ids.
Proof.
  intros Hp H. destruct r as [e|[s' c']].
  - apply execute_loop_failure in H
      as (done & a & rest & [s1 c1] & w1 & _ & Hdone & _ & Hd).
    apply execute_loop_success in Hdone as [_ Hd1].
    exists (committed processed done). rewrite Hd, Hd1. by apply read_checkpoint.
  - apply execute_loop_success in H as [_ Hd].
    exists (committed processed plan). rewrite Hd. by apply read_checkpoint.
Qed.

(** C9. A file action whose id is in the loaded resume cache is skipped
    before anything else is looked at: whatever its status (also
    [exists_different]), mode and size, the action sends no request, writes
    nothing and changes no counter, and the whole run is the run of the plan
    without it. *)
Theorem cached_id_is_skipped (pre post : list Action) (src tgt : string)
    (size : Z) (id : string) (status : Status) (mode : string) (skip : bool)
    (cache_path : option string) (w : World) :
  id ∈ processed_set (read_cache cache_path (disk w)) ->
  (forall st w1,
      execute_action svc conflict mode skip cache_path
        (processed_set (read_cache cache_path (disk w))) st
        (file src tgt size id status) w1 = (inr st, w1)) /\
  execute svc conflict (pre ++ file src tgt size id status :: post)
          mode skip cache_path w
  = execute svc conflict (pre ++ post) mode skip cache_path w.
Proof.
  intros Hin.
  assert (already_done (processed_set (read_cache cache_path (disk w)))
            (file src tgt size id status) = true) as Hdone
    by (by apply bool_decide_eq_true).
  split.
  - intros st w1. by apply execute_action_done.
  - rewrite !execute_unfold. unfold bind. by rewrite execute_loop_skip.
Qed.

(** C5. Let [done] be the actions a first run with cache file [p] has
    completed. The cache in memory then is the loaded one followed by the
    id of every file of [done] that was transferred or skipped as identical,
    and the cache file holds the same: each id was appended and saved before
    the next action started.
    In a second run of the plan with the cache file the first run left, the
    id of every file of [done] is in the loaded set, and its action does
    nothing: no request is sent, so no download, upload or deletion. *)
Theorem completed_files_are_not_redone (done rest : list Action) (mode : string)
    (skip : bool) (p : string) (w wd w2 : World (R:=R)) (st : Summary.t * Cache) :
  Text.truthy p = true ->
  execute_loop svc conflict mode skip (Some p)
    (processed_set (read_cache (Some p) (disk w))) done
    (Summary.zero, read_cache (Some p) (disk w)) w = (inr st, wd) ->
  disk w2 !! p
  = disk (snd (execute svc conflict (done ++ rest) mode skip (Some p) w)) !! p ->
  snd st
  = extend_cache (read_cache (Some p) (disk w))
      (committed (processed_set (read_cache (Some p) (disk w))) done) /\
  read_cache (Some p) (disk wd) = snd st /\
  forall a, In a done -> is_file a = true ->
    already_done (processed_set (read_cache (Some p) (disk w2))) a = true /\
    forall mode2 skip2 st2 w',
      execute_action svc conflict mode2 skip2 (Some p)
        (processed_set (read_cache (Some p) (disk w2))) st2 a w' = (inr st2, w').
Proof.
  intros Hp Hdone Hw2.
  set (cache := read_cache (Some p) (disk w)) in *.
  set (processed := processed_set cache) in *.
  destruct st as [s1 c1].
  pose proof (execute_loop_success _ _ _ _ _ _ _ _ _ _ _ Hdone) as [Hc1 Hd1].
  assert (read_cache (Some p) (disk wd) = extend_cache cache (committed processed done))
    as Hread by (rewrite Hd1; by apply read_checkpoint).
  split; [exact Hc1|]. split; [by rewrite Hread, Hc1|].
  assert (exists ids, read_cache (Some p) (disk w2)
                      = extend_cache cache (committed processed done ++ ids))
    as [ids Hfinal].
  { rewrite (read_cache_lookup _ _ _ Hw2), execute_unfold.
    fold cache. fold processed. unfold bind at 1. rewrite execute_loop_app.
    unfold bind at 1. rewrite Hdone.
    destruct (execute_loop svc conflict mode skip (Some p) processed rest (s1, c1) wd)
      as [r wf] eqn:Hrest.
    rewrite Hc1, <- Hread in Hrest.
    apply execute_loop_cache_grows in Hrest as [ids Hids]; [|done].
    exists ids. rewrite <- extend_cache_app, <- Hread, <- Hids.
    by destruct r. }
  intros a Hin Hfile.
  assert (already_done (processed_set (read_cache (Some p) (disk w2))) a = true)
    as Ha.
  { destruct a as [|? ?|src tgt size id status]; try discriminate Hfile.
    unfold already_done. apply bool_decide_eq_true. rewrite Hfinal.
    apply elem_of_processed_extend.
    destruct (decide (id ∈ processed)) as [Hold|Hnew]; [by left|].
    right. apply in_or_app. left. unfold committed. apply in_flat_map.
    eexists. split; [exact Hin|]. simpl.
    rewrite bool_decide_eq_false_2 by done. by left. }
  split; [exact Ha|]. intros mode2 skip2 st2 w'. by apply execute_action_done.
Qed.

End ExecutorFacts.

(** ** The planner *)

Section PlannerFacts.

Context {R : Type} (svc : Service R).

Variable fromisoformat : string -> option Z.
Variable target_root : string.
Variable filters : Filters.
Variable skip_identicals : bool.

(** Each child is handled by one of the four cases of [item_step]. *)
Lemma plan_item_step (src_rel : string) (st st' : PlanState) (it : Item)
    (w w' : World) :
  plan_item svc fromisoformat target_root filters skip_identicals src_rel st it w
    = (inr st', w') ->
  item_step fromisoformat target_root filters skip_identicals src_rel it st st'.
Proof.
  unfold plan_item. intros H.
  destruct (is_vault it) eqn:Hv.
  { injection H as <- <-. by constructor. }
  destruct (item_folder it) eqn:Hf.
  { injection H as <- <-. by constructor. }
  destruct (apply_filters fromisoformat it filters) eqn:Ha; simpl in H.
  2: { injection H as <- <-. by constructor. }
  apply bind_inr in H as ([tgt tc] & w1 & _ & H).
  destruct tgt as [t|].
  - destruct (size_of t =? size_of it); injection H as <- <-.
    + by apply (step_file _ _ _ _ _ _ _ exists_same).
    + by apply (step_file _ _ _ _ _ _ _ exists_different).
  - injection H as <- <-. by apply (step_file _ _ _ _ _ _ _ not_present).
Qed.

(** A property of the planner's state and of the world that holds when the
    loop starts, survives taking a path off the queue and listing it, and
    survives the handling of every child of such a listing, holds when the
    loop returns. [W] is what is known of a path and its listing while its
    children are handled. *)
Lemma plan_loop_invariant (I : PlanState -> World (R:=R) -> Prop)
    (W : string -> list Item -> Prop) :
  (forall st src_rel q items w w1,
      I st w -> pop (queue st) = Some (src_rel, q) ->
      list_children svc src_rel w = (inr items, w1) ->
      W src_rel items /\
      I {| plan := plan st; stats := stats st; queue := q; tcache := tcache st |} w1) ->
  (forall src_rel items it st st' (w w' : World),
      W src_rel items -> In it items -> I st w ->
      plan_item svc fromisoformat target_root filters skip_identicals src_rel st it w
        = (inr st', w') ->
      I st' w') ->
  forall fuel st (w : World) st' w',
    I st w ->
    plan_loop svc fromisoformat fuel target_root filters skip_identicals st w
      = (inr (Some st'), w') ->
    I st' w'.
Proof.
  intros Hpop Hitem.
  assert (forall src_rel items, W src_rel items ->
             forall todo st (w : World) st' w',
               (forall it, In it todo -> In it items) -> I st w ->
               plan_items svc fromisoformat target_root filters skip_identicals
                          src_rel todo st w = (inr st', w') ->
               I st' w') as Hitems.
  { intros src_rel items HW todo.
    induction todo as [|it todo IH]; intros st w st' w' Hsub HI H.
    - by injection H as <- <-.
    - simpl in H. apply bind_inr in H as (st1 & w2 & Hstep & H).
      apply (IH st1 w2 st' w'); [by intros x Hx; apply Hsub; right | | exact H].
      eapply Hitem; eauto. apply Hsub. by left. }
  induction fuel as [|fuel IH]; intros st w st' w' HI H; simpl in H.
  - destruct (pop (queue st)) as [[src_rel q]|]; [discriminate H|].
    by injection H as <- <-.
  - destruct (pop (queue st)) as [[src_rel q]|] eqn:Hq;
      [|by injection H as <- <-].
    apply bind_inr in H as (items & w1 & Hlist & H).
    destruct (Hpop st src_rel q items w w1 HI Hq Hlist) as [HW HI'].
    apply bind_inr in H as (st1 & w2 & Hsteps & H).
    apply (IH st1 w2 st' w'); [|exact H].
    eapply (Hitems src_rel items HW items); eauto.
Qed.

Lemma plan_with_diff_loop (fuel : nat) (source_root : string)
    (l : list Action) (s : Stats.t) (w w' : World) :
  plan_with_diff svc fromisoformat fuel source_root target_root filters
                 skip_identicals w = (inr (Some (l, s)), w') ->
  exists st,
    plan_loop svc fromisoformat fuel target_root filters skip_identicals
      {| plan := []; stats := Stats.zero; queue := [source_root]; tcache := ∅ |} w
      = (inr (Some st), w') /\ l = plan st /\ s = stats st.
Proof.
  unfold plan_with_diff. intros H.
  apply bind_inr in H as (r & w1 & Hloop & H).
  destruct r as [st|]; [|discriminate H].
  injection H as <- <- <-. by exists st.
Qed.

Lemma count_snoc (p : Action -> bool) (l : list Action) (a : Action) :
  count p (l ++ [a]) = count p l + (if p a then 1 else 0).
Proof.
  unfold count. rewrite List.filter_app, length_app. simpl.
  destruct (p a); simpl; lia.
Qed.

Lemma total_size_snoc (l : list Action) (a : Action) :
  total_size (l ++ [a]) = total_size l + action_size a.
Proof.
  unfold total_size. induction l as [|b l IH]; simpl; [lia|].
  rewrite IH. lia.
Qed.

(** C8. The statistics returned with a plan are those the plan stands for:
    [files] and [bytes] count every file entry, whatever its status;
    [not_present] and [existing_diff] count the entries of their status;
    [skip_existing_same] counts the [exists_same] entries when skipping
    identicals was asked for and stays 0 otherwise. *)
Theorem plan_stats_match_plan (fuel : nat) (source_root : string)
    (l : list Action) (s : Stats.t) (w w' : World) :
  plan_with_diff svc fromisoformat fuel source_root target_root filters
                 skip_identicals w = (inr (Some (l, s)), w') ->
  s = stats_of skip_identicals l.
Proof.
  intros H. apply plan_with_diff_loop in H as (st & Hloop & -> & ->).
  apply (plan_loop_invariant
           (fun st _ => stats st = stats_of skip_identicals (plan st))
           (fun _ _ => True)) in Hloop;
    [exact Hloop | | | by destruct skip_identicals].
  - intros st0 src_rel q items w0 w1 HI _ _. by split.
  - intros src_rel items it st0 st1 w0 w1 _ _ HI Hstep.
    apply plan_item_step in Hstep.
    inversion Hstep as [Hv|Hv Hf|Hv Hf Ha|status tc Hv Hf Ha]; subst; simpl;
      [| | exact HI |]; rewrite HI; unfold stats_of;
      rewrite !count_snoc, ?total_size_snoc; simpl.
    + unfold Stats.add_skipped_vault; simpl. f_equal; try lia.
      destruct skip_identicals; lia.
    + unfold Stats.add_folder; simpl. f_equal; try lia.
      destruct skip_identicals; lia.
    + destruct status; unfold Stats.add_file; simpl;
        f_equal; try lia; destruct skip_identicals; lia.
Qed.

End PlannerFacts.

(** ** Paths of a tree with well-formed names *)

Section TreePaths.

Variable children : string -> list Item.
Variable source_root : string.

Hypothesis names : well_named children.

Lemma child_path_longer (q n : string) :
  n <> "" -> (String.length q < String.length (child_path q n))%nat.
Proof.
  intros Hn. unfold child_path. destruct q as [|c q]; simpl.
  - destruct n; [done | simpl; lia].
  - rewrite TextFacts.length_append. simpl. lia.
Qed.

Lemma walked_length (q : string) :
  Walked children source_root q ->
  (String.length source_root <= String.length q)%nat.
Proof.
  induction 1 as [|q it HW IH Hin Hv Hf]; [lia|].
  destruct (names q it Hin) as (Hne & _ & _).
  pose proof (child_path_longer q (item_name it) Hne). lia.
Qed.

Lemma beneath_length (v src : string) :
  beneath v src -> (String.length v <= String.length src)%nat.
Proof.
  intros [-> | [rest ->]]; [lia|]. rewrite TextFacts.length_append. lia.
Qed.

(** A path below [v] that ends in a well-formed name is [v] itself or has
    its parent below [v]. *)
Lemma beneath_child_path (v q n : string) :
  Text.has_slash n = false ->
  beneath v (child_path q n) -> v = child_path q n \/ beneath v q.
Proof.
  intros Hn [H | [rest H]]; [by left|]. unfold child_path in *.
  destruct (Text.truthy q).
  - right. apply TextFacts.split_last_component in H as [[-> _] | [rest' ->]];
      [by left | by right; exists rest' | exact Hn].
  - rewrite H, TextFacts.has_slash_separator in Hn. discriminate Hn.
Qed.

(** Two children with well-formed names have the same path only under the
    same parent and with the same name. *)
Lemma child_path_inj (q q' n n' : string) :
  Text.has_slash n = false -> Text.has_slash n' = false ->
  child_path q n = child_path q' n' -> q = q' /\ n = n'.
Proof.
  intros Hn Hn' H. unfold child_path in H.
  destruct q as [|c q], q' as [|c' q']; simpl in H.
  - done.
  - rewrite H, TextFacts.has_slash_separator in Hn. discriminate Hn.
  - rewrite <- H, TextFacts.has_slash_separator in Hn'. discriminate Hn'.
  - pose proof H as H1. symmetry in H.
    apply TextFacts.split_last_component in H1 as [? | [r1 E1]]; [done | | exact Hn].
    apply TextFacts.split_last_component in H as [[? ?] | [r2 E2]];
      [done | | exact Hn'].
    apply (f_equal String.length) in E1, E2.
    rewrite TextFacts.length_append in E1, E2.
    rewrite TextFacts.length_append in E1, E2. simpl in E1, E2. lia.
Qed.

(** No path the walk reaches is a vault or below one. *)
Lemma walked_outside_vaults (q v : string) :
  Walked children source_root q ->
  vault_met children source_root v -> ~ beneath v q.
Proof.
  intros HW (q' & it' & HW' & Hin' & Hv' & ->). revert HW.
  induction 1 as [|q it HW IH Hin Hv Hf]; intros Hb.
  - apply beneath_length in Hb. apply walked_length in HW'.
    destruct (names q' it' Hin') as (Hne & _ & _).
    pose proof (child_path_longer q' (item_name it') Hne). lia.
  - destruct (names q it Hin) as (_ & Hslash & _).
    destruct (names q' it' Hin') as (_ & Hslash' & Hsame).
    apply beneath_child_path in Hb as [Heq | Hb]; [|by apply IH|exact Hslash].
    apply child_path_inj in Heq as [-> Hname]; [|exact Hslash'|exact Hslash].
    rewrite (Hsame it Hin (eq_sym Hname)) in Hv. congruence.
Qed.

(** So no item outside the vaults has a path that is a vault's or below
    one. *)
Lemma outside_vaults_not_beneath (src v : string) :
  outside_vaults children source_root src ->
  vault_met children source_root v -> ~ beneath v src.
Proof.
  intros (q & it & HW & Hin & Hv & ->) Hmet Hb.
  destruct (names q it Hin) as (_ & Hslash & _).
  apply beneath_child_path in Hb as [Heq | Hb]; [| |exact Hslash].
  - destruct Hmet as (q' & it' & HW' & Hin' & Hv' & ->).
    destruct (names q' it' Hin') as (_ & Hslash' & Hsame).
    apply child_path_inj in Heq as [-> Hname]; [|exact Hslash'|exact Hslash].
    rewrite (Hsame it Hin (eq_sym Hname)) in Hv. congruence.
  - by apply (walked_outside_vaults q v).
Qed.

End TreePaths.

(** ** The vault rule *)

Section VaultFacts.

Context {R : Type} (svc : Service R).

Variable fromisoformat : string -> option Z.
Variable target_root : string.
Variable filters : Filters.
Variable skip_identicals : bool.

Lemma pop_snoc (q r : list string) (x : string) :
  pop q = Some (x, r) -> q = r ++ [x].
Proof.
  unfold pop. destruct (rev q) as [|y t] eqn:Hrev; [discriminate|].
  intros H. injection H as <- <-.
  rewrite <- (rev_involutive q), Hrev. reflexivity.
Qed.

Lemma target_lookup_extends (rel_path : string) (cache : gmap string (option Item)) :
  effect (extends lookup_call) (target_lookup svc rel_path cache).
Proof.
  unfold target_lookup. destruct (cache !! rel_path); [apply effect_ret, _|].
  apply effect_bind; [apply _ | by apply request_extends |].
  intros j. apply effect_ret, _.
Qed.

(** Handling one child sends at most a target lookup. *)
Lemma plan_item_extends (src_rel : string) (st : PlanState) (it : Item) :
  effect (extends lookup_call)
    (plan_item svc fromisoformat target_root filters skip_identicals src_rel st it).
Proof.
  unfold plan_item.
  destruct (is_vault it); [apply effect_ret, _|].
  destruct (item_folder it); [apply effect_ret, _|].
  destruct (apply_filters fromisoformat it filters); simpl; [|apply effect_ret, _].
  apply effect_bind; [apply _ | apply target_lookup_extends |].
  intros [tgt tc]. destruct tgt as [t|]; [|apply effect_ret, _].
  destruct (size_of t =? size_of it); apply effect_ret, _.
Qed.

Lemma list_children_run (p : string) (items : list Item) (w w1 : World) :
  list_children svc p w = (inr items, w1) ->
  calls w1 = calls w ++ [ListSourceChildren p] /\
  list_source_children svc p (remote w) = (inr items, remote w1).
Proof.
  unfold list_children, gget, request.
  destruct (list_source_children svc p (remote w)) as [res r'] eqn:Hsvc.
  intros H. injection H as -> <-. done.
Qed.

(** A vault item only adds a [skip_vault] entry: the queue is left as it
    was and nothing is requested. *)
Lemma plan_item_vault (src_rel : string) (st : PlanState) (it : Item) (w : World) :
  is_vault it = true ->
  plan_item svc fromisoformat target_root filters skip_identicals src_rel st it w
  = (inr {| plan := plan st ++ [skip_vault (child_path src_rel (item_name it))];
            stats := Stats.add_skipped_vault (stats st);
            queue := queue st; tcache := tcache st |}, w).
Proof. intros Hv. unfold plan_item. by rewrite Hv. Qed.

Section OnATree.

Variable children : string -> list Item.
Variable source_root : string.

(** The source account holds the tree while the plan is built: in the
    states [holds_tree] describes, a listing that is returned is the children
    of the path, and neither listing nor looking a target path up leaves
    those states. *)
Variable holds_tree : R -> Prop.

Hypothesis listing_of_tree :
  forall p r res r',
    holds_tree r -> list_source_children svc p r = (res, r') ->
    holds_tree r' /\ forall items, res = inr items -> items = children p.

Hypothesis lookup_keeps_tree :
  forall p r res r',
    holds_tree r -> lookup_target svc p r = (res, r') -> holds_tree r'.

Lemma plan_item_keeps_tree (src_rel : string) (st : PlanState) (it : Item) :
  effect (preserves holds_tree)
    (plan_item svc fromisoformat target_root filters skip_identicals src_rel st it).
Proof.
  unfold plan_item.
  destruct (is_vault it); [apply effect_ret, _|].
  destruct (item_folder it); [apply effect_ret, _|].
  destruct (apply_filters fromisoformat it filters); simpl; [|apply effect_ret, _].
  apply effect_bind; [apply _ | |].
  - unfold target_lookup.
    destruct (tcache st !! _); [apply effect_ret, _|].
    apply effect_bind; [apply _ | | intros j; apply effect_ret, _].
    intros w Hw. unfold gget, request.
    destruct (lookup_target svc _ (remote w)) as [res r'] eqn:Hsvc. simpl.
    eapply lookup_keeps_tree; eauto.
  - intros [tgt tc]. destruct tgt as [t|]; [|apply effect_ret, _].
    destruct (size_of t =? size_of it); apply effect_ret, _.
Qed.

Lemma vault_rule_step (src_rel : string) (it : Item) (st st' : PlanState) :
  Walked children source_root src_rel -> In it (children src_rel) ->
  item_step fromisoformat target_root filters skip_identicals src_rel it st st' ->
  Forall (vault_rule children source_root) (plan st) ->
  Forall (Walked children source_root) (queue st) ->
  Forall (vault_rule children source_root) (plan st') /\
  Forall (Walked children source_root) (queue st').
Proof.
  intros HW Hin Hstep Hplan Hq.
  inversion Hstep as [Hv|Hv Hf|Hv Hf Ha|status tc Hv Hf Ha]; subst; simpl.
  - split; [|done]. apply Forall_app. split; [done|].
    constructor; [|constructor]. by exists src_rel, it.
  - split.
    + apply Forall_app. split; [done|].
      constructor; [|constructor]. by exists src_rel, it.
    + apply Forall_app. split; [done|].
      constructor; [|constructor]. by apply walked_child.
  - done.
  - split; [|done]. apply Forall_app. split; [done|].
    constructor; [|constructor]. by exists src_rel, it.
Qed.

Lemma vault_invariant (fuel : nat) (st : PlanState) (w w' : World) :
  holds_tree (remote w) ->
  plan_loop svc fromisoformat fuel target_root filters skip_identicals
    {| plan := []; stats := Stats.zero; queue := [source_root]; tcache := ∅ |} w
    = (inr (Some st), w') ->
  Forall (vault_rule children source_root) (plan st) /\
  Forall (Walked children source_root) (queue st) /\
  extends (planner_call children source_root) w w'.
Proof.
  intros Htree Hloop.
  apply (plan_loop_invariant svc fromisoformat target_root filters skip_identicals
           (fun st w1 =>
              holds_tree (remote w1) /\
              Forall (vault_rule children source_root) (plan st) /\
              Forall (Walked children source_root) (queue st) /\
              extends (planner_call children source_root) w w1)
           (fun p items => Walked children source_root p /\ items = children p))
    in Hloop; [tauto | | |].
  - intros st0 src_rel q items w0 w1 (Ht & Hplan & Hq & Hext) Hpop Hlist.
    apply pop_snoc in Hpop. rewrite Hpop in Hq.
    apply Forall_app in Hq as [Hq Hx]. inversion Hx as [|? ? HW _]; subst.
    apply list_children_run in Hlist as [Hcalls Hsvc].
    apply listing_of_tree in Hsvc as [Ht' Hitems]; [|exact Ht].
    split; [by split; [|apply Hitems]|]. simpl.
    split; [exact Ht'|]. split; [exact Hplan|]. split; [exact Hq|].
    etrans; [exact Hext|].
    exists [ListSourceChildren src_rel]. split; [exact Hcalls|].
    constructor; [exact HW | constructor].
  - intros src_rel items it st0 st1 w2 w3 [HW ->] Hin
      (Ht & Hplan & Hq & Hext) Hitem.
    pose proof (plan_item_keeps_tree src_rel st0 it w2) as Hkeep.
    pose proof (plan_item_extends src_rel st0 it w2) as Hlog.
    rewrite Hitem in Hkeep, Hlog. simpl in Hkeep, Hlog.
    split; [by apply Hkeep|].
    assert (extends (planner_call children source_root) w w3) as Hext'.
    { etrans; [exact Hext|]. eapply extends_weaken; [|exact Hlog]. by intros []. }
    apply plan_item_step in Hitem.
    destruct (vault_rule_step src_rel it st0 st1 HW Hin Hitem Hplan Hq)
      as [Hp' Hq'].
    tauto.
  - simpl. split; [exact Htree|]. split; [constructor|]. split; [|reflexivity].
    constructor; [constructor | constructor].
Qed.

(** C6. On every source tree, whatever the plan returned: an item
    recognised as a vault only adds a [skip_vault] entry and is not put on
    the queue; every folder and file entry of the plan is for an item that
    is not a vault and was listed under a path reached from the root through
    non-vault folders only; the only paths whose children are listed are
    such paths, so nothing under a vault is ever read; and, names being
    well formed, no folder or file entry has the path of a vault that was
    met or a path below one. *)
Theorem vaults_stay_out_of_plans (fuel : nat) (l : list Action) (s : Stats.t)
    (w w' : World) :
  holds_tree (remote w) ->
  plan_with_diff svc fromisoformat fuel source_root target_root filters
                 skip_identicals w = (inr (Some (l, s)), w') ->
  Forall (vault_rule children source_root) l /\
  extends (planner_call children source_root) w w' /\
  (forall src_rel st it (w0 : World),
      is_vault it = true ->
      plan_item svc fromisoformat target_root filters skip_identicals src_rel st it w0
      = (inr {| plan := plan st ++ [skip_vault (child_path src_rel (item_name it))];
                stats := Stats.add_skipped_vault (stats st);
                queue := queue st; tcache := tcache st |}, w0)) /\
  (well_named children ->
   forall a src v,
     In a l -> planned_source a = Some src ->
     vault_met children source_root v -> ~ beneath v src).
Proof.
  intros Htree H. apply plan_with_diff_loop in H as (st & Hloop & -> & _).
  apply vault_invariant in Hloop as (Hplan & _ & Hext); [|exact Htree].
  split; [exact Hplan|]. split; [exact Hext|]. split.
  - intros src_rel st0 it w0 Hv. by apply plan_item_vault.
  - intros Hnames a src v Hin Hsrc Hmet.
    apply (outside_vaults_not_beneath children source_root Hnames); [|exact Hmet].
    rewrite List.Forall_forall in Hplan. specialize (Hplan a Hin).
    destruct a as [?|src' tgt|src' tgt sz id status]; simpl in Hsrc;
      [discriminate Hsrc | |]; by injection Hsrc as <-.
Qed.

End OnATree.

(** Whatever the plan returned, each entry carries the target path
    [target_as_planned] describes. *)
Lemma plan_targets (fuel : nat) (source_root : string) (l : list Action)
    (s : Stats.t) (w w' : World) :
  plan_with_diff svc fromisoformat fuel source_root target_root filters
                 skip_identicals w = (inr (Some (l, s)), w') ->
  Forall (target_as_planned target_root) l.
Proof.
  intros H. apply plan_with_diff_loop in H as (st & Hloop & -> & _).
  apply (plan_loop_invariant svc fromisoformat target_root filters skip_identicals
           (fun st _ => Forall (target_as_planned target_root) (plan st))
           (fun _ _ => True)) in Hloop; [exact Hloop | | | constructor].
  - intros st0 src_rel q items w0 w1 HI _ _. by split.
  - intros src_rel items it st0 st1 w0 w1 _ _ HI Hstep.
    apply plan_item_step in Hstep.
    inversion Hstep; subst; simpl; try exact HI;
      apply Forall_app; split; try exact HI; by repeat constructor.
Qed.

End VaultFacts.

(** ** Runs on concrete drives *)

Section Runs.

Import MemDrive Scenario.

(** C1. On an empty target, [ensure_folder "a/b"] finds [a] missing and
    posts [a] to [root/children], then finds [a/b] missing and posts [b] to
    [root/children] as well: the call returns normally, [b] is now a child
    of the root, and [a/b] still does not exist. *)
Theorem ensure_folder_creates_in_root :
  let run := ensure_folder service "rename" "a/b" (world empty_drive ∅) in
  fst run = inr tt /\
  calls (snd run) =
    [GetTargetItem "a"; PostRootChildren "a" "rename";
     GetTargetItem "a/b"; PostRootChildren "b" "rename"] /\
  target_items (remote (snd run)) !! "a/b" = None /\
  target_items (remote (snd run)) !! "b" = Some (new_folder "b").
Proof. vm_compute. repeat split. Qed.

(** C2. For a folder [b] inside a folder [a], the plan gives the folder
    entry of [a/b] the target [b] (with no target root) or [backup/b] (with
    the target root [backup]): only the last component of the source path is
    kept. *)
Theorem nested_folder_target_loses_ancestors :
  fst (plan_with_diff service no_dates 5 "" "" no_filters false
         (world nested_drive ∅))
  = inr (Some ([folder "a" "a"; folder "a/b" "b"],
               stats_of false [folder "a" "a"; folder "a/b" "b"])) /\
  fst (plan_with_diff service no_dates 5 "" "backup" no_filters false
         (world nested_drive ∅))
  = inr (Some ([folder "a" "backup/a"; folder "a/b" "backup/b"],
               stats_of false [folder "a" "a"; folder "a/b" "b"])).
Proof. vm_compute. split; reflexivity. Qed.

(** C3. When the reader yields three bytes for a file declared as 4 MiB,
    the only chunk is answered 202 (more expected) and [upload_large]
    returns normally all the same; [execute] then counts the file as copied
    and checkpoints its id, while the target has no such file. *)
Theorem upload_large_returns_on_unfinished_session :
  fst (put_range "upload:big.bin" 0 2 (4 * 1024 * 1024) three_bytes short_drive)
  = inr 202 /\
  (let run := upload_large service "rename" "big.bin" (4 * 1024 * 1024)
                {| chunks := [three_bytes]; broken := None |}
                (world short_drive ∅) in
   fst run = inr tt /\
   calls (snd run) =
     [PostUploadSession "big.bin" "rename";
      PutChunk "upload:big.bin" 0 2 (4 * 1024 * 1024) three_bytes] /\
   target_items (remote (snd run)) !! "big.bin" = None) /\
  (let run := execute service "rename" big_plan "copy" false (Some cache_file)
                (world short_drive ∅) in
   fst run = inr (Summary.add_copied (4 * 1024 * 1024) Summary.zero) /\
   disk (snd run) !! cache_file = Some (CacheObject (Some ["big"])) /\
   target_items (remote (snd run)) !! "big.bin" = None).
Proof. vm_compute. repeat split. Qed.

End Runs.

(** ** The theorems at work on the scenarios *)

Section Witnesses.

Import MemDrive Scenario.


(** The file without a timestamp passes the date filter. *)
Lemma apply_filters_missing_timestamp_witness :
  item_lastModifiedDateTime undated = None /\
  apply_filters (fun _ => Some 0) undated since_2024
  = apply_filters (fun _ => Some 0) undated
      {| exts := exts since_2024; modified_after := None;
         min_bytes := min_bytes since_2024; max_bytes := max_bytes since_2024 |}.
Proof.
  split; [reflexivity|].
  apply (apply_filters_missing_timestamp (fun _ => Some 0) undated since_2024).
  reflexivity.
Defined.

(** Moving [same_then_one] on a source that answers DELETE with 423: the
    first file is skipped as identical and checkpointed, the second is
    downloaded and uploaded, its deletion raises, and the cache file holds
    the first id only. *)
Lemma execute_failure_preserves_cache_witness :
  let w := world half_drive ∅ in
  let skipped := [file "zero.txt" "zero.txt" 5 "zero" exists_same] in
  let processed := processed_set (read_cache (Some cache_file) (disk w)) in
  let first := execute_loop locked_service "rename" "move" true (Some cache_file)
                 processed skipped
                 (Summary.zero, read_cache (Some cache_file) (disk w)) w in
  let moved := transfer_file locked_service "rename" "one.txt" 3 "one" (snd first) in
  let run := execute locked_service "rename" same_then_one "move" true
               (Some cache_file) w in
  first = (inr (Summary.add_skipped_identical Summary.zero, Some ["zero"]), snd first) /\
  moved = (inr tt, snd moved) /\
  fst (gdelete locked_service "one" (snd moved)) = inl (RuntimeError "DELETE failed") /\
  fst run = inl (RuntimeError "DELETE failed") /\
  disk (snd run) !! cache_file = Some (CacheObject (Some ["zero"])) /\
  ~ In "one" (get_processed_ids (read_cache (Some cache_file) (disk (snd run)))).
Proof.
  intros w skipped processed first moved run.
  assert (first = (inr (Summary.add_skipped_identical Summary.zero, Some ["zero"]),
                   snd first)) as Hfirst by (vm_compute; reflexivity).
  assert (moved = (inr tt, snd moved)) as Hmoved by (vm_compute; reflexivity).
  assert (fst (gdelete locked_service "one" (snd moved))
          = inl (RuntimeError "DELETE failed")) as Hdel by (vm_compute; reflexivity).
  destruct (execute_failure_preserves_cache locked_service "rename" skipped []
              "one.txt" "one.txt" "one" 3 not_present "move" true
              (Some cache_file) w (snd first) _ (RuntimeError "DELETE failed")
              Hfirst eq_refl
              (or_intror (ex_intro _ (snd moved) (conj Hmoved (conj eq_refl Hdel)))))
    as (Hraise & Hfile & _ & Hid).
  split; [exact Hfirst|]. split; [exact Hmoved|]. split; [exact Hdel|].
  split; [exact Hraise|]. split.
  - etrans; [exact (Hfile cache_file eq_refl eq_refl) | vm_compute; reflexivity].
  - intros Hin. apply Hid in Hin. vm_compute in Hin.
    destruct Hin as [Heq|[]]. discriminate Heq.
Defined.

(** After the run of [two_files] that completed its first file, a second
    run does nothing for that file. *)
Lemma completed_files_are_not_redone_witness :
  let w := world half_drive ∅ in
  let done := [file "one.txt" "one.txt" 3 "one" not_present] in
  let rest := [file "two.txt" "two.txt" 3 "two" not_present] in
  let first :=
    execute_loop service "rename" "copy" false (Some cache_file)
      (processed_set (read_cache (Some cache_file) (disk w))) done
      (Summary.zero, read_cache (Some cache_file) (disk w)) w in
  let w2 := snd (execute service "rename" (done ++ rest) "copy" false
                   (Some cache_file) w) in
  Text.truthy cache_file = true /\
  first = (inr (Summary.add_copied 3 Summary.zero, Some ["one"]), snd first) /\
  Some ["one"]
  = extend_cache (read_cache (Some cache_file) (disk w))
      (committed (processed_set (read_cache (Some cache_file) (disk w))) done) /\
  read_cache (Some cache_file) (disk (snd first)) = Some ["one"] /\
  forall a, In a done -> is_file a = true ->
    already_done (processed_set (read_cache (Some cache_file) (disk w2))) a = true /\
    forall mode2 skip2 st2 w',
      execute_action service "rename" mode2 skip2 (Some cache_file)
        (processed_set (read_cache (Some cache_file) (disk w2))) st2 a w'
      = (inr st2, w').
Proof.
  intros w done rest first w2.
  assert (first = (inr (Summary.add_copied 3 Summary.zero, Some ["one"]), snd first))
    as Hfirst by (vm_compute; reflexivity).
  split; [reflexivity|]. split; [exact Hfirst|].
  exact (completed_files_are_not_redone service "rename" done rest "copy" false
           cache_file w (snd first) w2 _ eq_refl Hfirst eq_refl).
Defined.

(** A file whose id the cache file holds is skipped, also in move mode and
    with the status [exists_different]. *)
Lemma cached_id_is_skipped_witness :
  let w := world half_drive seen_one in
  let processed := processed_set (read_cache (Some cache_file) (disk w)) in
  "one" ∈ processed /\
  (forall st w1,
      execute_action service "rename" "move" true (Some cache_file) processed st
        (file "one.txt" "one.txt" 3 "one" exists_different) w1 = (inr st, w1)) /\
  execute service "rename"
    ([skip_vault "v"] ++ file "one.txt" "one.txt" 3 "one" exists_different :: [])
    "move" true (Some cache_file) w
  = execute service "rename" ([skip_vault "v"] ++ []) "move" true (Some cache_file) w.
Proof.
  intros w processed.
  assert ("one" ∈ processed) as Hin
    by (apply (bool_decide_unpack _); vm_compute; exact I).
  split; [exact Hin|].
  exact (cached_id_is_skipped service "rename" [skip_vault "v"] []
           "one.txt" "one.txt" 3 "one" exists_different "move" true
           (Some cache_file) w Hin).
Defined.

(** The plan of [vault_drive] and its statistics. *)
Lemma plan_stats_match_plan_witness :
  let run := plan_with_diff service no_dates 5 "" "" no_filters true
               (world vault_drive ∅) in
  let l := [folder "docs" "docs";
            file "docs/a.txt" "docs/a.txt" 10240 "file:a.txt" not_present;
            skip_vault "docs/Vault";
            file "docs/b.txt" "docs/b.txt" 5 "file:b.txt" exists_same;
            file "docs/c.txt" "docs/c.txt" 7 "file:c.txt" exists_different] in
  let s := Stats.Build_t 1 3 10252 1 1 1 1 in
  run = (inr (Some (l, s)), snd run) /\ s = stats_of true l.
Proof.
  intros run l s.
  assert (run = (inr (Some (l, s)), snd run)) as Hrun by (vm_compute; reflexivity).
  split; [exact Hrun|].
  exact (plan_stats_match_plan service no_dates "" no_filters true 5 "" l s
           (world vault_drive ∅) (snd run) Hrun).
Defined.

(** The names of [vault_tree] are well formed. *)
Lemma vault_children_well_named : well_named vault_children.
Proof.
  intros q it Hin. unfold vault_children, vault_tree in *.
  destruct (decide (q = "")) as [->|H0].
  { rewrite lookup_insert_eq in *. simpl in *.
    destruct Hin as [<-|[]]. repeat split; [done|].
    intros it' [<-|[]] _. reflexivity. }
  rewrite lookup_insert_ne in * by done.
  destruct (decide (q = "docs")) as [->|H1].
  { rewrite lookup_insert_eq in *. simpl in *.
    destruct Hin as [<-|[<-|[<-|[<-|[]]]]]; (repeat split; [done|]);
      intros it' [<-|[<-|[<-|[<-|[]]]]] Hname; try reflexivity;
      discriminate Hname. }
  rewrite lookup_insert_ne in * by done.
  destruct (decide (q = "docs/Vault")) as [->|H2].
  { rewrite lookup_insert_eq in *. simpl in *.
    destruct Hin as [<-|[]]. repeat split; [done|].
    intros it' [<-|[]] _. reflexivity. }
  rewrite lookup_insert_ne in * by done.
  rewrite lookup_empty in Hin. destruct Hin.
Qed.

(** The plan of [vault_drive] keeps the vault rule. *)
Lemma vaults_stay_out_of_plans_witness :
  let w := world vault_drive ∅ in
  let run := plan_with_diff service no_dates 5 "" "" no_filters true w in
  let l := [folder "docs" "docs";
            file "docs/a.txt" "docs/a.txt" 10240 "file:a.txt" not_present;
            skip_vault "docs/Vault";
            file "docs/b.txt" "docs/b.txt" 5 "file:b.txt" exists_same;
            file "docs/c.txt" "docs/c.txt" 7 "file:c.txt" exists_different] in
  let s := Stats.Build_t 1 3 10252 1 1 1 1 in
  run = (inr (Some (l, s)), snd run) /\
  Forall (vault_rule vault_children "") l /\
  extends (planner_call vault_children "") w (snd run) /\
  (forall src_rel st it (w0 : World),
      is_vault it = true ->
      plan_item service no_dates "" no_filters true src_rel st it w0
      = (inr {| plan := plan st ++ [skip_vault (child_path src_rel (item_name it))];
                stats := Stats.add_skipped_vault (stats st);
                queue := queue st; tcache := tcache st |}, w0)) /\
  (well_named vault_children ->
   forall a src v,
     In a l -> planned_source a = Some src ->
     vault_met vault_children "" v -> ~ beneath v src).
Proof.
  intros w run l s.
  assert (run = (inr (Some (l, s)), snd run)) as Hrun by (vm_compute; reflexivity).
  split; [exact Hrun|].
  apply (vaults_stay_out_of_plans service no_dates "" no_filters true
           vault_children "" (fun r => source_children r = vault_tree))
    with (fuel := 5%nat) (s := s).
  - intros p r res r' Hr H. injection H as <- <-. split; [exact Hr|].
    intros items Hres. injection Hres as <-.
    unfold vault_children. by rewrite Hr.
  - intros p r res r' Hr H. injection H as <- <-. exact Hr.
  - reflexivity.
  - exact Hrun.
Defined.

End Witnesses.

(** ** [gget]: retries, waits and what comes back *)

Section HttpFacts.

Import Http.

Variable replies : nat -> exn + Response.

Lemma raise_for_status_passes (r : Response) :
  transient r = false -> raise_for_status r = None -> status_code r < 400.
Proof.
  unfold transient, raise_for_status. intros Ht Hr.
  apply orb_false_iff in Ht as [_ H500]. apply Z.leb_gt in H500.
  destruct (400 <=? status_code r) eqn:H400; [|by apply Z.leb_gt in H400].
  destruct (status_code r <? 600) eqn:H600; [discriminate Hr|].
  apply Z.ltb_ge in H600. lia.
Qed.

Lemma gget_loop_returned (i todo : nat) (last : option Response) (waits : list Z)
    (r : Response) :
  outcome (gget_loop replies i todo last waits) = inr (Some r) ->
  (status_code r = 404 \/ status_code r < 400) /\
  exists j, (i <= j < i + todo)%nat /\ replies j = inr r /\
            sent (gget_loop replies i todo last waits) = S j.
Proof.
  revert i last waits. induction todo as [|todo IH]; intros i last waits; simpl.
  - destruct last as [l|]; [destruct (raise_for_status l)|]; discriminate.
  - destruct (replies i) as [e|r0] eqn:Hi; [discriminate|].
    destruct (transient r0) eqn:Ht.
    + destruct (wait_of r0 i) as [t|]; [|discriminate].
      destruct (t <? 0); [discriminate|].
      intros H. destruct (IH _ _ _ H) as (Hu & j & Hj & Hr & Hs).
      split; [exact Hu|]. exists j. repeat split; [lia | lia | exact Hr | exact Hs].
    + destruct (status_code r0 =? 404) eqn:H404.
      * simpl. intros [= <-]. split; [left; by apply Z.eqb_eq|].
        exists i. repeat split; [lia | lia | exact Hi].
      * destruct (raise_for_status r0) eqn:Hr; simpl; [discriminate|].
        intros [= <-]. split; [right; by apply raise_for_status_passes|].
        exists i. repeat split; [lia | lia | exact Hi].
Qed.

(** X1. A reply [gget] returns is one the server really gave within the
    [retry] attempts, and its status is 404 or below 400: a throttled (429)
    or failed (other 4xx, 5xx) reply is never handed to the caller. *)
Theorem gget_returns_only_usable (retry : nat) (r : Response) :
  outcome (gget replies retry) = inr (Some r) ->
  (status_code r = 404 \/ status_code r < 400) /\
  exists j, (j < retry)%nat /\ replies j = inr r /\
            sent (gget replies retry) = S j.
Proof.
  intros H. apply gget_loop_returned in H as (Hu & j & Hj & Hr & Hs).
  split; [exact Hu|]. exists j. repeat split; [lia | exact Hr | exact Hs].
Qed.

Lemma gget_loop_bound (i todo : nat) (last : option Response) (waits : list Z) :
  (forall j, (j < i)%nat -> exists r, replies j = inr r /\ transient r = true) ->
  (i <= sent (gget_loop replies i todo last waits) <= i + todo)%nat /\
  forall j, (S j < sent (gget_loop replies i todo last waits))%nat ->
            exists r, replies j = inr r /\ transient r = true.
Proof.
  revert i last waits. induction todo as [|todo IH]; intros i last waits Hbefore; simpl.
  - assert (forall o, (i <= sent {| outcome := o; sent := i; slept := waits |} <= i + 0)%nat)
      as Hs by (intros; simpl; lia).
    destruct last as [l|]; [destruct (raise_for_status l)|];
      (split; [simpl; lia | intros j Hj; apply Hbefore; simpl in Hj; lia]).
  - assert (forall j, (S j < S i)%nat ->
                      exists r, replies j = inr r /\ transient r = true) as Hstop
      by (intros j Hj; apply Hbefore; lia).
    destruct (replies i) as [e|r0] eqn:Hi; [split; [simpl; lia | exact Hstop]|].
    destruct (transient r0) eqn:Ht.
    + destruct (wait_of r0 i) as [t|]; [|split; [simpl; lia | exact Hstop]].
      destruct (t <? 0); [split; [simpl; lia | exact Hstop]|].
      destruct (IH (S i) (Some r0) (waits ++ [t])) as [Hs Hj].
      { intros j Hj. destruct (decide (j = i)) as [->|]; [by exists r0|].
        apply Hbefore. lia. }
      split; [lia | exact Hj].
    + destruct (status_code r0 =? 404); [split; [simpl; lia | exact Hstop]|].
      destruct (raise_for_status r0); (split; [simpl; lia | exact Hstop]).
Qed.

(** X2. [gget] sends at most [retry] requests, and it sends another one
    only after a reply of status 429 or 500 and more: every request before
    the last was answered that way. With [retry = 0] nothing is sent and
    reading the reply raises [UnboundLocalError]. *)
Theorem gget_retries_only_transient (retry : nat) :
  (sent (gget replies retry) <= retry)%nat /\
  (forall j, (S j < sent (gget replies retry))%nat ->
             exists r, replies j = inr r /\ transient r = true) /\
  gget replies 0 = {| outcome := inl UnboundLocalError; sent := 0; slept := [] |}.
Proof.
  destruct (gget_loop_bound 0 retry None []) as [Hs Hj]; [intros j Hj; lia|].
  split; [unfold gget; lia|]. split; [exact Hj | reflexivity].
Qed.

Lemma gget_loop_waits (i todo : nat) (last : option Response) (waits : list Z) :
  length waits = i ->
  (forall j t, waits !! j = Some t ->
               exists r, replies j = inr r /\ wait_of r j = Some t /\ 0 <= t) ->
  forall j t, slept (gget_loop replies i todo last waits) !! j = Some t ->
              exists r, replies j = inr r /\ wait_of r j = Some t /\ 0 <= t.
Proof.
  revert i last waits. induction todo as [|todo IH]; intros i last waits Hlen Hw; simpl.
  - destruct last as [l|]; [destruct (raise_for_status l)|]; exact Hw.
  - destruct (replies i) as [e|r0] eqn:Hi; [exact Hw|].
    destruct (transient r0).
    + destruct (wait_of r0 i) as [t0|] eqn:Hwait; [|exact Hw].
      destruct (t0 <? 0) eqn:Hneg; [exact Hw|]. apply Z.ltb_ge in Hneg.
      apply IH; [rewrite length_app; simpl; lia|].
      intros j t Hj. apply lookup_app_Some in Hj as [Hj | [Hge Hj]]; [by apply Hw|].
      rewrite Hlen in Hj, Hge.
      destruct (j - i)%nat as [|k] eqn:Hk; [|by destruct k].
      injection Hj as <-. assert (j = i) as -> by lia. by exists r0.
    + destruct (status_code r0 =? 404); [exact Hw|].
      destruct (raise_for_status r0); exact Hw.
Qed.

(** X3. The [j]-th wait of [gget] follows the [j]-th reply: it is that
    reply's [Retry-After] when the status was 429 (one second without the
    header) and [2^j] seconds when it was a server error; no wait is
    negative. *)
Theorem gget_waits_follow_replies (retry : nat) (j : nat) (t : Z) :
  slept (gget replies retry) !! j = Some t ->
  exists r, replies j = inr r /\ wait_of r j = Some t /\ 0 <= t.
Proof.
  apply gget_loop_waits; [reflexivity|]. intros k u Hk. discriminate Hk.
Qed.

Lemma sum_powers (n : nat) :
  fold_right Z.add 0 (List.map (fun i => 2 ^ Z.of_nat i) (seq 0 n)) = 2 ^ Z.of_nat n - 1.
Proof.
  induction n as [|n IH]; [reflexivity|].
  rewrite seq_S, List.map_app, fold_right_app. simpl.
  assert (forall l a, fold_right Z.add a l = fold_right Z.add 0 l + a) as Hshift.
  { induction l as [|x l IHl]; intros a; simpl; [lia|]. rewrite IHl. lia. }
  rewrite Hshift, IH, Nat2Z.inj_succ, Z.pow_succ_r by lia. lia.
Qed.

Lemma gget_loop_exhausted (i todo : nat) (last : option Response) (waits : list Z) :
  (forall j, (i <= j < i + todo)%nat ->
             exists r, replies j = inr r /\ 500 <= status_code r < 600) ->
  exists final,
    (match todo with
     | O => final = last
     | S k => exists r, replies (i + k)%nat = inr r /\ final = Some r
     end) /\
    gget_loop replies i todo last waits
    = gget_loop replies (i + todo) 0 final
        (waits ++ List.map (fun i => 2 ^ Z.of_nat i) (seq i todo)).
Proof.
  revert i last waits. induction todo as [|todo IH]; intros i last waits Hall.
  - exists last. split; [done|]. by rewrite Nat.add_0_r, app_nil_r.
  - destruct (Hall i) as (r0 & Hi & Hlo & Hhi); [lia|].
    destruct (IH (S i) (Some r0) (waits ++ [2 ^ Z.of_nat i])) as (final & Hfinal & Hrun).
    { intros j Hj. apply Hall. lia. }
    exists final. split.
    + destruct todo as [|k].
      * exists r0. rewrite Nat.add_0_r. by subst final.
      * destruct Hfinal as (r & Hr & ->). exists r.
        split; [|done]. by replace (i + S k)%nat with (S i + k)%nat by lia.
    + simpl gget_loop at 1. rewrite Hi.
      assert (transient r0 = true) as ->.
      { unfold transient. apply orb_true_iff. right. apply Z.leb_le. lia. }
      assert (wait_of r0 i = Some (2 ^ Z.of_nat i)) as ->.
      { unfold wait_of. destruct (status_code r0 =? 429) eqn:E; [|done].
        apply Z.eqb_eq in E. lia. }
      assert ((2 ^ Z.of_nat i <? 0) = false) as ->
        by (apply Z.ltb_ge, Z.pow_nonneg; lia).
      rewrite Hrun. simpl seq. simpl List.map. rewrite <- app_assoc.
      by replace (S i + todo)%nat with (i + S todo)%nat by lia.
Qed.

(** X4. When every one of the [retry] (at least one) attempts is answered
    with a server error (500 to 599), [gget] sends exactly [retry] requests,
    sleeps 1, 2, 4, ... seconds after them ([2^retry - 1] in all, the last
    wait included) and raises the [HTTPError] of the last reply. *)
Theorem gget_gives_up_after_retries (retry : nat) :
  (0 < retry)%nat ->
  (forall j, (j < retry)%nat ->
             exists r, replies j = inr r /\ 500 <= status_code r < 600) ->
  exists r,
    replies (retry - 1)%nat = inr r /\
    gget replies retry
    = {| outcome := inl (Exn (HTTPError (status_code r)));
         sent := retry;
         slept := List.map (fun i => 2 ^ Z.of_nat i) (seq 0 retry) |} /\
    fold_right Z.add 0 (slept (gget replies retry)) = 2 ^ Z.of_nat retry - 1.
Proof.
  intros Hpos Hall.
  destruct (gget_loop_exhausted 0 retry None []) as (final & Hfinal & Hrun).
  { intros j Hj. apply Hall. lia. }
  destruct retry as [|k]; [lia|]. destruct Hfinal as (r & Hr & ->).
  simpl in Hr. exists r. replace (S k - 1)%nat with k by lia. split; [exact Hr|].
  destruct (Hall k) as (r' & Hr' & Hlo & Hhi); [lia|].
  assert (r' = r) as -> by congruence.
  assert (gget replies (S k)
          = {| outcome := inl (Exn (HTTPError (status_code r)));
               sent := S k;
               slept := List.map (fun i => 2 ^ Z.of_nat i) (seq 0 (S k)) |}) as Heq.
  { unfold gget. rewrite Hrun. cbn [gget_loop]. unfold raise_for_status.
    assert ((400 <=? status_code r) = true) as -> by (apply Z.leb_le; lia).
    assert ((status_code r <? 600) = true) as -> by (apply Z.ltb_lt; lia).
    reflexivity. }
  split; [exact Heq|]. rewrite Heq. cbn [slept]. apply sum_powers.
Qed.

End HttpFacts.

(** ** [list_children]: following the pages *)

Section PagingFacts.

Import Paging.

Variable fetch : string -> exn + Page.

Lemma list_children_loop_linked (pages : list (list Item)) (fuel : nat)
    (url : string) (items : list Item) :
  linked fetch url pages -> (length pages <= fuel)%nat ->
  list_children_loop fuel fetch url items = Some (inr (items ++ concat pages)).
Proof.
  revert fuel url items. induction pages as [|v rest IH]; intros fuel url items Hl Hf;
    [destruct Hl|].
  destruct fuel as [|fuel]; [simpl in Hf; lia|].
  destruct rest as [|v' rest'].
  - destruct Hl as (r & Hr & Hs & Hv & Hn). simpl. rewrite Hr, Hs, Hv. simpl.
    rewrite app_nil_r. destruct (nextLink r) as [n|]; [by rewrite Hn | done].
  - destruct Hl as (r & next & Hr & Hs & Hv & Hn & Ht & Hrest).
    cbn [list_children_loop]. rewrite Hr, Hs, Hv, Hn.
    change (200 =? 200) with true. cbv iota. rewrite Ht.
    rewrite (IH fuel next); [|exact Hrest|simpl in *; lia].
    simpl. by rewrite <- app_assoc.
Qed.

(** X5. When the pages of a folder are linked one to the next, each
    answered 200, [list_children] follows every link and returns the items
    of all pages, in page order, as soon as [fuel] covers the number of
    pages. *)
Theorem list_children_follows_links (pages : list (list Item)) (fuel : nat)
    (item_path : string) :
  linked fetch (children_url item_path) pages -> (length pages <= fuel)%nat ->
  list_children fuel fetch item_path = Some (inr (concat pages)).
Proof.
  intros Hl Hf. unfold list_children. by rewrite (list_children_loop_linked pages).
Qed.

(** X6. A page answered with any status other than 200 (the 404 of a path
    that is not there, for one) adds no item and ends the listing without an
    error, whatever its body and links say: the items read so far are
    returned, so a folder that does not exist lists as empty. *)
Theorem list_children_stops_at_failed_page (fuel : nat) (url : string)
    (items : list Item) (r : Page) :
  fetch url = inr r -> page_status r <> 200 ->
  list_children_loop (S fuel) fetch url items = Some (inr items).
Proof.
  intros Hr Hs. apply Z.eqb_neq in Hs.
  simpl. rewrite Hr, Hs. by rewrite app_nil_r.
Qed.

(** X7. [list_children] has no guard against links that never end: when
    every page reached is answered 200 and names a next page, no number of
    pages read makes it return. *)
Theorem list_children_never_leaves_a_cycle (reached : string -> Prop)
    (fuel : nat) (url : string) (items : list Item) :
  (forall u, reached u ->
     exists r next, fetch u = inr r /\ page_status r = 200 /\
                    nextLink r = Some next /\ Text.truthy next = true /\
                    reached next) ->
  reached url ->
  list_children_loop fuel fetch url items = None.
Proof.
  intros Hcycle. revert url items.
  induction fuel as [|fuel IH]; intros url items Hu; [reflexivity|].
  destruct (Hcycle url Hu) as (r & next & Hr & Hs & Hn & Ht & Hnext).
  cbn [list_children_loop]. rewrite Hr, Hs, Hn.
  change (200 =? 200) with true. cbv iota. rewrite Ht. by apply IH.
Qed.

End PagingFacts.

(** ** The extension list of the command line *)

Section CliFacts.

Import Cli.

Lemma lstrip_head (s : string) (c : ascii) (t : string) :
  lstrip s = String c t -> is_space c = false.
Proof.
  induction s as [|a s IH]; simpl; [discriminate|].
  destruct (is_space a) eqn:Ha; [exact IH|]. intros [= <- _]. exact Ha.
Qed.

Lemma rstrip_head (c : ascii) (s : string) :
  is_space c = false -> exists t, rstrip (String c s) = String c t.
Proof.
  intros Hc. simpl. destruct (rstrip s) as [|d t]; [rewrite Hc|]; eauto.
Qed.

Lemma rstrip_idempotent (s : string) : rstrip (rstrip s) = rstrip s.
Proof.
  induction s as [|c s IH]; [reflexivity|]. simpl.
  destruct (rstrip s) as [|d t] eqn:Hr.
  - destruct (is_space c) eqn:Hc; [reflexivity|]. simpl. by rewrite Hc.
  - change (rstrip (String c (String d t))) with
      (match rstrip (String d t) with
       | EmptyString => if is_space c then EmptyString else String c EmptyString
       | u => String c u
       end).
    by rewrite IH.
Qed.

Lemma strip_idempotent (s : string) : strip (strip s) = strip s.
Proof.
  unfold strip. destruct (lstrip s) as [|c t] eqn:Hl; [reflexivity|].
  apply lstrip_head in Hl.
  destruct (rstrip_head c t Hl) as [u Hu]. rewrite Hu.
  assert (lstrip (String c u) = String c u) as -> by (simpl; by rewrite Hl).
  by rewrite <- Hu, rstrip_idempotent.
Qed.

(** X8. Whatever is typed after [--exts], every extension [parse_filters]
    keeps is non-empty and free of surrounding white space: empty fields
    (as in ["a,,b"] or a trailing comma) are dropped, so no configured
    extension is the empty suffix that every name ends with. *)
Theorem parsed_extensions_are_clean (Megabytes : Type) (to_bytes : Megabytes -> Z)
    (strptime : string -> option Z) (args : Args Megabytes) (l : list string) :
  exts (parse_filters Megabytes to_bytes strptime args) = Some l ->
  Forall (fun e => e <> ""%string /\ strip e = e) l.
Proof.
  simpl. unfold parse_exts. destruct (arg_exts Megabytes args) as [s|]; [|discriminate].
  destruct (Text.truthy s); [|discriminate]. intros [= <-].
  apply List.Forall_forall. intros e He.
  apply List.filter_In in He as [He Ht]. apply List.in_map_iff in He as (x & <- & _).
  split; [by destruct (strip x) | apply strip_idempotent].
Qed.

End CliFacts.

(** ** The planner, request by request *)

Section PlannerRequests.

Context {R : Type} (svc : Service R).

Variable fromisoformat : string -> option Z.
Variable target_root : string.
Variable filters : Filters.
Variable skip_identicals : bool.

(** What a lookup did: it found the path in the memo and sent nothing, or
    it asked the service once and remembered the answer. *)
Lemma target_lookup_cases (rel_path : string) (cache cache' : gmap string (option Item))
    (j : option Item) (w w' : World) :
  target_lookup svc rel_path cache w = (inr (j, cache'), w') ->
  (cache !! rel_path = Some j /\ cache' = cache /\ w' = w) \/
  (cache !! rel_path = None /\
   lookup_target svc rel_path (remote w) = (inr j, remote w') /\
   calls w' = calls w ++ [LookupTarget rel_path] /\ disk w' = disk w /\
   cache' = <[rel_path := j]> cache).
Proof.
  unfold target_lookup. destruct (cache !! rel_path) as [known|] eqn:Hc.
  - intros [= <- <- <-]. by left.
  - intros H. right. apply bind_inr in H as (j' & w1 & Hreq & H).
    injection H as <- <- <-. unfold gget, request in Hreq.
    destruct (lookup_target svc rel_path (remote w)) as [res r'] eqn:Hsvc.
    injection Hreq as -> <-. by repeat split.
Qed.

(** X9. [target_lookup] asks the service at most once per path: what it
    answered is kept under the path, what was kept before stays, and a
    second lookup of the path returns the same answer (also the absence a
    404 stood for) without any request, whatever the target holds by then. *)
Theorem target_lookup_is_memoised (rel_path : string)
    (cache cache' : gmap string (option Item)) (j : option Item) (w w' : World) :
  target_lookup svc rel_path cache w = (inr (j, cache'), w') ->
  cache' !! rel_path = Some j /\
  (forall p v, cache !! p = Some v -> cache' !! p = Some v) /\
  forall w2 : World, target_lookup svc rel_path cache' w2 = (inr (j, cache'), w2).
Proof.
  intros H.
  assert (cache' !! rel_path = Some j) as Hkept.
  { apply target_lookup_cases in H as [(Hc & -> & _) | (_ & _ & _ & _ & ->)];
      [exact Hc | apply lookup_insert_eq]. }
  split; [exact Hkept|]. split.
  - apply target_lookup_cases in H as [(_ & -> & _) | (Hc & _ & _ & _ & ->)];
      intros p v Hp; [exact Hp|].
    rewrite lookup_insert_ne; [exact Hp | congruence].
  - intros w2. unfold target_lookup. by rewrite Hkept.
Qed.

(** The four things [plan_item] can do, with what each leaves. *)
Lemma plan_item_cases (src_rel : string) (st st' : PlanState) (it : Item)
    (w w' : World) :
  plan_item svc fromisoformat target_root filters skip_identicals src_rel st it w
    = (inr st', w') ->
  (w' = w /\ tcache st' = tcache st /\
   (plan st' = plan st \/
    exists a, plan st' = plan st ++ [a] /\ is_file a = false /\
              entry_of fromisoformat filters src_rel it a)) \/
  (exists j status,
     let rel_src := child_path src_rel (item_name it) in
     let a := file rel_src (file_target target_root rel_src) (size_of it)
                   (item_id it) status in
     target_lookup svc (file_target target_root rel_src) (tcache st) w
       = (inr (j, tcache st'), w') /\
     status = classify j (size_of it) /\
     plan st' = plan st ++ [a] /\
     entry_of fromisoformat filters src_rel it a).
Proof.
  unfold plan_item. intros H.
  destruct (is_vault it) eqn:Hv.
  { injection H as <- <-. left. repeat split. right. eexists. by repeat split. }
  destruct (item_folder it) eqn:Hf.
  { injection H as <- <-. left. repeat split. right. eexists. by repeat split. }
  destruct (apply_filters fromisoformat it filters) eqn:Ha; simpl in H.
  2: { injection H as <- <-. left. repeat split. by left. }
  right. apply bind_inr in H as ([j tc] & w1 & Hlook & H).
  exists j, (classify j (size_of it)). simpl.
  destruct j as [t|]; simpl in *.
  - destruct (size_of t =? size_of it); injection H as <- <-; by repeat split.
  - injection H as <- <-. by repeat split.
Qed.

End PlannerRequests.

(** ** Plans: what they hold and what building them costs *)

Section PlanFacts.

Context {R : Type} (svc : Service R).

Variable fromisoformat : string -> option Z.
Variable target_root : string.
Variable filters : Filters.
Variable skip_identicals : bool.

Lemma plan_item_effect (Q : World (R:=R) -> World (R:=R) -> Prop) `{!PreOrder Q}
    (src_rel : string) (st : PlanState) (it : Item) :
  (forall p, effect Q (gget (LookupTarget p) (lookup_target svc p))) ->
  effect Q (plan_item svc fromisoformat target_root filters skip_identicals
              src_rel st it).
Proof.
  intros Hreq. unfold plan_item.
  destruct (is_vault it); [apply effect_ret, _|].
  destruct (item_folder it); [apply effect_ret, _|].
  destruct (apply_filters fromisoformat it filters); simpl; [|apply effect_ret, _].
  apply effect_bind; [apply _ | |].
  - unfold target_lookup. destruct (tcache st !! _); [apply effect_ret, _|].
    apply effect_bind; [apply _ | apply Hreq | intros j; apply effect_ret, _].
  - intros [tgt tc]. destruct tgt as [t|]; [|apply effect_ret, _].
    destruct (size_of t =? size_of it); apply effect_ret, _.
Qed.

Lemma plan_loop_effect (Q : World (R:=R) -> World (R:=R) -> Prop) `{!PreOrder Q}
    (fuel : nat) (st : PlanState) :
  (forall p, effect Q (gget (LookupTarget p) (lookup_target svc p))) ->
  (forall p, effect Q (list_children svc p)) ->
  effect Q (plan_loop svc fromisoformat fuel target_root filters skip_identicals st).
Proof.
  intros Hlook Hlist. revert st. induction fuel as [|fuel IH]; intros st; simpl.
  - destruct (pop (queue st)) as [[src_rel q]|]; apply effect_ret, _.
  - destruct (pop (queue st)) as [[src_rel q]|]; [|apply effect_ret, _].
    apply effect_bind; [apply _ | apply Hlist |]. intros items.
    apply effect_bind; [apply _ | | intros st1; apply IH].
    generalize {| plan := plan st; stats := stats st; queue := q; tcache := tcache st |}.
    induction items as [|it items IHi]; intros st0; simpl; [apply effect_ret, _|].
    apply effect_bind; [apply _ | by apply plan_item_effect | intros st1; apply IHi].
Qed.

(** X10. Building a plan only reads: whatever the tree, the filters and
    the outcome (a plan, an exception, or the bound on iterations reached),
    [plan_with_diff] sends nothing but listings of the source and lookups on
    the target, and leaves the local disk as it was. *)
Theorem planning_only_reads (fuel : nat) (source_root : string) (w : World) :
  let run := plan_with_diff svc fromisoformat fuel source_root target_root
               filters skip_identicals w in
  extends read_call w (snd run) /\ disk (snd run) = disk w.
Proof.
  assert (forall Q : World (R:=R) -> World (R:=R) -> Prop, PreOrder Q ->
            (forall p, effect Q (gget (LookupTarget p) (lookup_target svc p))) ->
            (forall p, effect Q (list_children svc p)) ->
            effect Q (plan_with_diff svc fromisoformat fuel source_root target_root
                        filters skip_identicals)) as Hplan.
  { intros Q HQ Hlook Hlist. unfold plan_with_diff.
    apply effect_bind; [exact HQ | by apply plan_loop_effect |].
    intros r. by apply effect_ret. }
  split.
  - apply (Hplan (extends read_call)); [apply _ | |];
      intros p; by apply request_extends.
  - apply (Hplan same_disk); [apply _ | |]; intros p; apply request_same_disk.
Qed.

Lemma lookup_paths_app (a b : list Call) :
  lookup_paths (a ++ b) = lookup_paths a ++ lookup_paths b.
Proof. unfold lookup_paths. apply flat_map_app. Qed.

(** X11. While a plan is built no target path is looked up twice: the
    lookups sent are pairwise distinct, each file's diff costing at most one
    request. *)
Theorem planner_looks_up_each_path_once (fuel : nat) (source_root : string)
    (l : list Action) (s : Stats.t) (w w' : World) :
  plan_with_diff svc fromisoformat fuel source_root target_root filters
                 skip_identicals w = (inr (Some (l, s)), w') ->
  exists delta, calls w' = calls w ++ delta /\ List.NoDup (lookup_paths delta).
Proof.
  intros H. apply plan_with_diff_loop in H as (st & Hloop & _ & _).
  apply (plan_loop_invariant svc fromisoformat target_root filters skip_identicals
           (fun st w1 =>
              exists delta, calls w1 = calls w ++ delta /\
                            List.NoDup (lookup_paths delta) /\
                            forall p, In p (lookup_paths delta) ->
                                      is_Some (tcache st !! p))
           (fun _ _ => True)) in Hloop.
  - destruct Hloop as (delta & Hc & Hn & _). by exists delta.
  - intros st0 src_rel q items w0 w1 (delta & Hc & Hn & Hin) _ Hlist.
    split; [done|]. apply list_children_run in Hlist as [Hcalls _].
    exists (delta ++ [ListSourceChildren src_rel]). simpl.
    rewrite lookup_paths_app, app_nil_r.
    split; [by rewrite Hcalls, Hc, app_assoc | by split].
  - intros src_rel items it st0 st1 w0 w1 _ _ (delta & Hc & Hn & Hin) Hitem.
    apply plan_item_cases in Hitem
      as [(-> & -> & _) | (j & status & Hlook & _)]; [by exists delta|].
    apply target_lookup_cases in Hlook
      as [(_ & -> & ->) | (Hnone & _ & Hcalls & _ & ->)]; [by exists delta|].
    exists (delta ++ [LookupTarget (file_target target_root
                                      (child_path src_rel (item_name it)))]).
    rewrite lookup_paths_app. simpl.
    split; [by rewrite Hcalls, Hc, app_assoc|]. split.
    + apply List.NoDup_app; [exact Hn | repeat constructor; intros [] |].
      intros p Hold [<- | []].
      apply Hin in Hold. rewrite Hnone in Hold. by destruct Hold.
    + intros p Hp. apply in_app_or in Hp as [Hp | [<- | []]].
      * destruct (decide (p = file_target target_root
                                (child_path src_rel (item_name it)))) as [->|Hne];
          [by rewrite lookup_insert_eq|].
        rewrite lookup_insert_ne by done. by apply Hin.
      * by rewrite lookup_insert_eq.
  - exists []. rewrite app_nil_r. repeat split; [constructor | intros p []].
Qed.

End PlanFacts.

(** ** Plans against a target and a tree that stay as they are *)

Section SnapshotFacts.

Context {R : Type} (svc : Service R).

Variable fromisoformat : string -> option Z.
Variable target_root : string.
Variable filters : Filters.
Variable skip_identicals : bool.

Section OnATarget.

(** What the target holds at each path, in the states [steady] describes:
    a lookup that is answered answers with it, and neither lookups nor
    listings leave those states. *)
Variable tgt : string -> option Item.
Variable steady : R -> Prop.

Hypothesis lookup_of_target :
  forall p r res r',
    steady r -> lookup_target svc p r = (res, r') ->
    steady r' /\ forall j, res = inr j -> j = tgt p.

Hypothesis listing_keeps_target :
  forall p r res r',
    steady r -> list_source_children svc p r = (res, r') -> steady r'.

(** X13. Against a target that does not change while the plan is built,
    every file entry carries the right diff status: [not_present] when the
    target has nothing at the file's target path, [exists_same] when it has
    an item of the same size there, [exists_different] otherwise. The memo
    of lookups does not blur this. *)
Theorem plan_statuses_match_target (fuel : nat) (source_root : string)
    (l : list Action) (s : Stats.t) (w w' : World) :
  steady (remote w) ->
  plan_with_diff svc fromisoformat fuel source_root target_root filters
                 skip_identicals w = (inr (Some (l, s)), w') ->
  Forall (diff_is_right tgt) l.
Proof.
  intros Hsteady H. apply plan_with_diff_loop in H as (st & Hloop & -> & _).
  apply (plan_loop_invariant svc fromisoformat target_root filters skip_identicals
           (fun st w1 =>
              steady (remote w1) /\
              (forall p v, tcache st !! p = Some v -> v = tgt p) /\
              Forall (diff_is_right tgt) (plan st))
           (fun _ _ => True)) in Hloop; [tauto | | |].
  - intros st0 src_rel q items w0 w1 (Hs & Hmemo & Hplan) _ Hlist.
    split; [done|]. apply list_children_run in Hlist as [_ Hsvc].
    apply listing_keeps_target in Hsvc; [|exact Hs]. by repeat split.
  - intros src_rel items it st0 st1 w0 w1 _ _ (Hs & Hmemo & Hplan) Hitem.
    apply plan_item_cases in Hitem
      as [(-> & -> & [-> | (a & -> & Hnf & _)]) | (j & status & Hlook & -> & -> & _)].
    + by repeat split.
    + repeat split; [exact Hs | exact Hmemo |].
      apply Forall_app. split; [exact Hplan|]. constructor; [|constructor].
      by destruct a.
    + apply target_lookup_cases in Hlook
        as [(Hhit & -> & ->) | (Hnone & Hsvc & _ & _ & ->)].
      * repeat split; [exact Hs | exact Hmemo |].
        apply Forall_app. split; [exact Hplan|]. constructor; [|constructor].
        simpl. by rewrite (Hmemo _ _ Hhit).
      * apply lookup_of_target in Hsvc as [Hs' Hj]; [|exact Hs].
        specialize (Hj j eq_refl). repeat split; [exact Hs' | |].
        -- intros p v Hp.
           destruct (decide (p = file_target target_root
                                   (child_path src_rel (item_name it)))) as [->|Hne].
           ++ rewrite lookup_insert_eq in Hp. by injection Hp as <-.
           ++ rewrite lookup_insert_ne in Hp by done. by apply Hmemo.
        -- apply Forall_app. split; [exact Hplan|]. constructor; [|constructor].
           simpl. by rewrite Hj.
  - split; [exact Hsteady|]. split; [|constructor].
    intros p v Hp. simpl in Hp. rewrite lookup_empty in Hp. discriminate Hp.
Qed.

End OnATarget.

End SnapshotFacts.

(** ** The walk over a tree that stays as it is *)

Section WalkFacts.

Context {R : Type} (svc : Service R).

Variable fromisoformat : string -> option Z.
Variable target_root : string.
Variable filters : Filters.
Variable skip_identicals : bool.
Variable children : string -> list Item.
Variable source_root : string.
Variable holds_tree : R -> Prop.

Hypothesis listing_of_tree :
  forall p r res r',
    holds_tree r -> list_source_children svc p r = (res, r') ->
    holds_tree r' /\ forall items, res = inr items -> items = children p.

Hypothesis lookup_keeps_tree :
  forall p r res r',
    holds_tree r -> lookup_target svc p r = (res, r') -> holds_tree r'.

Lemma pop_none (q : list string) : pop q = None -> q = [].
Proof.
  unfold pop. destruct (rev q) as [|x r] eqn:Hrev; [|discriminate].
  intros _. by rewrite <- (rev_involutive q), Hrev.
Qed.

Lemma covered_grows (l l' : list Action) (q : string) (it : Item) :
  (forall a, In a l -> In a l') ->
  covered fromisoformat target_root filters l q it ->
  covered fromisoformat target_root filters l' q it.
Proof.
  intros Hsub. unfold covered.
  destruct (is_vault it); [apply Hsub|].
  destruct (item_folder it); [apply Hsub|].
  destruct (apply_filters fromisoformat it filters); [|done].
  intros [status H]. exists status. by apply Hsub.
Qed.

Lemma plan_item_holds_tree (src_rel : string) (st st' : PlanState) (it : Item)
    (w w' : World) (res : exn + PlanState) :
  holds_tree (remote w) ->
  plan_item svc fromisoformat target_root filters skip_identicals src_rel st it w
    = (res, w') ->
  holds_tree (remote w').
Proof.
  intros Hw Hrun.
  pose proof (plan_item_effect svc fromisoformat target_root filters skip_identicals
                (preserves holds_tree) src_rel st it) as Heff.
  specialize (Heff ltac:(
    intros p w0 Hw0; unfold gget, request;
    destruct (lookup_target svc p (remote w0)) as [r0 r'] eqn:Hsvc; simpl;
    eapply lookup_keeps_tree; eauto) w).
  rewrite Hrun in Heff. by apply Heff.
Qed.

(** One listing handled: the plan and the queue only grow, the queue by
    the folders to visit, in listing order, and every child has its entry. *)
Lemma plan_items_walk (src_rel : string) (items : list Item)
    (st st' : PlanState) (w w' : World) :
  holds_tree (remote w) ->
  plan_items svc fromisoformat target_root filters skip_identicals
             src_rel items st w = (inr st', w') ->
  holds_tree (remote w') /\
  (forall a, In a (plan st) -> In a (plan st')) /\
  queue st' = queue st ++
              List.map (fun it => child_path src_rel (item_name it))
                       (List.filter to_visit items) /\
  forall it, In it items ->
             covered fromisoformat target_root filters (plan st') src_rel it.
Proof.
  revert st w. induction items as [|it items IH]; intros st w Hw H.
  - injection H as <- <-. simpl. rewrite app_nil_r. by repeat split.
  - simpl in H. apply bind_inr in H as (st1 & w1 & Hitem & H).
    pose proof (plan_item_holds_tree _ _ st1 _ _ _ _ Hw Hitem) as Hw1.
    destruct (IH st1 w1 Hw1 H) as (Hw' & Hplan & Hqueue & Hcov).
    apply plan_item_step in Hitem.
    assert (forall a, In a (plan st) -> In a (plan st1)) as Hgrow.
    { inversion Hitem; subst; simpl; intros a Ha; try done;
        apply in_or_app; by left. }
    assert (covered fromisoformat target_root filters (plan st1) src_rel it /\
            queue st1 = queue st ++
                        List.map (fun it => child_path src_rel (item_name it))
                                 (List.filter to_visit [it])) as [Hhead Hq1].
    { unfold covered, to_visit. simpl.
      inversion Hitem as [Hv|Hv Hf|Hv Hf Ha|status tc Hv Hf Ha]; subst; simpl;
        rewrite ?Hv, ?Hf, ?Ha; simpl; rewrite ?app_nil_r.
      - split; [|done]. apply in_or_app. right. by left.
      - split; [|done]. apply in_or_app. right. by left.
      - done.
      - split; [|done]. exists status. apply in_or_app. right. by left. }
    split; [exact Hw'|]. split; [by intros a Ha; apply Hplan, Hgrow|]. split.
    + rewrite Hqueue, Hq1. simpl.
      destruct (to_visit it); simpl; by rewrite <- ?app_assoc, ?app_nil_r.
    + intros it' [<- | Hin]; [|by apply Hcov].
      by apply (covered_grows (plan st1)).
Qed.

(** The walk keeps its invariant and ends with an empty queue. *)
Lemma plan_loop_walk (fuel : nat) (st st' : PlanState) (w w' : World)
    (visited : string -> Prop) :
  holds_tree (remote w) ->
  walk_invariant fromisoformat target_root filters children source_root st visited ->
  plan_loop svc fromisoformat fuel target_root filters skip_identicals st w
    = (inr (Some st'), w') ->
  queue st' = [] /\
  exists visited',
    walk_invariant fromisoformat target_root filters children source_root st' visited'.
Proof.
  revert st w visited. induction fuel as [|fuel IH]; intros st w visited Hw Hinv H;
    simpl in H.
  - destruct (pop (queue st)) as [[src_rel q]|] eqn:Hpop; [discriminate H|].
    injection H as <- <-. split; [by apply pop_none | by exists visited].
  - destruct (pop (queue st)) as [[src_rel q]|] eqn:Hpop.
    2: { injection H as <- <-. split; [by apply pop_none | by exists visited]. }
    apply pop_snoc in Hpop.
    apply bind_inr in H as (items & w1 & Hlist & H).
    apply list_children_run in Hlist as [_ Hsvc].
    apply listing_of_tree in Hsvc as [Hw1 Hitems]; [|exact Hw].
    specialize (Hitems items eq_refl). subst items.
    apply bind_inr in H as (st1 & w2 & Hitems & H).
    apply plan_items_walk in Hitems as (Hw2 & Hplan & Hqueue & Hcov); [|exact Hw1].
    simpl in Hplan, Hqueue.
    destruct Hinv as (Hroot & Hnext & Hdone).
    apply (IH st1 w2 (fun p => p = src_rel \/ visited p) Hw2); [|exact H].
    assert (forall p, In p (queue st) ->
                      In p (queue st1) \/ p = src_rel) as Hwait.
    { intros p Hp. rewrite Hpop in Hp. apply in_app_or in Hp as [Hp | [<- | []]];
        [left | by right]. rewrite Hqueue. apply in_or_app. by left. }
    split; [|split].
    + destruct Hroot as [Hr | Hr]; [|by right; right].
      destruct (Hwait _ Hr) as [? | ?]; [by left | by right; left].
    + intros p it [-> | Hp] Hin Hvisit.
      * left. rewrite Hqueue. apply in_or_app. right.
        apply (List.in_map (fun it => child_path src_rel (item_name it))).
        apply List.filter_In. by split.
      * destruct (Hnext p it Hp Hin Hvisit) as [Hq | Hv]; [|by right; right].
        destruct (Hwait _ Hq) as [? | ?]; [by left | by right; left].
    + intros p it [-> | Hp] Hin; [by apply Hcov|].
      apply (covered_grows (plan st)); [exact Hplan | by apply Hdone].
Qed.

(** X12. Nothing in a plan is made up: when a plan is returned for a tree
    that did not change meanwhile, every entry stands for an item of the
    tree, listed under a path reached from the root through non-vault
    folders, and carries the path of that item; a [file] entry is for a file
    that is no vault and passes [apply_filters], with that item's id and
    size; a [folder] entry is for a non-vault folder, a [skip_vault] entry
    for a vault. *)
Theorem plan_entries_are_items_of_the_tree (fuel : nat) (l : list Action)
    (s : Stats.t) (w w' : World) :
  holds_tree (remote w) ->
  plan_with_diff svc fromisoformat fuel source_root target_root filters
                 skip_identicals w = (inr (Some (l, s)), w') ->
  Forall (fun a =>
            exists q it,
              Walked children source_root q /\ In it (children q) /\
              entry_of fromisoformat filters q it a) l.
Proof.
  intros Htree H. apply plan_with_diff_loop in H as (st & Hloop & -> & _).
  pose (of_tree := fun a : Action =>
          exists q it,
            Walked children source_root q /\ In it (children q) /\
            entry_of fromisoformat filters q it a).
  apply (plan_loop_invariant svc fromisoformat target_root filters skip_identicals
           (fun st w1 =>
              holds_tree (remote w1) /\
              Forall of_tree (plan st) /\
              Forall (Walked children source_root) (queue st))
           (fun p items => Walked children source_root p /\ items = children p))
    in Hloop; [tauto | | |].
  - intros st0 src_rel q items w0 w1 (Ht & Hplan & Hq) Hpop Hlist.
    apply pop_snoc in Hpop. rewrite Hpop in Hq.
    apply Forall_app in Hq as [Hq Hx]. inversion Hx as [|? ? HW _]; subst.
    apply list_children_run in Hlist as [_ Hsvc].
    apply listing_of_tree in Hsvc as [Ht' Hitems]; [|exact Ht].
    split; [by split; [|apply Hitems]|]. by repeat split.
  - intros src_rel items it st0 st1 w2 w3 [HW ->] Hin (Ht & Hplan & Hq) Hitem.
    split; [by eapply plan_item_holds_tree|].
    apply plan_item_step in Hitem.
    inversion Hitem as [Hv|Hv Hf|Hv Hf Ha|status tc Hv Hf Ha]; subst; simpl.
    + split; [|done]. apply Forall_app. split; [done|].
      constructor; [|constructor]. by exists src_rel, it.
    + split.
      * apply Forall_app. split; [done|].
        constructor; [|constructor]. by exists src_rel, it.
      * apply Forall_app. split; [done|].
        constructor; [|constructor]. by apply walked_child.
    + done.
    + split; [|done]. apply Forall_app. split; [done|].
      constructor; [|constructor]. by exists src_rel, it.
  - simpl. split; [exact Htree|]. split; [constructor|].
    constructor; [constructor | constructor].
Qed.

(** X14. The walk leaves nothing out: when a plan is returned for a tree
    that did not change meanwhile, every child of the root and of every
    folder reached through non-vault folders has its entry in the plan: a
    [skip_vault] entry for a vault, a [folder] entry for another folder, and
    a [file] entry with its id and size for every file that passes the
    filters. *)
Theorem plan_covers_the_tree (fuel : nat) (l : list Action) (s : Stats.t)
    (w w' : World) (q : string) (it : Item) :
  holds_tree (remote w) ->
  plan_with_diff svc fromisoformat fuel source_root target_root filters
                 skip_identicals w = (inr (Some (l, s)), w') ->
  Walked children source_root q -> In it (children q) ->
  covered fromisoformat target_root filters l q it.
Proof.
  intros Hw H HW Hin. apply plan_with_diff_loop in H as (st & Hloop & -> & _).
  apply (plan_loop_walk _ _ _ _ _ (fun _ => False)) in Hloop
    as (Hempty & visited & Hroot & Hnext & Hdone); [|exact Hw|].
  2: { split; [left; by left|]. split; intros ? ? []. }
  apply Hdone; [|exact Hin]. clear Hin it.
  induction HW as [|p it HW IH Hin Hv Hf].
  - destruct Hroot as [Hr | Hr]; [by rewrite Hempty in Hr | exact Hr].
  - destruct (Hnext p it IH Hin) as [Hq | Hq];
      [by unfold to_visit; rewrite Hv, Hf | by rewrite Hempty in Hq | exact Hq].
Qed.

Section Answering.

(** The service answers: while it holds the tree, no listing and no lookup
    raises. *)
Hypothesis listing_answers :
  forall p r, holds_tree r ->
    exists items r', list_source_children svc p r = (inr items, r').

Hypothesis lookup_answers :
  forall p r, holds_tree r ->
    exists j r', lookup_target svc p r = (inr j, r').

Lemma plan_item_answers (src_rel : string) (st : PlanState) (it : Item) (w : World) :
  holds_tree (remote w) ->
  exists st' w',
    plan_item svc fromisoformat target_root filters skip_identicals src_rel st it w
    = (inr st', w').
Proof.
  intros Hw. unfold plan_item.
  destruct (is_vault it); [by eexists _, _|].
  destruct (item_folder it); [by eexists _, _|].
  destruct (apply_filters fromisoformat it filters); simpl; [|by eexists _, _].
  unfold bind, target_lookup.
  destruct (tcache st !! _) as [[t|]|].
  - unfold ret. destruct (size_of t =? size_of it); eexists _, _; reflexivity.
  - unfold ret. eexists _, _; reflexivity.
  - unfold bind, gget, request.
    destruct (lookup_answers
                (file_target target_root (child_path src_rel (item_name it)))
                (remote w) Hw) as (j & r' & ->).
    unfold ret.
    destruct j as [t|]; [destruct (size_of t =? size_of it)|];
      eexists _, _; reflexivity.
Qed.

Lemma plan_items_answers (src_rel : string) (items : list Item)
    (st : PlanState) (w : World) :
  holds_tree (remote w) ->
  exists st' w',
    plan_items svc fromisoformat target_root filters skip_identicals
               src_rel items st w = (inr st', w').
Proof.
  revert st w. induction items as [|it items IH]; intros st w Hw; [by eexists _, _|].
  simpl. unfold bind.
  destruct (plan_item_answers src_rel st it w Hw) as (st1 & w1 & Hitem).
  rewrite Hitem. apply IH. by eapply plan_item_holds_tree.
Qed.

Lemma queue_sized_app (a b : list string) (n m : nat) :
  queue_sized children a n -> queue_sized children b m ->
  queue_sized children (a ++ b) (n + m).
Proof.
  induction 1 as [|q rest k k' Hq Hrest IH]; intros Hb; [exact Hb|].
  simpl. rewrite <- Nat.add_assoc. constructor; [exact Hq | by apply IH].
Qed.

Lemma queue_sized_snoc (a : list string) (x : string) (n : nat) :
  queue_sized children (a ++ [x]) n ->
  exists m k, queue_sized children a m /\ sized children x k /\ n = (m + k)%nat.
Proof.
  revert n. induction a as [|y a IH]; intros n H; simpl in H.
  - inversion H as [|? ? k m Hx Hnil]; subst. inversion Hnil; subst.
    exists 0%nat, k. repeat split; [constructor | exact Hx | lia].
  - inversion H as [|? ? k m Hy Hrest]; subst.
    destruct (IH m Hrest) as (m' & k' & Ha & Hx & ->).
    exists (k + m')%nat, k'. repeat split; [by constructor | exact Hx | lia].
Qed.

Lemma sized_all_queue (q : string) (items : list Item) (n : nat) :
  sized_all children q items n ->
  queue_sized children
    (List.map (fun it => child_path q (item_name it)) items) n.
Proof.
  revert n. induction items as [|it items IH]; intros n H;
    inversion H; subst; simpl; constructor; auto.
Qed.

(** Fuel for as many iterations as there are folders left to visit is
    enough for the loop to return. *)
Lemma plan_loop_terminates (fuel : nat) :
  forall (st : PlanState) (w : World) (n : nat),
    holds_tree (remote w) -> queue_sized children (queue st) n -> (n <= fuel)%nat ->
    exists st' w',
      plan_loop svc fromisoformat fuel target_root filters skip_identicals st w
      = (inr (Some st'), w').
Proof.
  induction fuel as [|fuel IH]; intros st w n Hw Hsized Hfuel.
  - assert (n = 0)%nat as -> by lia.
    inversion Hsized as [Hq | ? ? k m Hk _ Hq Hn]; simpl.
    + rewrite <- Hq. by eexists _, _.
    + inversion Hk; subst. lia.
  - simpl. destruct (pop (queue st)) as [[src_rel q]|] eqn:Hpop; [|by eexists _, _].
    apply pop_snoc in Hpop. rewrite Hpop in Hsized.
    apply queue_sized_snoc in Hsized as (m & k & Hq & Hk & ->).
    inversion Hk as [? k' Hall]; subst.
    unfold bind at 1, list_children, gget, request.
    destruct (listing_answers src_rel (remote w) Hw) as (items & r' & Hsvc).
    rewrite Hsvc. cbv beta iota zeta.
    apply listing_of_tree in Hsvc as [Hw1 Hitems]; [|exact Hw].
    specialize (Hitems items eq_refl). subst items.
    match goal with |- context [bind (plan_items _ _ _ _ _ _ _ ?st0) _ ?w0] =>
      destruct (plan_items_answers src_rel (children src_rel) st0 w0 Hw1)
        as (st1 & w2 & Hitems);
      pose proof (plan_items_walk src_rel (children src_rel) st0 st1 w0 w2 Hw1 Hitems)
        as (Hw2 & _ & Hqueue & _)
    end.
    unfold bind. rewrite Hitems. simpl in Hqueue.
    apply (IH st1 w2 (m + k')%nat); [exact Hw2 | | lia].
    rewrite Hqueue. apply queue_sized_app; [exact Hq | by apply sized_all_queue].
Qed.

(** X15. On a finite tree the walk ends: when the service answers every
    listing and lookup, and the folders to visit from the source root on
    are [n] in number, [plan_with_diff] returns a plan within [n]
    iterations of its loop. *)
Theorem plan_with_diff_terminates (fuel n : nat) (w : World) :
  holds_tree (remote w) -> sized children source_root n -> (n <= fuel)%nat ->
  exists l s w',
    plan_with_diff svc fromisoformat fuel source_root target_root filters
                   skip_identicals w = (inr (Some (l, s)), w').
Proof.
  intros Hw Hn Hfuel. unfold plan_with_diff, bind.
  destruct (plan_loop_terminates fuel
              {| plan := []; stats := Stats.zero;
                 queue := [source_root]; tcache := ∅ |} w (n + 0)) as (st & w' & ->);
    [exact Hw | by repeat constructor | lia |].
  by eexists _, _, _.
Qed.

End Answering.

End WalkFacts.

(** ** The executor, request by request *)

Section ExecutorRequests.

Context {R : Type} (svc : Service R).

Variable conflict : string.

Lemma download_stream_extends (P : Call -> Prop) (id : string) :
  P (GetDownloadUrl id) -> (forall u, P (GetStream u)) ->
  effect (extends P) (download_stream svc id).
Proof.
  intros Hurl Hget. apply effect_bind; [apply _ | by apply request_extends |].
  intros [url|]; [|apply effect_raise, _].
  destruct (Text.truthy url); [by apply request_extends | apply effect_raise, _].
Qed.

Lemma read_all_extends (P : Call -> Prop) (reader : Reader) :
  effect (R:=R) (extends P) (read_all reader).
Proof.
  unfold read_all. destruct (broken reader); [apply effect_raise | apply effect_ret]; apply _.
Qed.

Lemma upload_large_loop_extends (P : Call -> Prop) (upurl : string) (file_size : Z)
    (todo : list content) (start : Z) (failure : option exn) :
  (forall a b d, P (PutChunk upurl a b file_size d)) ->
  effect (extends P) (upload_large_loop svc upurl file_size start todo failure).
Proof.
  intros HP. revert start. induction todo as [|chunk rest IH]; intros start; simpl.
  - destruct failure; [apply effect_raise | apply effect_ret]; apply _.
  - apply effect_bind; [apply _ | by apply request_extends |]. intros status.
    destruct ((status =? 200) || (status =? 201))%bool; [apply effect_ret, _|].
    destruct (status =? 202); [apply IH | apply effect_raise, _].
Qed.

Lemma upload_large_extends (P : Call -> Prop) (rel_path : string) (file_size : Z)
    (reader : Reader) :
  P (PostUploadSession rel_path conflict) ->
  (forall u a b d, P (PutChunk u a b file_size d)) ->
  effect (extends P) (upload_large svc conflict rel_path file_size reader).
Proof.
  intros Hpost Hput. apply effect_bind; [apply _ | by apply request_extends |].
  intros [status upurl]. destruct (400 <=? status); [apply effect_raise, _|].
  apply upload_large_loop_extends. intros a b d. apply Hput.
Qed.

Lemma save_cache_extends (P : Call -> Prop) (path : option string) (cache : Cache) :
  effect (extends P) (save_cache svc path cache).
Proof.
  intros w. exists []. rewrite app_nil_r. split; [|constructor].
  unfold save_cache. destruct path as [p|]; [|done].
  destruct (Text.truthy p); [|done].
  by destruct (open_cache_file svc p (remote w)) as [[e|] r].
Qed.

(** Each action sends only requests of its own. *)
Lemma execute_action_footprint (mode : string) (skip : bool)
    (cache_path : option string) (processed : gset string)
    (a : Action) (st : Summary.t * Cache) :
  effect (extends (action_call conflict mode skip processed a))
         (execute_action svc conflict mode skip cache_path processed st a).
Proof.
  destruct st as [summary cache].
  destruct a as [src|src tgt|src tgt size id status]; unfold execute_action.
  - apply effect_ret, _.
  - apply effect_bind; [apply _ | | intros _; apply effect_ret, _].
    apply ensure_folder_extends.
  - destruct (bool_decide (id ∈ processed)) eqn:Hdone; [apply effect_ret, _|].
    destruct (skip && bool_decide (status = exists_same))%bool eqn:Hsame.
    { apply effect_bind; [apply _ | apply save_cache_extends |].
      intros _. apply effect_ret, _. }
    assert (transferred skip processed (file src tgt size id status) = true) as Ht
      by (simpl; by rewrite Hdone, Hsame).
    apply effect_bind; [apply _ | | intros _].
    { eapply effect_weaken; [|apply ensure_folder_extends].
      intros [] Hc; simpl in Hc; try done; by split. }
    apply effect_bind; [apply _ | | intros reader].
    { apply download_stream_extends; by split. }
    apply effect_bind; [apply _ | | intros _].
    { destruct (size <? 4 * 1024 * 1024) eqn:Hsize.
      - apply Z.ltb_lt in Hsize.
        apply effect_bind; [apply _ | apply read_all_extends | intros buf].
        apply checked_extends. by repeat split.
      - apply Z.ltb_ge in Hsize.
        apply upload_large_extends; [by repeat split | intros; by repeat split]. }
    apply effect_bind; [apply _ | | intros summary'].
    { destruct (String.eqb mode "move") eqn:Hmode; [|apply effect_ret, _].
      apply String.eqb_eq in Hmode.
      apply effect_bind; [apply _ | | intros _; apply effect_ret, _].
      apply checked_extends. by repeat split. }
    apply effect_bind; [apply _ | apply save_cache_extends |].
    intros _. apply effect_ret, _.
Qed.

Lemma execute_loop_footprint (mode : string) (skip : bool)
    (cache_path : option string) (processed : gset string)
    (plan : list Action) (st : Summary.t * Cache) :
  effect (extends (fun c => exists a, In a plan /\
                                      action_call conflict mode skip processed a c))
         (execute_loop svc conflict mode skip cache_path processed plan st).
Proof.
  revert st. induction plan as [|a plan IH]; intros st; simpl.
  - apply effect_ret, _.
  - apply effect_bind; [apply _ | | intros st1].
    + eapply effect_weaken; [|apply execute_action_footprint].
      intros c Hc. exists a. split; [by left | exact Hc].
    + eapply effect_weaken; [|apply IH].
      intros c (b & Hb & Hc). exists b. split; [by right | exact Hc].
Qed.

(** The requests of a whole run. *)
Lemma execute_requests_footprint (plan : list Action) (mode : string)
    (skip : bool) (cache_path : option string) (w : World) :
  extends
    (fun c => exists a,
       In a plan /\
       action_call conflict mode skip
         (processed_set (read_cache cache_path (disk w))) a c)
    w (snd (execute svc conflict plan mode skip cache_path w)).
Proof.
  pose proof (execute_loop_footprint mode skip cache_path
                (processed_set (read_cache cache_path (disk w))) plan
                (Summary.zero, read_cache cache_path (disk w)) w) as H.
  rewrite execute_unfold. unfold bind.
  by destruct (execute_loop _ _ _ _ _ _ _ _ _) as [[e|st] w1].
Qed.

(** X17. Outside move mode nothing is ever deleted: whatever the plan, the
    cache and the outcome, a run whose mode is not ["move"] sends no DELETE
    to the source. *)
Theorem copy_never_deletes (plan : list Action) (mode : string)
    (skip : bool) (cache_path : option string) (w : World) :
  mode <> "move"%string ->
  extends (fun c => forall id, c <> DeleteSourceItem id)
          w (snd (execute svc conflict plan mode skip cache_path w)).
Proof.
  intros Hmode.
  pose proof (execute_loop_footprint mode skip cache_path
                (processed_set (read_cache cache_path (disk w))) plan
                (Summary.zero, read_cache cache_path (disk w)) w) as H.
  rewrite execute_unfold. unfold bind.
  destruct (execute_loop _ _ _ _ _ _ _ _ _) as [[e|st] w1]; simpl in *;
    (eapply extends_weaken; [|exact H]);
    intros c (a & _ & Hc) id ->;
    (destruct a as [?|? ?|? tgt size i status]; simpl in Hc;
     [done | done | destruct Hc as (_ & _ & Hm); contradiction]).
Qed.

End ExecutorRequests.

(** ** The summary of a run, and a run after a run *)

Section SummaryFacts.

Context {R : Type} (svc : Service R).

Variable conflict : string.

Lemma filtered_size_snoc (p : Action -> bool) (l : list Action) (a : Action) :
  total_size (List.filter p (l ++ [a]))
  = total_size (List.filter p l) + (if p a then action_size a else 0).
Proof.
  rewrite List.filter_app. simpl. destruct (p a).
  - apply total_size_snoc.
  - rewrite app_nil_r. lia.
Qed.

Lemma summary_of_snoc (mode : string) (skip : bool) (processed : gset string)
    (l : list Action) (a : Action) :
  summary_of mode skip processed (l ++ [a])
  = let s := summary_of mode skip processed l in
    match a with
    | skip_vault _ => Summary.add_skipped_vault s
    | folder _ _ => Summary.add_folder_created s
    | file _ _ size _ _ =>
        if transferred skip processed a then
          if String.eqb mode "move"
          then Summary.add_deleted (Summary.add_copied size s)
          else Summary.add_copied size s
        else if skipped_same skip processed a then Summary.add_skipped_identical s
        else s
    end.
Proof.
  unfold summary_of. rewrite !count_snoc, filtered_size_snoc.
  destruct a as [src|src tgt|src tgt size id status]; simpl.
  - unfold Summary.add_skipped_vault; simpl.
    f_equal; try lia. destruct (String.eqb mode "move"); lia.
  - unfold Summary.add_folder_created; simpl.
    f_equal; try lia. destruct (String.eqb mode "move"); lia.
  - destruct (bool_decide (id ∈ processed)); simpl.
    { f_equal; try lia. destruct (String.eqb mode "move"); lia. }
    destruct (skip && bool_decide (status = exists_same))%bool; simpl.
    + unfold Summary.add_skipped_identical; simpl.
      f_equal; try lia. destruct (String.eqb mode "move"); lia.
    + destruct (String.eqb mode "move");
        unfold Summary.add_deleted, Summary.add_copied; simpl; f_equal; lia.
Qed.

Lemma execute_action_tally (mode : string) (skip : bool)
    (cache_path : option string) (processed : gset string) (a : Action)
    (pre : list Action) (summary' : Summary.t) (cache cache' : Cache)
    (w w' : World) :
  execute_action svc conflict mode skip cache_path processed
    (summary_of mode skip processed pre, cache) a w = (inr (summary', cache'), w') ->
  summary' = summary_of mode skip processed (pre ++ [a]).
Proof.
  rewrite summary_of_snoc.
  destruct a as [src|src tgt|src tgt size id status]; unfold execute_action.
  - intros H. by injection H as <- _ _.
  - intros H. apply bind_inr in H as (u & w1 & _ & H). by injection H as <- _ _.
  - simpl. destruct (bool_decide (id ∈ processed)); simpl.
    { intros H. by injection H as <- _ _. }
    destruct (skip && bool_decide (status = exists_same))%bool; simpl.
    { intros H. apply bind_inr in H as (u & w1 & _ & H). by injection H as <- _ _. }
    intros H.
    apply bind_inr in H as (u1 & w1 & _ & H).
    apply bind_inr in H as (reader & w2 & _ & H).
    apply bind_inr in H as (u3 & w3 & _ & H).
    apply bind_inr in H as (summary3 & w4 & H4 & H).
    apply bind_inr in H as (u5 & w6 & _ & H).
    injection H as <- _ _.
    destruct (String.eqb mode "move").
    + apply bind_inr in H4 as (u & w5 & _ & H4). by injection H4 as <- _.
    + by injection H4 as <- _.
Qed.

Lemma execute_loop_tally (mode : string) (skip : bool)
    (cache_path : option string) (processed : gset string) (plan pre : list Action)
    (summary' : Summary.t) (cache cache' : Cache) (w w' : World) :
  execute_loop svc conflict mode skip cache_path processed plan
    (summary_of mode skip processed pre, cache) w = (inr (summary', cache'), w') ->
  summary' = summary_of mode skip processed (pre ++ plan).
Proof.
  revert pre cache w. induction plan as [|a plan IH]; intros pre cache w H.
  - injection H as <- _ _. by rewrite app_nil_r.
  - simpl in H. apply bind_inr in H as ([s1 c1] & w1 & Ha & H).
    apply execute_action_tally in Ha as ->. apply IH in H as ->.
    by rewrite <- app_assoc.
Qed.

(** The summary of a whole run. *)
Lemma execute_summary_tally (plan : list Action) (mode : string)
    (skip : bool) (cache_path : option string) (w w' : World) (s : Summary.t) :
  execute svc conflict plan mode skip cache_path w = (inr s, w') ->
  s = summary_of mode skip (processed_set (read_cache cache_path (disk w))) plan.
Proof.
  rewrite execute_unfold. intros H.
  apply bind_inr in H as ([s1 c1] & w1 & Hloop & H). injection H as <- _.
  assert (Summary.zero
          = summary_of mode skip (processed_set (read_cache cache_path (disk w))) [])
    as Hzero by (unfold summary_of; simpl; by destruct (String.eqb mode "move")).
  rewrite Hzero in Hloop. by apply execute_loop_tally in Hloop.
Qed.

(** X18. The summary a completed run returns is the one the plan stands
    for: every vault and folder entry is counted; a file is counted as
    copied (with its planned size) when its id was not in the loaded cache
    and it was not skipped as identical, as skipped when it was skipped as
    identical, and not at all when its id was in the cache; [deleted] equals
    [files_copied] in move mode and is 0 otherwise. *)
Theorem execute_summary_matches_plan (plan : list Action) (mode : string)
    (skip : bool) (cache_path : option string) (w w' : World) (s : Summary.t) :
  execute svc conflict plan mode skip cache_path w = (inr s, w') ->
  s = summary_of mode skip (processed_set (read_cache cache_path (disk w))) plan.
Proof. apply execute_summary_tally. Qed.

Lemma count_none (p : Action -> bool) (l : list Action) :
  (forall a, In a l -> p a = false) -> List.filter p l = [].
Proof.
  induction l as [|a l IH]; intros H; [done|]. simpl.
  rewrite (H a) by (by left). apply IH. intros b Hb. apply H. by right.
Qed.

(** After a completed run with a cache file, the file holds the id of
    every file of the plan. *)
Lemma files_done_after_success (plan : list Action) (mode : string) (skip : bool)
    (p : string) (w w1 : World) (s1 : Summary.t) (a : Action) :
  Text.truthy p = true ->
  execute svc conflict plan mode skip (Some p) w = (inr s1, w1) ->
  In a plan -> is_file a = true ->
  already_done (processed_set (read_cache (Some p) (disk w1))) a = true.
Proof.
  intros Hp H Hin Hfile. rewrite execute_unfold in H.
  apply bind_inr in H as ([s c] & w0 & Hloop & H). injection H as _ <-.
  apply execute_loop_success in Hloop as [_ Hd].
  destruct a as [|? ?|src tgt size id status]; try discriminate Hfile.
  unfold already_done. apply bool_decide_eq_true.
  rewrite Hd, read_checkpoint by done. apply elem_of_processed_extend.
  destruct (decide (id ∈ processed_set (read_cache (Some p) (disk w))))
    as [Hold|Hnew]; [by left|].
  right. unfold committed. apply in_flat_map.
  eexists. split; [exact Hin|]. simpl.
  rewrite bool_decide_eq_false_2 by done. by left.
Qed.

(** X19. Running a plan again after it completed transfers nothing: with
    the cache file the first run left, the second run (whatever its mode and
    skip setting) sends no download, upload or delete request, whether it
    completes or fails on a folder, and a second run that completes reports
    no file copied, no byte copied, nothing deleted and nothing skipped as
    identical. *)
Theorem second_run_transfers_nothing (plan : list Action) (mode mode2 : string)
    (skip skip2 : bool) (p : string) (w w1 w2 : World (R:=R)) (s1 : Summary.t) :
  Text.truthy p = true ->
  execute svc conflict plan mode skip (Some p) w = (inr s1, w1) ->
  disk w2 !! p = disk w1 !! p ->
  extends (fun c => transfer_call c = false)
          w2 (snd (execute svc conflict plan mode2 skip2 (Some p) w2)) /\
  forall s2,
    fst (execute svc conflict plan mode2 skip2 (Some p) w2) = inr s2 ->
    Summary.files_copied s2 = 0 /\ Summary.bytes_copied s2 = 0 /\
    Summary.deleted s2 = 0 /\ Summary.skipped_identical s2 = 0.
Proof.
  intros Hp Hfirst Hdisk.
  set (processed := processed_set (read_cache (Some p) (disk w2))).
  assert (forall a, In a plan -> is_file a = true -> already_done processed a = true)
    as Hdone.
  { intros a Hin Hfile. unfold processed.
    rewrite (read_cache_lookup p (disk w2) (disk w1) Hdisk).
    by eapply files_done_after_success. }
  assert (forall a, In a plan -> transferred skip2 processed a = false) as Hnot.
  { intros a Hin. destruct a as [|? ?|src tgt size id status]; try done.
    specialize (Hdone _ Hin eq_refl). simpl in *. by rewrite Hdone. }
  assert (forall a, In a plan -> skipped_same skip2 processed a = false) as Hnos.
  { intros a Hin. destruct a as [|? ?|src tgt size id status]; try done.
    specialize (Hdone _ Hin eq_refl). simpl in *. by rewrite Hdone. }
  split.
  - eapply extends_weaken; [|apply execute_requests_footprint].
    intros c (a & Hin & Hc). specialize (Hnot a Hin).
    destruct a as [?|? tgt|? tgt size id status].
    + destruct Hc.
    + by destruct c.
    + destruct Hc as [Ht _]. unfold processed in Hnot.
      rewrite Hnot in Ht. discriminate Ht.
  - intros s2 H2.
    destruct (execute svc conflict plan mode2 skip2 (Some p) w2) as [r w3] eqn:Hrun.
    simpl in H2. subst r. apply execute_summary_tally in Hrun. fold processed in Hrun.
    subst s2. unfold summary_of, count. simpl.
    rewrite !(count_none _ _ Hnot), (count_none _ _ Hnos). simpl.
    by destruct (String.eqb mode2 "move").
Qed.

End SummaryFacts.

(** ** [upload_large]: the byte ranges and the reply that decides *)

Section UploadFacts.

Context {R : Type} (svc : Service R).

Variable conflict : string.

Lemma upload_large_loop_ranges (upurl : string) (file_size : Z)
    (todo : list content) (start : Z) (failure : option exn) (w : World) :
  exists m,
    calls (snd (upload_large_loop svc upurl file_size start todo failure w))
    = calls w ++ chunk_calls upurl file_size start (take m todo).
Proof.
  revert start w. induction todo as [|chunk rest IH]; intros start w.
  - exists 0%nat. simpl. rewrite app_nil_r. by destruct failure.
  - simpl. unfold bind at 1, request.
    destruct (put_chunk svc upurl start (start + Z.of_nat (length chunk) - 1)
                file_size chunk (remote w)) as [[e|status] r'].
    + exists 1%nat. by simpl.
    + destruct ((status =? 200) || (status =? 201))%bool;
        [by exists 1%nat|].
      destruct (status =? 202); [|by exists 1%nat].
      match goal with |- context [upload_large_loop _ _ _ ?s rest _ ?w1] =>
        destruct (IH s w1) as [m Hm] end.
      exists (S m). rewrite Hm. simpl. rewrite <- app_assoc. simpl.
      by replace (start + Z.of_nat (length chunk) - 1 + 1)
        with (start + Z.of_nat (length chunk)) by lia.
Qed.

(** The requests of [upload_large]. *)
Lemma upload_large_requests (rel_path : string) (file_size : Z)
    (reader : Reader) (w : World) :
  exists upurl m,
    calls (snd (upload_large svc conflict rel_path file_size reader w))
    = calls w ++ PostUploadSession rel_path conflict
                 :: chunk_calls upurl file_size 0 (take m (chunks reader)).
Proof.
  unfold upload_large, bind, request.
  destruct (post_upload_session svc rel_path conflict (remote w))
    as [[e|[status upurl]] r'].
  - by exists ""%string, 0%nat.
  - destruct (400 <=? status); [by exists upurl, 0%nat|].
    match goal with |- context [upload_large_loop _ _ _ _ _ _ ?w1] =>
      destruct (upload_large_loop_ranges upurl file_size (chunks reader) 0
                  (broken reader) w1) as [m Hm] end.
    exists upurl, m. rewrite Hm. simpl. by rewrite <- app_assoc.
Qed.

(** X20. [upload_large] opens one session and then sends the chunks in the
    order the reader yields them, each once and none skipped, up to the one
    whose reply ends the upload: the first range starts at byte 0, each next
    range starts right after the one before, each range is as long as its
    chunk, and every request declares the planned size as the total. *)
Theorem upload_large_sends_contiguous_ranges (rel_path : string) (file_size : Z)
    (reader : Reader) (w : World) :
  exists upurl m,
    calls (snd (upload_large svc conflict rel_path file_size reader w))
    = calls w ++ PostUploadSession rel_path conflict
                 :: chunk_calls upurl file_size 0 (take m (chunks reader)).
Proof. apply upload_large_requests. Qed.

End UploadFacts.

Section ScriptedFacts.

Variable conflict : string.

Lemma scripted_loop (upurl : string) (file_size : Z) (n : nat) (s : Z)
    (rest : list (exn + Z)) (failure : option exn) :
  s <> 202 ->
  forall (todo : list content) (start : Z) (sent : list Call)
         (d : gmap string CacheFile),
    (n < length todo)%nat ->
    upload_large_loop Scripted.service upurl file_size start todo failure
      {| remote := replicate n (inr 202) ++ inr s :: rest;
         calls := sent; disk := d |}
    = (if ((s =? 200) || (s =? 201))%bool
       then inr tt else inl (RuntimeError "Upload failed"),
       {| remote := rest;
          calls := sent ++ chunk_calls upurl file_size start (take (S n) todo);
          disk := d |}).
Proof.
  intros Hs. apply Z.eqb_neq in Hs.
  induction n as [|n IH]; intros todo start sent d Hlen;
    (destruct todo as [|chunk todo]; [simpl in Hlen; lia|]).
  - simpl. unfold bind, request. simpl. rewrite Hs.
    by destruct ((s =? 200) || (s =? 201))%bool.
  - simpl. unfold bind at 1, request. simpl.
    rewrite IH by (simpl in Hlen; lia). rewrite <- app_assoc. simpl.
    by replace (start + Z.of_nat (length chunk) - 1 + 1)
      with (start + Z.of_nat (length chunk)) by lia.
Qed.

(** X21. The first reply that is not 202 decides the upload: when the
    service answers [n] chunks with 202 (more expected) and the next with
    [s], [upload_large] sends exactly [n + 1] chunks and no more, and then
    returns normally if [s] is 200 or 201 (upload finalized) and raises
    [RuntimeError] otherwise; the chunks left in the reader are not read. *)
Theorem upload_large_stops_at_first_final_reply (rel_path : string) (file_size : Z)
    (n : nat) (s : Z) (rest : list (exn + Z)) (reader : Reader) :
  s <> 202 -> (n < length (chunks reader))%nat ->
  upload_large Scripted.service conflict rel_path file_size reader
    (Scripted.world (replicate n (inr 202) ++ inr s :: rest))
  = (if ((s =? 200) || (s =? 201))%bool
     then inr tt else inl (RuntimeError "Upload failed"),
     {| remote := rest;
        calls := PostUploadSession rel_path conflict
                 :: chunk_calls ("session:" +:+ rel_path) file_size 0
                      (take (S n) (chunks reader));
        disk := ∅ |}).
Proof.
  intros Hs Hlen. unfold upload_large, bind, request, Scripted.world. simpl.
  by rewrite scripted_loop.
Qed.

End ScriptedFacts.

(** ** [ensure_folder]: the paths it checks *)

Section FolderFacts.

Context {R : Type} (svc : Service R).

Variable conflict : string.

Lemma checked_paths_app (a b : list Call) :
  checked_paths (a ++ b) = checked_paths a ++ checked_paths b.
Proof. unfold checked_paths. apply flat_map_app. Qed.

Lemma ensure_folder_loop_checks (parts : list string) (current : string)
    (w : World) :
  exists delta m,
    calls (snd (ensure_folder_loop svc conflict current parts w)) = calls w ++ delta /\
    checked_paths delta = take m (prefixes current parts) /\
    (fst (ensure_folder_loop svc conflict current parts w) = inr tt ->
     checked_paths delta = prefixes current parts).
Proof.
  revert current w. induction parts as [|p rest IH]; intros current w.
  - exists [], 0%nat. simpl. by rewrite app_nil_r.
  - simpl. set (c := if Text.truthy current then current +:+ "/" +:+ p else p).
    unfold gget, gpost, checked, bind, request. simpl.
    destruct (get_target_item svc c (remote w)) as [[e|status] r']; simpl.
    { exists [GetTargetItem c], 1%nat. by simpl. }
    destruct (status =? 404); simpl.
    + destruct (post_root_children svc p conflict r') as [[e|posted] r'']; simpl.
      { exists [GetTargetItem c; PostRootChildren p conflict], 1%nat.
        simpl. by rewrite <- app_assoc. }
      destruct (400 <=? posted); simpl.
      { exists [GetTargetItem c; PostRootChildren p conflict], 1%nat.
        simpl. by rewrite <- app_assoc. }
      match goal with |- context [ensure_folder_loop _ _ _ rest ?w1] =>
        destruct (IH c w1) as (delta & m & Hcalls & Htake & Hall) end.
      exists (GetTargetItem c :: PostRootChildren p conflict :: delta), (S m).
      split; [rewrite Hcalls; simpl; by rewrite <- !app_assoc|].
      simpl. split; [by rewrite Htake|].
      intros Hok. f_equal. by apply Hall.
    + match goal with |- context [ensure_folder_loop _ _ _ rest ?w1] =>
        destruct (IH c w1) as (delta & m & Hcalls & Htake & Hall) end.
      exists (GetTargetItem c :: delta), (S m).
      split; [rewrite Hcalls; simpl; by rewrite <- !app_assoc|].
      simpl. split; [by rewrite Htake|].
      intros Hok. f_equal. by apply Hall.
Qed.

(** X22. [ensure_folder] checks the ancestors of a path from the top down:
    the paths of its GETs are, in order, the first component, the first two
    joined by a slash, and so on, each asked once; a run that raises stops
    somewhere in that sequence, and a run that returns has asked for every
    one of them. *)
Theorem ensure_folder_checks_prefixes_in_order (rel_path : string) (w : World) :
  exists delta m,
    calls (snd (ensure_folder svc conflict rel_path w)) = calls w ++ delta /\
    checked_paths delta = take m (prefixes "" (folder_parts rel_path)) /\
    (fst (ensure_folder svc conflict rel_path w) = inr tt ->
     Text.truthy rel_path = true ->
     checked_paths delta = prefixes "" (folder_parts rel_path)).
Proof.
  unfold ensure_folder. destruct (Text.truthy rel_path).
  - destruct (ensure_folder_loop_checks (folder_parts rel_path) "" w)
      as (delta & m & H1 & H2 & H3).
    exists delta, m. auto.
  - exists [], 0%nat. simpl. rewrite app_nil_r. split; [done|]. split; [done|].
    intros _ H. discriminate H.
Qed.

End FolderFacts.

(** ** A transfer that fails *)

Section FailedTransfer.

Context {R : Type} (svc : Service R).

Variable conflict : string.

Lemma transfer_file_keeps_source (target : string) (size : Z) (id : string) :
  effect (extends keeps_source) (transfer_file svc conflict target size id).
Proof.
  unfold transfer_file.
  apply effect_bind; [apply _ | |].
  { eapply effect_weaken; [|apply ensure_folder_extends]. by intros []. }
  intros _. apply effect_bind; [apply _ | by apply download_stream_extends |].
  intros reader. destruct (size <? 4 * 1024 * 1024).
  - apply effect_bind; [apply _ | apply read_all_extends |].
    intros buf. by apply checked_extends.
  - by apply upload_large_extends.
Qed.

(** X23. A file whose folder check, download or upload raises is left on
    the source, in move mode too: the action raises the same exception at
    once, and up to there it has sent no DELETE and has not written the
    cache file. *)
Theorem failed_transfer_keeps_the_source (mode : string) (skip_identicals : bool)
    (cache_path : option string) (processed : gset string)
    (st : Summary.t * Cache) (src_path target id : string) (size : Z)
    (status : Status) (e : exn) (w : World) :
  transferred skip_identicals processed (file src_path target size id status) = true ->
  fst (transfer_file svc conflict target size id w) = inl e ->
  let run := execute_action svc conflict mode skip_identicals cache_path processed st
               (file src_path target size id status) w in
  fst run = inl e /\ extends keeps_source w (snd run) /\ disk (snd run) = disk w.
Proof.
  intros Ht Hfail. simpl.
  assert (execute_action svc conflict mode skip_identicals cache_path processed st
            (file src_path target size id status) w
          = (inl e, snd (transfer_file svc conflict target size id w))) as ->.
  { destruct st as [summary cache]. unfold execute_action.
    simpl in Ht. apply andb_true_iff in Ht as [Hp Hs].
    apply negb_true_iff in Hp, Hs. rewrite Hp, Hs.
    revert Hfail. unfold transfer_file, bind.
    destruct (ensure_folder svc conflict _ w) as [[e1|[]] w1]; simpl;
      [by intros [= ->]|].
    destruct (download_stream svc id w1) as [[e2|reader] w2]; simpl;
      [by intros [= ->]|].
    destruct (size <? 4 * 1024 * 1024).
    - destruct (read_all reader w2) as [[e3|buf] w3]; simpl;
        [by intros [= ->]|].
      destruct (upload_small svc target buf w3) as [[e4|[]] w4]; simpl;
        [by intros [= ->] | discriminate].
    - destruct (upload_large svc conflict target size reader w2) as [[e4|[]] w4];
        simpl; [by intros [= ->] | discriminate]. }
  simpl. split; [done|]. split.
  - apply transfer_file_keeps_source.
  - apply transfer_file_same_disk.
Qed.

End FailedTransfer.

(** ** The requests of a run, action by action *)

Section RunFacts.

Context {R : Type} (svc : Service R).

Variable conflict : string.













End RunFacts.

(** ** The properties above on concrete runs *)

Section Examples.

Import MemDrive Scenario.

(** A 503 followed by a 200. *)
Lemma gget_returns_only_usable_witness :
  let ok := {| Http.status_code := 200; Http.retry_after := Http.NoHeader |} in
  let replies := fun i : nat =>
    match i with
    | O => inr {| Http.status_code := 503; Http.retry_after := Http.NoHeader |}
    | _ => inr ok
    end in
  Http.outcome (Http.gget replies 5) = inr (Some ok) /\
  (Http.status_code ok = 404 \/ Http.status_code ok < 400) /\
  exists j, (j < 5)%nat /\ replies j = inr ok /\
            Http.sent (Http.gget replies 5) = S j.
Proof.
  intros ok replies. split; [reflexivity|].
  apply (gget_returns_only_usable replies 5 ok). reflexivity.
Defined.

(** A 429 that asks for seven seconds, then a 200. *)
Lemma gget_waits_follow_replies_witness :
  let replies := fun i : nat =>
    match i with
    | O => inr {| Http.status_code := 429; Http.retry_after := Http.Seconds 7 |}
    | _ => inr {| Http.status_code := 200; Http.retry_after := Http.NoHeader |}
    end in
  Http.slept (Http.gget replies 5) !! 0%nat = Some 7 /\
  exists r, replies 0%nat = inr r /\ Http.wait_of r 0 = Some 7 /\ 0 <= 7.
Proof.
  intros replies. split; [reflexivity|].
  apply (gget_waits_follow_replies replies 5 0 7). reflexivity.
Defined.

(** A server that answers 503 every time. *)
Lemma gget_gives_up_after_retries_witness :
  let down := {| Http.status_code := 503; Http.retry_after := Http.NoHeader |} in
  let replies := fun _ : nat => inr down : exn + Http.Response in
  exists r,
    replies (3 - 1)%nat = inr r /\
    Http.gget replies 3
    = {| Http.outcome := inl (Http.Exn (HTTPError (Http.status_code r)));
         Http.sent := 3;
         Http.slept := List.map (fun i => 2 ^ Z.of_nat i) (seq 0 3) |} /\
    fold_right Z.add 0 (Http.slept (Http.gget replies 3)) = 2 ^ Z.of_nat 3 - 1.
Proof.
  intros down replies.
  apply (gget_gives_up_after_retries replies 3); [lia|].
  intros j _. exists down. split; [reflexivity | simpl; lia].
Defined.

(** Two pages, the first linked to the second. *)
Lemma list_children_follows_links_witness :
  let a := new_file "a.txt" 1 in
  let b := new_file "b.txt" 2 in
  let fetch := fun url : string =>
    if String.eqb url (Paging.children_url "docs")
    then inr {| Paging.page_status := 200; Paging.value := Some [a];
                Paging.nextLink := Some "next"%string |}
    else if String.eqb url "next"
    then inr {| Paging.page_status := 200; Paging.value := Some [b];
                Paging.nextLink := None |}
    else inl ConnectionError in
  Paging.list_children 2 fetch "docs" = Some (inr (concat [[a]; [b]])).
Proof.
  intros a b fetch.
  apply (list_children_follows_links fetch [[a]; [b]] 2 "docs"); [|simpl; lia].
  exists {| Paging.page_status := 200; Paging.value := Some [a];
            Paging.nextLink := Some "next"%string |}, "next"%string.
  repeat (split; [reflexivity|]).
  exists {| Paging.page_status := 200; Paging.value := Some [b];
            Paging.nextLink := None |}.
  repeat (split; [reflexivity|]). exact I.
Defined.

(** A path that is not there: the 404 page names a link that is not read. *)
Lemma list_children_stops_at_failed_page_witness :
  let missing := {| Paging.page_status := 404; Paging.value := None;
                    Paging.nextLink := Some "more"%string |} in
  let fetch := fun _ : string => inr missing : exn + Paging.Page in
  Paging.list_children_loop 1 fetch (Paging.children_url "gone") []
  = Some (inr []).
Proof.
  intros missing fetch.
  apply (list_children_stops_at_failed_page fetch 0 (Paging.children_url "gone")
           [] missing); [reflexivity | simpl; lia].
Defined.

(** A page that links to itself. *)
Lemma list_children_never_leaves_a_cycle_witness :
  let again := {| Paging.page_status := 200; Paging.value := Some [];
                  Paging.nextLink := Some "again"%string |} in
  let fetch := fun _ : string => inr again : exn + Paging.Page in
  Paging.list_children_loop 7 fetch (Paging.children_url "") [] = None.
Proof.
  intros again fetch.
  apply (list_children_never_leaves_a_cycle fetch (fun _ => True) 7
           (Paging.children_url "") []); [|exact I].
  intros u _. exists again, "again"%string. repeat split.
Defined.

(** Spaces around the extensions and an empty entry between two commas. *)
Lemma parsed_extensions_are_clean_witness :
  let args := {| Cli.arg_exts := Some " .txt, ,.PDF "%string;
                 Cli.arg_modified_after := None;
                 Cli.arg_min_mb := None; Cli.arg_max_mb := None |} in
  let f := Cli.parse_filters Z (fun x => x) (fun _ => None) args in
  exts f = Some [".txt"; ".PDF"]%string /\
  Forall (fun e => e <> ""%string /\ Cli.strip e = e) [".txt"; ".PDF"]%string.
Proof.
  intros args f. split; [reflexivity|].
  apply (parsed_extensions_are_clean Z (fun x => x) (fun _ => None) args
           [".txt"; ".PDF"]%string).
  reflexivity.
Defined.

(** The first lookup of [docs/b.txt] on [vault_drive]. *)
Lemma target_lookup_is_memoised_witness :
  let w := world vault_drive ∅ in
  let j := Some (new_file "b.txt" 5) in
  let cache' : gmap string (option Item) := <["docs/b.txt"%string := j]> ∅ in
  let run := target_lookup service "docs/b.txt" ∅ w in
  run = (inr (j, cache'), snd run) /\
  cache' !! "docs/b.txt"%string = Some j /\
  (forall p v, (∅ : gmap string (option Item)) !! p = Some v -> cache' !! p = Some v) /\
  forall w2 : World, target_lookup service "docs/b.txt" cache' w2 = (inr (j, cache'), w2).
Proof.
  intros w j cache' run.
  assert (run = (inr (j, cache'), snd run)) as Hrun by (vm_compute; reflexivity).
  split; [exact Hrun|].
  exact (target_lookup_is_memoised service "docs/b.txt" ∅ cache' j w (snd run) Hrun).
Defined.

(** The plan of [vault_drive] looks up three paths, each once. *)
Lemma planner_looks_up_each_path_once_witness :
  let w := world vault_drive ∅ in
  let run := plan_with_diff service no_dates 5 "" "" no_filters true w in
  let l := [folder "docs" "docs";
            file "docs/a.txt" "docs/a.txt" 10240 "file:a.txt" not_present;
            skip_vault "docs/Vault";
            file "docs/b.txt" "docs/b.txt" 5 "file:b.txt" exists_same;
            file "docs/c.txt" "docs/c.txt" 7 "file:c.txt" exists_different] in
  let s := Stats.Build_t 1 3 10252 1 1 1 1 in
  run = (inr (Some (l, s)), snd run) /\
  exists delta, calls (snd run) = calls w ++ delta /\ List.NoDup (lookup_paths delta).
Proof.
  intros w run l s.
  assert (run = (inr (Some (l, s)), snd run)) as Hrun by (vm_compute; reflexivity).
  split; [exact Hrun|].
  exact (planner_looks_up_each_path_once service no_dates "" no_filters true 5 ""
           l s w (snd run) Hrun).
Defined.

(** Every entry of the plan of [vault_drive] stands for an item of
    [vault_tree]. *)
Lemma plan_entries_are_items_of_the_tree_witness :
  let w := world vault_drive ∅ in
  let run := plan_with_diff service no_dates 5 "" "" no_filters true w in
  let l := [folder "docs" "docs";
            file "docs/a.txt" "docs/a.txt" 10240 "file:a.txt" not_present;
            skip_vault "docs/Vault";
            file "docs/b.txt" "docs/b.txt" 5 "file:b.txt" exists_same;
            file "docs/c.txt" "docs/c.txt" 7 "file:c.txt" exists_different] in
  let s := Stats.Build_t 1 3 10252 1 1 1 1 in
  run = (inr (Some (l, s)), snd run) /\
  Forall (fun a =>
            exists q it,
              Walked vault_children "" q /\ In it (vault_children q) /\
              entry_of no_dates no_filters q it a) l.
Proof.
  intros w run l s.
  assert (run = (inr (Some (l, s)), snd run)) as Hrun by (vm_compute; reflexivity).
  split; [exact Hrun|].
  apply (plan_entries_are_items_of_the_tree service no_dates "" no_filters true
           vault_children "" (fun r => source_children r = vault_tree))
    with (fuel := 5%nat) (s := s) (w := w) (w' := snd run).
  - intros p r res r' Hr H. injection H as <- <-. split; [exact Hr|].
    intros items Hres. injection Hres as <-.
    unfold vault_children. by rewrite Hr.
  - intros p r res r' Hr H. injection H as <- <-. exact Hr.
  - reflexivity.
  - exact Hrun.
Defined.

(** The statuses of the plan of [vault_drive] against its target. *)
Lemma plan_statuses_match_target_witness :
  let w := world vault_drive ∅ in
  let run := plan_with_diff service no_dates 5 "" "" no_filters true w in
  let l := [folder "docs" "docs";
            file "docs/a.txt" "docs/a.txt" 10240 "file:a.txt" not_present;
            skip_vault "docs/Vault";
            file "docs/b.txt" "docs/b.txt" 5 "file:b.txt" exists_same;
            file "docs/c.txt" "docs/c.txt" 7 "file:c.txt" exists_different] in
  let s := Stats.Build_t 1 3 10252 1 1 1 1 in
  run = (inr (Some (l, s)), snd run) /\
  Forall (diff_is_right (fun p => target_items vault_drive !! p)) l.
Proof.
  intros w run l s.
  assert (run = (inr (Some (l, s)), snd run)) as Hrun by (vm_compute; reflexivity).
  split; [exact Hrun|].
  apply (plan_statuses_match_target service no_dates "" no_filters true
           (fun p => target_items vault_drive !! p)
           (fun r => target_items r = target_items vault_drive))
    with (fuel := 5%nat) (source_root := ""%string) (s := s) (w := w) (w' := snd run).
  - intros p r res r' Hr H. injection H as <- <-. split; [exact Hr|].
    intros j Hres. injection Hres as <-. by rewrite Hr.
  - intros p r res r' Hr H. injection H as <- <-. exact Hr.
  - reflexivity.
  - exact Hrun.
Defined.

(** The file [docs/a.txt] of [vault_tree] has its entry in the plan. *)
Lemma plan_covers_the_tree_witness :
  let w := world vault_drive ∅ in
  let run := plan_with_diff service no_dates 5 "" "" no_filters true w in
  let l := [folder "docs" "docs";
            file "docs/a.txt" "docs/a.txt" 10240 "file:a.txt" not_present;
            skip_vault "docs/Vault";
            file "docs/b.txt" "docs/b.txt" 5 "file:b.txt" exists_same;
            file "docs/c.txt" "docs/c.txt" 7 "file:c.txt" exists_different] in
  let s := Stats.Build_t 1 3 10252 1 1 1 1 in
  run = (inr (Some (l, s)), snd run) /\
  Walked vault_children "" "docs" /\
  In (new_file "a.txt" 10240) (vault_children "docs") /\
  covered no_dates "" no_filters l "docs" (new_file "a.txt" 10240).
Proof.
  intros w run l s.
  assert (run = (inr (Some (l, s)), snd run)) as Hrun by (vm_compute; reflexivity).
  assert (Walked vault_children "" "docs") as Hwalk.
  { apply (walked_child vault_children "" "" (new_folder "docs"));
      [apply walked_root | left; reflexivity | reflexivity | reflexivity]. }
  assert (In (new_file "a.txt" 10240) (vault_children "docs")) as Hin
    by (left; reflexivity).
  split; [exact Hrun|]. split; [exact Hwalk|]. split; [exact Hin|].
  apply (plan_covers_the_tree service no_dates "" no_filters true
           vault_children "" (fun r => source_children r = vault_tree))
    with (fuel := 5%nat) (s := s) (w := w) (w' := snd run).
  - intros p r res r' Hr H. injection H as <- <-. split; [exact Hr|].
    intros items Hres. injection Hres as <-.
    unfold vault_children. by rewrite Hr.
  - intros p r res r' Hr H. injection H as <- <-. exact Hr.
  - reflexivity.
  - exact Hrun.
  - exact Hwalk.
  - exact Hin.
Defined.

(** The walk of [vault_tree] visits two folders: the root and [docs]. *)
Lemma plan_with_diff_terminates_witness :
  sized vault_children "" 2 /\
  exists l s w',
    plan_with_diff service no_dates 2 "" "" no_filters true (world vault_drive ∅)
    = (inr (Some (l, s)), w').
Proof.
  assert (sized vault_children "" 2) as Hsized.
  { apply (sized_node vault_children "" 1).
    apply (sized_cons vault_children "" (new_folder "docs") [] 1 0);
      [|apply sized_nil].
    apply (sized_node vault_children "docs" 0). apply sized_nil. }
  split; [exact Hsized|].
  apply (plan_with_diff_terminates service no_dates "" no_filters true
           vault_children "" (fun r => source_children r = vault_tree))
    with (n := 2%nat).
  - intros p r res r' Hr H. injection H as <- <-. split; [exact Hr|].
    intros items Hres. injection Hres as <-.
    unfold vault_children. by rewrite Hr.
  - intros p r res r' Hr H. injection H as <- <-. exact Hr.
  - intros p r _. eexists _, _. reflexivity.
  - intros p r _. eexists _, _. reflexivity.
  - reflexivity.
  - exact Hsized.
  - lia.
Defined.

(** A copy of [two_files]: no DELETE among its requests. *)
Lemma copy_never_deletes_witness :
  let w := world half_drive ∅ in
  extends (fun c => forall id, c <> DeleteSourceItem id)
          w (snd (execute service "rename" two_files "copy" false
                    (Some cache_file) w)).
Proof.
  intros w.
  apply (copy_never_deletes service "rename" two_files "copy" false
           (Some cache_file) w).
  discriminate.
Defined.

(** Moving the one file [half_drive] has content for. *)
Lemma execute_summary_matches_plan_witness :
  let w := world half_drive ∅ in
  let plan := [skip_vault "v"; file "one.txt" "one.txt" 3 "one" not_present] in
  let run := execute service "rename" plan "move" false (Some cache_file) w in
  let s := Summary.Build_t 1 3 1 0 0 1 in
  run = (inr s, snd run) /\
  s = summary_of "move" false
        (processed_set (read_cache (Some cache_file) (disk w))) plan.
Proof.
  intros w plan run s.
  assert (run = (inr s, snd run)) as Hrun by (vm_compute; reflexivity).
  split; [exact Hrun|].
  exact (execute_summary_matches_plan service "rename" plan "move" false
           (Some cache_file) w (snd run) s Hrun).
Defined.

(** The same plan run twice: a copy, then a move that finds nothing to do. *)
Lemma second_run_transfers_nothing_witness :
  let w := world half_drive ∅ in
  let plan := [skip_vault "v"; file "one.txt" "one.txt" 3 "one" not_present] in
  let run := execute service "rename" plan "copy" false (Some cache_file) w in
  let s1 := Summary.Build_t 1 3 0 0 0 1 in
  let w2 := world half_drive (disk (snd run)) in
  run = (inr s1, snd run) /\
  extends (fun c => transfer_call c = false)
          w2 (snd (execute service "rename" plan "move" true (Some cache_file) w2)) /\
  forall s2,
    fst (execute service "rename" plan "move" true (Some cache_file) w2) = inr s2 ->
    Summary.files_copied s2 = 0 /\ Summary.bytes_copied s2 = 0 /\
    Summary.deleted s2 = 0 /\ Summary.skipped_identical s2 = 0.
Proof.
  intros w plan run s1 w2.
  assert (run = (inr s1, snd run)) as Hrun by (vm_compute; reflexivity).
  split; [exact Hrun|].
  exact (second_run_transfers_nothing service "rename" plan "copy" "move"
           false true cache_file w (snd run) w2 s1 eq_refl Hrun eq_refl).
Defined.

(** Three chunks offered; the second is answered 201. *)
Lemma upload_large_stops_at_first_final_reply_witness :
  let reader := {| chunks := [three_bytes; three_bytes; three_bytes];
                   broken := None |} in
  upload_large Scripted.service "rename" "big.bin" 9 reader
    (Scripted.world (replicate 1 (inr 202) ++ inr 201 :: []))
  = (inr tt,
     {| remote := [];
        calls := PostUploadSession "big.bin" "rename"
                 :: chunk_calls ("session:" +:+ "big.bin") 9 0
                      (take 2 (chunks reader));
        disk := ∅ |}).
Proof.
  intros reader.
  apply (upload_large_stops_at_first_final_reply "rename" "big.bin" 9 1 201 []
           reader); [lia | simpl; lia].
Defined.

(** A file the source gives no download URL for, in move mode. *)
Lemma failed_transfer_keeps_the_source_witness :
  let w := Scripted.world [] in
  let a := file "a.txt" "docs/a.txt" 3 "a" not_present in
  let run := execute_action Scripted.service "rename" "move" false
               (Some cache_file) ∅ (Summary.zero, empty_cache) a w in
  fst run = inl (RuntimeError "No download URL") /\
  extends keeps_source w (snd run) /\ disk (snd run) = disk w.
Proof.
  intros w a.
  apply (failed_transfer_keeps_the_source Scripted.service "rename" "move" false
           (Some cache_file) ∅ (Summary.zero, empty_cache)
           "a.txt" "docs/a.txt" "a" 3 not_present
           (RuntimeError "No download URL") w).
  - reflexivity.
  - reflexivity.
Defined.

(** [docs/reports] on a target that holds exactly [docs] and
    [docs/reports]: two GETs, no POST. *)
Lemma ensure_folder_all_present_witness :
  let w := world reports_drive ∅ in
  fst (ensure_folder service "rename" "docs/reports" w) = inr tt /\
  calls (snd (ensure_folder service "rename" "docs/reports" w))
  = calls w ++ [GetTargetItem "docs"; GetTargetItem "docs/reports"].
Proof.
  intros w.
  apply (ensure_folder_all_present service "rename" (fun r => r = reports_drive)
           "docs/reports" w); [|reflexivity].
  intros p r Hin ->.
  destruct Hin as [<-|[<-|[]]]; exists 200, reports_drive;
    (split; [vm_compute; reflexivity | split; [lia | reflexivity]]).
Defined.

End Examples.
